(** * A_star_maze.py: maze generation and A* search

    A shallow embedding of [generate_maze], [heuristic], [astar], the key
    handler of [visualize_maze_search] and the script from
    [src/A_star_maze.py], followed by the properties of the specification
    that concern them and by further properties of the code.

    Modelling conventions.
    - Python integers are [Z]; a cell [(row, col)] is a pair of [Z].
    - A grid is a list of rows, each a list of integers ([1] wall, [0] open),
      indexed the way Python indexes lists: a negative index counts from the
      end, an index out of range raises [IndexError].
    - The dictionaries [g_score] and [came_from] are finite maps keyed by
      cells; a missing key raises [KeyError].
    - [heapq] is modelled by its contract: the frontier is a bag of
      [(f, cell)] tuples and [heappop] removes the smallest one under
      Python's tuple order; the array layout of the binary heap is not
      modelled.
    - [random.shuffle] is an oracle: the [k]-th call made since the program
      started leaves [rng k l] in the list [l]. The theorems about the
      generator assume each outcome is a permutation of its input.
    - The two [while] loops of [astar] take a fuel argument; the theorems
      show that the fuel supplied is never exhausted.
    - The recursion of [visit] runs against the interpreter's recursion
      limit (line 7): every call takes a stack frame, and a call for which
      none is left raises [RecursionError]. Frames are counted as CPython
      3.11 counts them.

    Layout: the program, the definitions the statements use, the lemmas
    about the search, the lemmas about the generator, the properties;
    then the further properties of the search, the generator, the viewer
    and the script. *)

From stdpp Require Import gmap list strings pretty.
From Stdlib Require Import ZArith Lia.

Local Open Scope Z_scope.

(** ** Outcomes of a call *)

Inductive exn := IndexError | KeyError | RecursionError | ValueError.

Inductive outcome (A : Type) : Type :=
| Return (a : A)
| Raise (e : exn)
| OutOfFuel.

Arguments Return {A} a.
Arguments Raise {A} e.
Arguments OutOfFuel {A}.

Global Instance outcome_ret : MRet outcome := λ A a, Return a.

Global Instance outcome_bind : MBind outcome := λ A B k m,
  match m with
  | Return a => k a
  | Raise e => Raise e
  | OutOfFuel => OutOfFuel
  end.

Fixpoint foldM {A B} (f : A → B → outcome A) (a : A) (l : list B) : outcome A :=
  match l with
  | [] => Return a
  | b :: l' => a' ← f a b; foldM f a' l'
  end.

(** ** Python lists *)

Abbreviation cell := (Z * Z)%type.

(** [l[i]] for a list of length [len]: the position read, if any. *)
Definition py_index (len : nat) (i : Z) : option nat :=
  let j := if i <? 0 then i + Z.of_nat len else i in
  if (0 <=? j) && (j <? Z.of_nat len) then Some (Z.to_nat j) else None.

Definition getitem {A} (l : list A) (i : Z) : outcome A :=
  match py_index (length l) i with
  | Some j => match l !! j with
              | Some x => Return x
              | None => Raise IndexError
              end
  | None => Raise IndexError
  end.

Definition setitem {A} (l : list A) (i : Z) (x : A) : outcome (list A) :=
  match py_index (length l) i with
  | Some j => Return (<[j:=x]> l)
  | None => Raise IndexError
  end.

(** [grid[r][c]] *)
Definition getitem2 (grid : list (list Z)) (r c : Z) : outcome Z :=
  row ← getitem grid r; getitem row c.

(** [grid[r][c] = v]; the rows are distinct list objects. *)
Definition setitem2 (grid : list (list Z)) (r c v : Z) : outcome (list (list Z)) :=
  row ← getitem grid r;
  row' ← setitem row c v;
  setitem grid r row'.

(** [d[k]] on a dictionary *)
Definition dict_get {V} (d : gmap cell V) (k : cell) : outcome V :=
  match d !! k with
  | Some v => Return v
  | None => Raise KeyError
  end.

(** ** A* search (lines 47-106) *)

Definition heuristic (a b : cell) : Z :=
  Z.abs (a.1 - b.1) + Z.abs (a.2 - b.2).

(** Python's order on the tuples [(f, (x, y))]. *)
Definition cell_ltb (a b : cell) : bool :=
  (a.1 <? b.1) || ((a.1 =? b.1) && (a.2 <? b.2)).

Definition entry_leb (a b : Z * cell) : bool :=
  (a.1 <? b.1) || ((a.1 =? b.1) && negb (cell_ltb b.2 a.2)).

Definition heappush (h : list (Z * cell)) (e : Z * cell) : list (Z * cell) :=
  e :: h.

Fixpoint heappop (h : list (Z * cell)) : option ((Z * cell) * list (Z * cell)) :=
  match h with
  | [] => None
  | e :: t =>
      match heappop t with
      | None => Some (e, [])
      | Some (m, t') => if entry_leb e m then Some (e, t) else Some (m, e :: t')
      end
  end.

Inductive Status := Searching | GoalReached.

Record StepRecord := {
  node : cell;
  g : Z;
  h : Z;
  f : Z;
  neighbors : list (cell * Z * Z * Z);
  status : Status
}.

Record astar_state := {
  open_set : list (Z * cell);
  came_from : gmap cell cell;
  g_score : gmap cell Z;
  steps : list StepRecord
}.

(** The state the [for] loop of lines 84-95 updates. *)
Record expand_state := {
  e_open : list (Z * cell);
  e_came : gmap cell cell;
  e_g : gmap cell Z;
  e_details : list (cell * Z * Z * Z)
}.

Inductive iter_result :=
| Continue (st : astar_state)
| Done (r : option (list cell) * list StepRecord).

(** Lines 67-69: follow [came_from] from [current], appending to [path];
    returns the list and the cell the loop stops at. *)
Fixpoint walk_back (fuel : nat) (cf : gmap cell cell) (current : cell)
    (path : list cell) : outcome (list cell * cell) :=
  match fuel with
  | O => OutOfFuel
  | S fuel' =>
      match cf !! current with
      | Some p => walk_back fuel' cf p (path ++ [current])
      | None => Return (path, current)
      end
  end.

Section Astar.
Variable grid : list (list Z).
Variables rows cols : Z.
Variables start goal : cell.

(** One turn of the [for] loop, lines 85-95. *)
Definition relax (current : cell) (es : expand_state) (n : cell)
  : outcome expand_state :=
  if (0 <=? n.1) && (n.1 <? rows) && (0 <=? n.2) && (n.2 <? cols) then
    v ← getitem2 grid n.1 n.2;
    if v =? 0 then
      gc ← dict_get (e_g es) current;
      let tentative_g := gc + 1 in
      let h_val := heuristic n goal in
      let f_val := tentative_g + h_val in
      let details := e_details es ++ [(n, tentative_g, h_val, f_val)] in
      if match e_g es !! n with
         | None => true
         | Some gn => tentative_g <? gn
         end
      then Return {| e_open := heappush (e_open es) (f_val, n);
                     e_came := <[n := current]> (e_came es);
                     e_g := <[n := tentative_g]> (e_g es);
                     e_details := details |}
      else Return {| e_open := e_open es; e_came := e_came es;
                     e_g := e_g es; e_details := details |}
    else Return es
  else Return es.

(** One turn of the [while] loop, lines 59-104; an empty frontier ends the
    loop and line 106 returns.  The record of line 71 is built after the
    loop of lines 67-69 has reassigned [current]. *)
Definition astar_iter (st : astar_state) : outcome iter_result :=
  match heappop (open_set st) with
  | None => Return (Done (None, steps st))
  | Some ((current_f, current), rest) =>
      current_g ← dict_get (g_score st) current;
      let current_h := heuristic current goal in
      if decide (current = goal) then
        '(path, current') ← walk_back (S (size (came_from st)))
                              (came_from st) current [];
        let path := path ++ [start] in
        Return (Done (Some (reverse path),
                      steps st ++ [ {| node := current'; g := current_g;
                                       h := current_h; f := current_f;
                                       neighbors := [];
                                       status := GoalReached |} ]))
      else
        let '(x, y) := current in
        es ← foldM (relax current)
               {| e_open := rest; e_came := came_from st;
                  e_g := g_score st; e_details := [] |}
               [(x + 1, y); (x - 1, y); (x, y + 1); (x, y - 1)];
        Return (Continue
                  {| open_set := e_open es; came_from := e_came es;
                     g_score := e_g es;
                     steps := steps st ++ [ {| node := current; g := current_g;
                                               h := current_h; f := current_f;
                                               neighbors := e_details es;
                                               status := Searching |} ] |})
  end.

Fixpoint astar_loop (fuel : nat) (st : astar_state)
  : outcome (option (list cell) * list StepRecord) :=
  match fuel with
  | O => OutOfFuel
  | S fuel' =>
      r ← astar_iter st;
      match r with
      | Continue st' => astar_loop fuel' st'
      | Done res => Return res
      end
  end.

(** The cells popped from the frontier by [astar_loop], in order. *)
Fixpoint popped_cells (fuel : nat) (st : astar_state) : list cell :=
  match fuel with
  | O => []
  | S fuel' =>
      match heappop (open_set st) with
      | None => []
      | Some ((_, current), _) =>
          current :: match astar_iter st with
                     | Return (Continue st') => popped_cells fuel' st'
                     | _ => []
                     end
      end
  end.

(** Lines 52-56. *)
Definition astar_init : astar_state :=
  {| open_set := heappush [] (0, start);
     came_from := ∅;
     g_score := {[ start := 0 ]};
     steps := [] |}.
End Astar.

(** Turns of the [while] loop that suffice on a grid of [n] cells. *)
Definition astar_fuel (n : nat) : nat := S (S (n * S (S n))).

Definition astar (grid : list (list Z)) (start goal : cell)
  : outcome (option (list cell) * list StepRecord) :=
  let rows := Z.of_nat (length grid) in
  row0 ← getitem grid 0;
  let cols := Z.of_nat (length row0) in
  astar_loop grid rows cols start goal
    (astar_fuel (length grid * length row0)) (astar_init start).

(** The cells [astar grid start goal] pops from its frontier, in order. *)
Definition astar_pops (grid : list (list Z)) (start goal : cell) : list cell :=
  match grid with
  | [] => []
  | row0 :: _ =>
      popped_cells grid (Z.of_nat (length grid)) (Z.of_nat (length row0))
        start goal (astar_fuel (length grid * length row0)) (astar_init start)
  end.

(** ** Maze generation (lines 12-42) *)

Abbreviation nbr := (Z * Z * Z * Z)%type.

(** Line 7: [sys.setrecursionlimit(5000)]. *)
Definition recursion_limit : Z := 5000.

(** The frames that may still be pushed while [generate_maze] runs, called
    as the script calls it (line 208). The interpreter (CPython 3.11)
    refuses the frame that would be number [recursion_limit] on the stack,
    and the frames of the module and of [generate_maze] are on it. *)
Definition free_frames : nat := Z.to_nat (recursion_limit - 3).

(** The frames [random.shuffle] takes: its own, and that of its helper
    [_randbelow], called once the list has two elements. *)
Definition shuffle_frames {A} (l : list A) : nat :=
  if (2 <=? length l)%nat then 2%nat else 1%nat.

Section Maze.
(** [rng k l]: what the [k]-th call of [random.shuffle] leaves in [l]. *)
Variable rng : nat → list nbr → list nbr.
Variables rows cols : Z.

(** Lines 17-26, called when [free] frames may still be pushed: the call
    takes one and [random.shuffle] those of [shuffle_frames], or
    [RecursionError] is raised. The second component counts the calls of
    [shuffle]. *)
Definition get_neighbors (free : nat) (r c : Z) (k : nat)
  : outcome (list nbr * nat) :=
  let directions := [(0, 2); (0, -2); (2, 0); (-2, 0)] in
  let neighbors :=
    directions ≫= λ d : cell,
      let nr := r + d.1 in
      let nc := c + d.2 in
      if (0 <=? nr) && (nr <? rows) && (0 <=? nc) && (nc <? cols)
      then [(nr, nc, d.1 `div` 2, d.2 `div` 2)]
      else [] in
  if (1 + shuffle_frames neighbors <=? free)%nat
  then Return (rng k neighbors, S k)
  else Raise RecursionError.

(** Lines 31-33: the body of the [for] loop of [visit r c], with the
    recursive call as a parameter. *)
Definition visit_step (vis : Z → Z → list (list Z) * nat → outcome (list (list Z) * nat))
    (r c : Z) (st : list (list Z) * nat) (n : nbr)
  : outcome (list (list Z) * nat) :=
  let '(nr, nc, dr, dc) := n in
  v ← getitem2 st.1 nr nc;
  if v =? 1 then
    maze ← setitem2 st.1 (r + dr) (c + dc) 0;
    vis nr nc (maze, st.2)
  else Return st.

(** Lines 28-33, called when [free] frames may still be pushed: the call
    takes one of them, or raises [RecursionError] when none is left. *)
Fixpoint visit (free : nat) (r c : Z) (st : list (list Z) * nat)
  : outcome (list (list Z) * nat) :=
  match free with
  | O => Raise RecursionError
  | S free' =>
      maze ← setitem2 st.1 r c 0;
      '(nbrs, k) ← get_neighbors free' r c st.2;
      foldM (visit_step (visit free') r c) (maze, k) nbrs
  end.

(** Line 15. *)
Definition all_walls : list (list Z) :=
  replicate (Z.to_nat rows) (replicate (Z.to_nat cols) 1).

(** Line 36: the randomized depth-first walk from [(0, 0)]. *)
Definition walk (k : nat) : outcome (list (list Z) * nat) :=
  visit free_frames 0 0 (all_walls, k).

(** [generate_maze] started when [shuffle] has been called [k] times:
    the grid, and the number of calls made by the time it returns. *)
Definition generate_maze (k : nat) : outcome (list (list Z) * nat) :=
  '(maze, k) ← walk k;
  maze ← setitem2 maze 0 0 0;
  maze ← setitem2 maze (rows - 1) (cols - 1) 0;
  Return (maze, k).
End Maze.

(** ** Grids and paths *)

Definition nrows (grid : list (list Z)) : Z := Z.of_nat (length grid).

Definition ncols (grid : list (list Z)) : Z :=
  Z.of_nat (length (default [] (grid !! 0%nat))).

(** Every row is as long as the first one. *)
Definition rectangular (grid : list (list Z)) : Prop :=
  Forall (λ row, Z.of_nat (length row) = ncols grid) grid.

Definition in_bounds (grid : list (list Z)) (c : cell) : Prop :=
  0 ≤ c.1 < nrows grid ∧ 0 ≤ c.2 < ncols grid.

Definition open_cell (grid : list (list Z)) (c : cell) : Prop :=
  in_bounds grid c ∧ getitem2 grid c.1 c.2 = Return 0.

(** 4-adjacency. *)
Definition adjacent (a b : cell) : Prop :=
  Z.abs (a.1 - b.1) + Z.abs (a.2 - b.2) = 1.

(** Consecutive elements of [p] are related by [R]. *)
Fixpoint chain {A} (R : A → A → Prop) (p : list A) : Prop :=
  match p with
  | a :: t => match t with
              | b :: _ => R a b ∧ chain R t
              | [] => True
              end
  | [] => True
  end.

(** [p] is a path of 4-adjacent open cells from [a] to [b]. *)
Definition joins (grid : list (list Z)) (p : list cell) (a b : cell) : Prop :=
  head p = Some a ∧ last p = Some b ∧
  Forall (open_cell grid) p ∧ chain adjacent p.

(** ** Reference breadth-first search

    The shortest-path length the specification compares [astar] with: a
    level-by-level breadth-first search over the open cells, counting the
    cells of a shortest path. *)

Definition open_cellb (grid : list (list Z)) (c : cell) : bool :=
  (0 <=? c.1) && (c.1 <? nrows grid) && (0 <=? c.2) && (c.2 <? ncols grid) &&
  match getitem2 grid c.1 c.2 with
  | Return v => v =? 0
  | _ => false
  end.

Definition neighbors4 (c : cell) : list cell :=
  [(c.1 + 1, c.2); (c.1 - 1, c.2); (c.1, c.2 + 1); (c.1, c.2 - 1)].

Definition open_neighbors (grid : list (list Z)) (c : cell) : list cell :=
  filter (λ n, open_cellb grid n = true) (neighbors4 c).

Fixpoint bfs_levels (fuel : nat) (grid : list (list Z)) (goal : cell)
    (visited frontier : list cell) (len : nat) : option nat :=
  match fuel with
  | O => None
  | S fuel' =>
      if bool_decide (goal ∈ frontier) then Some len
      else
        let next := remove_dups
                      (filter (λ c, c ∉ visited)
                         (frontier ≫= open_neighbors grid)) in
        match next with
        | [] => None
        | _ => bfs_levels fuel' grid goal (next ++ visited) next (S len)
        end
  end.

(** Number of cells of a shortest path from [start] to [goal], if any;
    there are at most as many levels as the grid has cells. *)
Definition bfs_length (grid : list (list Z)) (start goal : cell) : option nat :=
  if open_cellb grid start then
    bfs_levels (S (S (Z.to_nat (nrows grid * ncols grid)))) grid goal
      [start] [start] 1
  else None.

Section Reach.
Variable grid : list (list Z).
Variable start : cell.

(** [reach n c]: some path of [n] cells joins [start] to [c]. *)
Inductive reach : nat → cell → Prop :=
| reach_start : open_cell grid start → reach 1 start
| reach_step n u c :
    reach n u → adjacent u c → open_cell grid c → reach (S n) c.

Definition bfs_inv (visited frontier : list cell) (len : nat) : Prop :=
  (1 ≤ len)%nat ∧
  (∀ c, c ∈ visited ↔ ∃ n, (n ≤ len)%nat ∧ reach n c) ∧
  (∀ c, c ∈ frontier ↔ reach len c ∧ ∀ n, (n < len)%nat → ¬ reach n c).
End Reach.

(** ** The room graph of a maze *)

Section Rooms.
Variables rows cols : Z.
Variable maze : list (list Z).

(** A room cell: in bounds, both coordinates even. *)
Definition room (x : cell) : Prop :=
  (0 ≤ x.1 < rows ∧ 0 ≤ x.2 < cols) ∧ x.1 `mod` 2 = 0 ∧ x.2 `mod` 2 = 0.

Definition is_open (x : cell) : Prop := getitem2 maze x.1 x.2 = Return 0.

(** Two rooms next to each other: two steps apart along one axis. *)
Definition two_apart (a b : cell) : Prop :=
  (a.1 = b.1 ∧ Z.abs (a.2 - b.2) = 2) ∨ (a.2 = b.2 ∧ Z.abs (a.1 - b.1) = 2).

(** The wall cell between two neighbouring rooms. *)
Definition mid (a b : cell) : cell := ((a.1 + b.1) `div` 2, (a.2 + b.2) `div` 2).

(** An edge of the room graph: two neighbouring open rooms whose wall is
    open. *)
Definition passage (a b : cell) : Prop :=
  room a ∧ room b ∧ two_apart a b ∧
  is_open a ∧ is_open b ∧ is_open (mid a b).

Definition simple_path (p : list cell) (a b : cell) : Prop :=
  NoDup p ∧ head p = Some a ∧ last p = Some b ∧ chain passage p.

(** Every room is open, and any two open rooms are joined by exactly one
    simple path of passages. *)
Definition perfect_maze : Prop :=
  (∀ x, room x → is_open x) ∧
  ∀ a b, room a → room b → is_open a → is_open b →
    ∃ p, simple_path p a b ∧ ∀ p', simple_path p' a b → p' = p.
End Rooms.

(** ** Traces *)

Global Instance Status_eq_dec : EqDecision Status.
Proof. solve_decision. Defined.

(** Number of records tagged [Searching]. *)
Definition searching_count (tr : list StepRecord) : nat :=
  length (filter (λ r, status r = Searching) tr).

(** ** Concrete inputs *)

(** A grid on which a frontier entry goes stale: [(4,1)] is first pushed
    from [(3,1)] at cost 5, then from [(5,1)] at cost 3. The goal [(0,1)]
    is open and walled off. *)
Definition stale_grid : list (list Z) :=
  [ [1; 0; 1; 1];
    [1; 1; 1; 1];
    [1; 1; 1; 1];
    [1; 0; 0; 0];
    [1; 0; 1; 0];
    [1; 0; 0; 0] ].

(** A random source whose first four shuffles keep the order and whose
    later ones reverse it. *)
Definition rng_keep_then_rev (k : nat) (l : list nbr) : list nbr :=
  if (k <? 4)%nat then l else rev l.

(** ** Invariants of the search loop *)

Section AstarInvariants.
Variable grid : list (list Z).
Variables start goal : cell.

(** Every open neighbour of [c] has a cost within one of [gc]. *)
Definition closed (G : gmap cell Z) (c : cell) (gc : Z) : Prop :=
  ∀ n, adjacent c n → open_cell grid n →
    ∃ gn, G !! n = Some gn ∧ gn ≤ gc + 1.

(** What the three containers satisfy at every point of the search. *)
Record core_inv (H : list (Z * cell)) (CF : gmap cell cell)
    (G : gmap cell Z) : Prop := {
  core_start_g : G !! start = Some 0;
  core_start_cf : CF !! start = None;
  core_cf : ∀ c p, CF !! c = Some p →
    open_cell grid c ∧ adjacent p c ∧
    ∃ gc gp, G !! c = Some gc ∧ G !! p = Some gp ∧ gp + 1 ≤ gc;
  core_g : ∀ c gc, G !! c = Some gc →
    0 ≤ gc ≤ Z.of_nat (size CF) ∧ (c = start ∨ is_Some (CF !! c));
  core_heap : ∀ fc c, (fc, c) ∈ H →
    (c = start ∧ fc = 0) ∨
    ∃ gc, G !! c = Some gc ∧ gc + heuristic c goal ≤ fc
}.

(** The frontier against the costs: [X] lists the cells being expanded,
    [P] the cells popped so far. *)
Record front_inv (X P : list cell) (H : list (Z * cell))
    (G : gmap cell Z) : Prop := {
  front_closed : ∀ c gc, G !! c = Some gc →
    c ∈ X ∨ (c = start ∧ (0, start) ∈ H) ∨
    (gc + heuristic c goal, c) ∈ H ∨ closed G c gc;
  front_live : ∀ c gc, G !! c = Some gc →
    c = start ∨ (gc + heuristic c goal, c) ∈ H ∨ c ∈ P;
  front_seed : (0, start) ∈ H ∨ start ∈ P;
  front_goal : goal ∉ P
}.

(** No earlier record of [tr] is for the cell of its [i]-th record [r]. *)
Definition first_pop (tr : list StepRecord) (i : nat) (r : StepRecord) : Prop :=
  ∀ j r', (j < i)%nat → tr !! j = Some r' → node r' ≠ node r.

Definition details_ok (l : list (cell * Z * Z * Z)) : Prop :=
  ∀ n tg hv fv, (n, tg, hv, fv) ∈ l → fv = tg + hv.

Definition trace_inv (tr : list StepRecord) : Prop :=
  ∀ i r, tr !! i = Some r →
    status r = Searching ∧ node r ≠ goal ∧ details_ok (neighbors r) ∧
    (node r ≠ start → first_pop tr i r → f r = g r + h r).

Definition astar_inv (st : astar_state) : Prop :=
  core_inv (open_set st) (came_from st) (g_score st) ∧
  front_inv [] (node <$> steps st) (open_set st) (g_score st) ∧
  trace_inv (steps st).

Definition expand_inv (current : cell) (gcur : Z) (P : list cell)
    (es : expand_state) : Prop :=
  core_inv (e_open es) (e_came es) (e_g es) ∧
  front_inv [current] (current :: P) (e_open es) (e_g es) ∧
  e_g es !! current = Some gcur ∧
  details_ok (e_details es).
End AstarInvariants.

(** ** What a finished search returns *)

(** The cells of a grid of [rows] by [cols]. *)
Definition grid_cells (rows cols : Z) : list cell :=
  r ← seqZ 0 rows; (λ c, (r, c)) <$> seqZ 0 cols.

Definition all_cells (grid : list (list Z)) : list cell :=
  grid_cells (nrows grid) (ncols grid).

Definition trace_ok (start : cell) (tr : list StepRecord) : Prop :=
  ∀ i r, tr !! i = Some r →
    details_ok (neighbors r) ∧
    (status r = GoalReached ∨ (node r ≠ start ∧ first_pop tr i r) →
     f r = g r + h r).

Definition result_ok (grid : list (list Z)) (start goal : cell)
    (res : option (list cell) * list StepRecord) : Prop :=
  trace_ok start res.2 ∧
  match res.1 with
  | Some p =>
      head p = Some start ∧ last p = Some goal ∧
      chain (λ a b, adjacent a b ∧ open_cell grid b) p ∧
      (∀ q, joins grid q start goal → (length p ≤ length q)%nat) ∧
      (length p ≤ S (length (all_cells grid)))%nat ∧
      ∃ tr r, res.2 = tr ++ [r] ∧ Forall (λ r', status r' = Searching) tr ∧
              status r = GoalReached ∧ neighbors r = [] ∧ node r = start
  | None =>
      (∀ q, ¬ joins grid q start goal) ∧
      Forall (λ r, status r = Searching) res.2
  end.

(** ** Termination measure of the search loop *)

(** How many more times [c] can be pushed: each push lowers its cost. *)
Definition rem_pushes (bound : nat) (G : gmap cell Z) (c : cell) : nat :=
  match G !! c with
  | Some gc => Z.to_nat gc
  | None => bound
  end.

Definition potential (grid : list (list Z)) (H : list (Z * cell))
    (G : gmap cell Z) : nat :=
  (length H +
   sum_list (rem_pushes (S (S (length (all_cells grid)))) G <$> all_cells grid))%nat.

(** ** Trees grown one leaf at a time *)

Section Trees.
Variable root : cell.

(** The vertices touched by the edges [es], each edge running from a
    parent to its child. *)
Definition verts (es : list (cell * cell)) : list cell := root :: es.*2.

Definition edge (es : list (cell * cell)) (a b : cell) : Prop :=
  (a, b) ∈ es ∨ (b, a) ∈ es.

(** [es] was built by hanging one new vertex at a time under an old one. *)
Inductive grown : list (cell * cell) → Prop :=
| grown_nil : grown []
| grown_cons u v es :
    grown es → u ∈ verts es → v ∉ verts es → grown ((u, v) :: es).

Definition upath (es : list (cell * cell)) (p : list cell) (a b : cell) : Prop :=
  NoDup p ∧ head p = Some a ∧ last p = Some b ∧ chain (edge es) p.
End Trees.

(** The rooms of a [rows] by [cols] grid, each once. *)
Definition room_cells (rows cols : Z) : list cell :=
  (λ x : cell, (2 * x.1, 2 * x.2)) <$>
  grid_cells ((rows + 1) `div` 2) ((cols + 1) `div` 2).

(** The rooms leave the recursion of [visit] the frames it needs. *)
Definition rooms_fit (rows cols : Z) : Prop :=
  ((rows + 1) `div` 2) * ((cols + 1) `div` 2) + 6 ≤ recursion_limit.

(** ** Invariants of the maze walk *)

Global Instance exn_eq_dec : EqDecision exn.
Proof. solve_decision. Defined.

Global Instance outcome_eq_dec {A} `{EqDecision A} : EqDecision (outcome A).
Proof. solve_decision. Defined.

(** The value at a cell of non-negative coordinates, if the grid has it. *)
Definition cell_at (maze : list (list Z)) (x : cell) : option Z :=
  row ← maze !! Z.to_nat x.1; row !! Z.to_nat x.2.

Section MazeInvariants.
Variables rows cols : Z.

Definition shape (maze : list (list Z)) : Prop :=
  length maze = Z.to_nat rows ∧
  ∀ row, row ∈ maze → length row = Z.to_nat cols.

(** The cells the tree edges [es] account for: the rooms they touch and
    the wall between the two rooms of each edge. *)
Definition opened (es : list (cell * cell)) (x : cell) : Prop :=
  x ∈ verts (0, 0) es ∨ ∃ u v, (u, v) ∈ es ∧ x = mid u v.

Record maze_inv (maze : list (list Z)) (es : list (cell * cell)) : Prop := {
  mi_shape : shape maze;
  mi_grown : grown (0, 0) es;
  mi_edges : ∀ u v, (u, v) ∈ es →
    room rows cols u ∧ room rows cols v ∧ two_apart u v;
  mi_cells : ∀ x, 0 ≤ x.1 < rows ∧ 0 ≤ x.2 < cols →
    (cell_at maze x = Some 0 ∧ opened es x) ∨
    (cell_at maze x = Some 1 ∧ ¬ opened es x)
}.

(** Every neighbouring room of [x] is open. *)
Definition complete (maze : list (list Z)) (x : cell) : Prop :=
  ∀ y, room rows cols y → two_apart x y → cell_at maze y = Some 0.

(** Number of rooms still walls. *)
Definition closed_count (maze : list (list Z)) : nat :=
  length (filter (λ x, cell_at maze x = Some 1) (room_cells rows cols)).

(** What a neighbour tuple built by [get_neighbors r c] satisfies. *)
Definition nbr_ok (r c : Z) (n : nbr) : Prop :=
  room rows cols (n.1.1.1, n.1.1.2) ∧
  two_apart (r, c) (n.1.1.1, n.1.1.2) ∧
  (r + n.1.2, c + n.2) = mid (r, c) (n.1.1.1, n.1.1.2).

(** [vis], called with [N] free frames on a closed room, either visits it
    correctly, with one shuffle for the room and one for each room hung
    under it, or raises [RecursionError]; the latter only when the rooms
    still walls once the room is opened do not leave four frames spare. *)
Definition vis_spec
    (vis : Z → Z → list (list Z) * nat → outcome (list (list Z) * nat))
    (N : nat) : Prop :=
  ∀ r c maze k maze1 es,
    setitem2 maze r c 0 = Return maze1 →
    maze_inv maze1 es → (r, c) ∈ verts (0, 0) es → room rows cols (r, c) →
    match vis r c (maze, k) with
    | Return (maze', k') =>
        ∃ es',
          maze_inv maze' (es' ++ es) ∧
          (∀ x, x ∈ (r, c) :: es'.*2 → complete maze' x) ∧
          k' = (k + 1 + length es')%nat
    | Raise RecursionError => (N < closed_count maze1 + 4)%nat
    | _ => False
    end.
End MazeInvariants.

(** ** Two runs of the generator *)

(** The grid a call returns, without the state of the random source. *)
Definition grid_only (o : outcome (list (list Z) * nat)) : outcome (list (list Z)) :=
  r ← o; Return r.1.

(** Two calls end the same way, with the same grid, after as many
    shuffles; the first started at shuffle [k1], the second at [k2]. *)
Definition same_run (k1 k2 : nat) (o1 o2 : outcome (list (list Z) * nat)) : Prop :=
  match o1, o2 with
  | Return (m1, j1), Return (m2, j2) =>
      m1 = m2 ∧ ∃ d, j1 = (k1 + d)%nat ∧ j2 = (k2 + d)%nat
  | Raise e1, Raise e2 => e1 = e2
  | OutOfFuel, OutOfFuel => True
  | _, _ => False
  end.

(** ** Further properties of the search: definitions *)

(** The cell a record was made for: its [node], except for the terminal
    record, made for the goal. *)
Definition popped_cell (goal : cell) (r : StepRecord) : cell :=
  match status r with
  | Searching => node r
  | GoalReached => goal
  end.

(** [n] is the least number of steps of a path of open cells from [s] to
    [c]. *)
Definition shortest_steps (grid : list (list Z)) (s c : cell) (n : Z) : Prop :=
  (∃ q, joins grid q s c ∧ Z.of_nat (length q) = n + 1) ∧
  ∀ q, joins grid q s c → n + 1 ≤ Z.of_nat (length q).

(** ** The step viewer (lines 111-201)

    [visualize_maze_search] draws the maze once and then redraws three
    plots, a text panel and a title on every key press. The model keeps
    what the key handler reads and writes: the counter [state['step_idx']]
    and the data last given to each artist. The maze image, the start and
    goal markers and the legend are drawn once and never touched again;
    they are not part of the state. Of the set-up, the model keeps the two
    calls that depend on the grid: [len(grid[0])] (line 112) and
    [imshow(grid)] (line 122). The other calls into matplotlib ([plot],
    [set_data], [set_text], [set_title], [draw_idle]) are taken to store
    what they are given and not to raise. The key presses delivered by the
    event loop of [plt.show()] are an input list. *)

Definition nl : string := String (Ascii.ascii_of_nat 10) "".

(** [str] of an integer and of a pair of integers, as an f-string prints
    them. *)
Definition py_int (n : Z) : string := pretty n.

Definition py_tuple (c : cell) : string :=
  "(" +:+ py_int c.1 +:+ ", " +:+ py_int c.2 +:+ ")".

(** The value stored under ['status'] (lines 76 and 103). *)
Definition status_text (s : Status) : string :=
  match s with
  | Searching => "Searching..."
  | GoalReached => "Goal Reached!"
  end.

(** [range(n)] *)
Definition range (n : Z) : list Z := seqZ 0 n.

Record display := {
  visited_plot : list Z * list Z;
  path_plot : list Z * list Z;
  current_node_plot : list Z * list Z;
  text_display : string;
  title : string
}.

Record viewer := {
  step_idx : Z;
  shown : display
}.

(** Lines 153-166: the text of a search step. *)
Definition neighbor_line (n : cell * Z * Z * Z) : string :=
  let '(n_node, ng, nh, nf) := n in
  "  " +:+ py_tuple n_node +:+ ": G=" +:+ py_int ng +:+ ", H=" +:+ py_int nh
       +:+ ", F=" +:+ py_int nf +:+ nl.

Definition step_info (idx : Z) (step : StepRecord) : string :=
  let info := "Step " +:+ py_int (idx + 1) +:+ ": " +:+ status_text (status step) +:+ nl in
  let info := info +:+ "--------------------------------" +:+ nl in
  let info := info +:+ "Current Node: " +:+ py_tuple (node step) +:+ nl in
  let info := info +:+ "  G (Cost): " +:+ py_int (g step) +:+ nl in
  let info := info +:+ "  H (Dist): " +:+ py_int (h step) +:+ nl in
  let info := info +:+ "  F (Total): " +:+ py_int (f step) +:+ nl +:+ nl in
  match neighbors step with
  | _ :: _ =>
      foldl (λ info n, info +:+ neighbor_line n)
            (info +:+ "Neighbors Checked:" +:+ nl) (neighbors step)
  | [] => info +:+ "No valid neighbors." +:+ nl
  end.

(** Line 185. *)
Definition tracing_text : string :=
  "Search Complete." +:+ nl +:+ nl +:+
  "Tracing back path from Goal to Start." +:+ nl +:+ nl +:+
  "The yellow line represents the" +:+ nl +:+ "optimal path found.".

(** Line 198. *)
Definition welcome_text : string :=
  "LABYRINTH MODE" +:+ nl +:+ nl +:+
  "Press SPACE or RIGHT ARROW" +:+ nl +:+ "to advance." +:+ nl +:+ nl +:+
  "Detailed values shown here.".

(** Lines 130-140 and 198: the artists before the first key press. *)
Definition initial_display : display :=
  {| visited_plot := ([], []);
     path_plot := ([], []);
     current_node_plot := ([], []);
     text_display := welcome_text;
     title := "Labyrinth A* Search" |}.

Definition initial_viewer : viewer :=
  {| step_idx := -1; shown := initial_display |}.

(** [len(path) if path else 0] *)
Definition path_len (path : option (list cell)) : Z :=
  match path with
  | Some ((_ :: _) as p) => Z.of_nat (length p)
  | _ => 0
  end.

(** Lines 142-185; [steps] and [path] are the arguments of the enclosing
    function. *)
Definition update_display (steps : list StepRecord) (path : option (list cell))
    (idx : Z) (d : display) : outcome display :=
  if idx <? 0 then Return d
  else if idx <? Z.of_nat (length steps) then
    step ← getitem steps idx;
    let n := node step in
    current_visited_x ← mapM (λ i, s ← getitem steps i; Return (node s).2)
                             (range (idx + 1));
    current_visited_y ← mapM (λ i, s ← getitem steps i; Return (node s).1)
                             (range (idx + 1));
    Return {| visited_plot := (current_visited_x, current_visited_y);
              path_plot := path_plot d;
              current_node_plot := ([n.2], [n.1]);
              text_display := step_info idx step;
              title := "Visiting: " +:+ py_tuple n |}
  else
    match path with
    | Some ((_ :: _) as p) =>
        let path_idx := idx - Z.of_nat (length steps) in
        if path_idx <? Z.of_nat (length p) then
          current_path_x ← mapM (λ i, c ← getitem p i; Return c.2)
                                (range (path_idx + 1));
          current_path_y ← mapM (λ i, c ← getitem p i; Return c.1)
                                (range (path_idx + 1));
          Return {| visited_plot := visited_plot d;
                    path_plot := (current_path_x, current_path_y);
                    current_node_plot := current_node_plot d;
                    text_display := tracing_text;
                    title := "Tracing Final Path" |}
        else Return d
    | _ => Return d
    end.

(** Lines 187-194: the key handler, given [event.key]. *)
Definition on_key (steps : list StepRecord) (path : option (list cell))
    (v : viewer) (key : string) : outcome viewer :=
  if bool_decide (key ∈ [" "; "right"]) then
    let idx := step_idx v + 1 in
    let max_steps := Z.of_nat (length steps) + path_len path in
    let idx := if max_steps <=? idx then max_steps - 1 else idx in
    d ← update_display steps path idx (shown v);
    Return {| step_idx := idx; shown := d |}
  else Return v.

Global Instance rectangular_dec grid : Decision (rectangular grid).
Proof. unfold rectangular. apply _. Defined.

(** Line 122: [imshow] turns the grid into a numpy array, and numpy (1.24
    and later) refuses a list of rows of different lengths with
    [ValueError]. The cells are taken to fit numpy's integers. *)
Definition imshow (grid : list (list Z)) : outcome unit :=
  if bool_decide (rectangular grid) then Return () else Raise ValueError.

(** A grid as the specification has it: rectangular, with a row and a
    column at least, every cell 0 or 1. *)
Definition maze_grid (grid : list (list Z)) : Prop :=
  grid ≠ [] ∧ 0 < ncols grid ∧ rectangular grid ∧
  Forall (Forall (λ v, v = 0 ∨ v = 1)) grid.

(** [visualize_maze_search grid start goal path steps] under the key
    presses [keys]: the viewer when the last of them has been handled. The
    handler is connected (line 196) once the set-up has gone through. *)
Definition visualize_maze_search (grid : list (list Z)) (start goal : cell)
    (path : option (list cell)) (steps : list StepRecord)
    (keys : list string) : outcome viewer :=
  _ ← getitem grid 0;
  _ ← imshow grid;
  foldM (on_key steps path) initial_viewer keys.

(** The key presses the handler acts on. *)
Definition advances (keys : list string) : Z :=
  Z.of_nat (length (filter (λ key, key ∈ [" "; "right"]) keys)).

(** The cells plotted: column numbers, then row numbers. *)
Definition plot_of (cells : list cell) : list Z * list Z :=
  (snd <$> cells, fst <$> cells).

(** What the viewer is expected to show after [n] key presses have moved
    it forward: a search step while [n] is at most [len(steps)], the first
    [n - len(steps)] cells of the path afterwards. *)
Definition display_after (steps : list StepRecord) (path : option (list cell))
    (n : nat) : display :=
  match n with
  | O => initial_display
  | S idx =>
      match steps !! idx with
      | Some step =>
          {| visited_plot := plot_of (node <$> take n steps);
             path_plot := ([], []);
             current_node_plot := plot_of [node step];
             text_display := step_info (Z.of_nat idx) step;
             title := "Visiting: " +:+ py_tuple (node step) |}
      | None =>
          {| visited_plot := plot_of (node <$> steps);
             path_plot := plot_of (take (n - length steps) (default [] path));
             current_node_plot := plot_of (option_list (node <$> last steps));
             text_display := tracing_text;
             title := "Tracing Final Path" |}
      end
  end.

Definition viewer_after (steps : list StepRecord) (path : option (list cell))
    (n : nat) : viewer :=
  {| step_idx := Z.of_nat n - 1; shown := display_after steps path n |}.

(** ** The script (lines 207-224)

    What the script prints, and the viewer it leaves, when [shuffle] has
    been called [k] times before and the key presses are [keys]. *)

Definition ROWS : Z := 21.
Definition COLS : Z := 21.

Definition main (rng : nat → list nbr → list nbr) (k : nat)
    (keys : list string) : outcome (list string * option viewer) :=
  '(maze, _) ← generate_maze rng ROWS COLS k;
  let start := (0, 0) in
  let goal := (ROWS - 1, COLS - 1) in
  maze ← setitem2 maze start.1 start.2 0;
  maze ← setitem2 maze goal.1 goal.2 0;
  '(path, steps) ← astar maze start goal;
  match path with
  | Some ((_ :: _) as p) =>
      v ← visualize_maze_search maze start goal path steps keys;
      Return (["Solving maze...";
               "Path found! Length: " +:+ pretty (length p)], Some v)
  | _ => Return (["Solving maze..."; "No path found!"], None)
  end.

(** ** The frontier *)

Lemma entry_leb_spec (a b : Z * cell) :
  entry_leb a b = true ↔
  a.1 < b.1 ∨ (a.1 = b.1 ∧ (a.2.1 < b.2.1 ∨ (a.2.1 = b.2.1 ∧ a.2.2 ≤ b.2.2))).
Proof.
  unfold entry_leb, cell_ltb.
  rewrite orb_true_iff, andb_true_iff, negb_true_iff, orb_false_iff,
    andb_false_iff, Z.ltb_lt, Z.eqb_eq, !Z.ltb_ge, Z.eqb_neq.
  lia.
Qed.

Lemma entry_leb_fst a b : entry_leb a b = true → a.1 ≤ b.1.
Proof. rewrite entry_leb_spec. lia. Qed.

Lemma entry_leb_refl a : entry_leb a a = true.
Proof. rewrite entry_leb_spec. lia. Qed.

Lemma entry_leb_trans a b c :
  entry_leb a b = true → entry_leb b c = true → entry_leb a c = true.
Proof. rewrite !entry_leb_spec. lia. Qed.

Lemma entry_leb_total a b : entry_leb a b = false → entry_leb b a = true.
Proof.
  intros H. destruct (entry_leb b a) eqn:E; [done|].
  apply not_true_iff_false in H, E. rewrite entry_leb_spec in H, E. lia.
Qed.

Lemma heappop_None h : heappop h = None ↔ h = [].
Proof.
  destruct h as [|e t]; [done|]. simpl.
  destruct (heappop t) as [[m t']|]; [destruct (entry_leb e m)|]; done.
Qed.

Lemma heappop_Some h m rest :
  heappop h = Some (m, rest) →
  h ≡ₚ m :: rest ∧ ∀ e, e ∈ h → entry_leb m e = true.
Proof.
  revert m rest. induction h as [|e t IH]; intros m rest; [done|]. simpl.
  destruct (heappop t) as [[m' t']|] eqn:Ht.
  - destruct (IH _ _ eq_refl) as [Hp Hmin].
    destruct (entry_leb e m') eqn:Hle; intros [= <- <-].
    + split; [done|]. intros x [->|Hx]%elem_of_cons.
      * apply entry_leb_refl.
      * eapply entry_leb_trans; eauto.
    + split.
      * rewrite Hp. apply Permutation_swap.
      * intros x [->|Hx]%elem_of_cons; [by apply entry_leb_total | eauto].
  - apply heappop_None in Ht as ->. intros [= <- <-]. split; [done|].
    intros x ->%list_elem_of_singleton. apply entry_leb_refl.
Qed.

Lemma heappop_elem h m rest e :
  heappop h = Some (m, rest) → e ∈ h ↔ e = m ∨ e ∈ rest.
Proof.
  intros [Hp _]%heappop_Some. rewrite Hp. apply elem_of_cons.
Qed.

Lemma heappop_length h m rest :
  heappop h = Some (m, rest) → length h = S (length rest).
Proof. intros [Hp _]%heappop_Some. by rewrite Hp. Qed.

(** ** Cells and adjacency *)

Lemma adjacent_neighbors4 a b : adjacent a b ↔ b ∈ neighbors4 a.
Proof.
  unfold adjacent, neighbors4. destruct a as [x y], b as [x' y']. simpl.
  rewrite !elem_of_cons, elem_of_nil. split.
  - intros H.
    assert ((x' = x + 1 ∧ y' = y) ∨ (x' = x - 1 ∧ y' = y) ∨
            (x' = x ∧ y' = y + 1) ∨ (x' = x ∧ y' = y - 1)) as Hc by lia.
    destruct Hc as [[-> ->]|[[-> ->]|[[-> ->]|[-> ->]]]]; auto.
  - intros [[= -> ->]|[[= -> ->]|[[= -> ->]|[[= -> ->]|[]]]]]; lia.
Qed.

Lemma adjacent_sym a b : adjacent a b → adjacent b a.
Proof. unfold adjacent. lia. Qed.

Lemma adjacent_ne a b : adjacent a b → a ≠ b.
Proof. unfold adjacent. intros H ->. lia. Qed.

Lemma heuristic_adjacent a b t : adjacent a b → heuristic a t ≤ heuristic b t + 1.
Proof. unfold adjacent, heuristic. lia. Qed.

Lemma heuristic_refl c : heuristic c c = 0.
Proof. unfold heuristic. lia. Qed.

Lemma heuristic_nonneg a b : 0 ≤ heuristic a b.
Proof. unfold heuristic. lia. Qed.

(** The heuristic never exceeds the number of steps of a path to the goal. *)
Lemma heuristic_admissible (q : list cell) a t :
  head q = Some a → last q = Some t → chain adjacent q →
  heuristic a t ≤ Z.of_nat (length q) - 1.
Proof.
  revert a. induction q as [|x q IH]; intros a; [done|].
  intros [= ->]. destruct q as [|b q'].
  - intros [= ->] _. rewrite heuristic_refl. simpl. lia.
  - intros Hl [Hab Hc]. rewrite last_cons_cons in Hl.
    specialize (IH b eq_refl Hl Hc).
    pose proof (heuristic_adjacent a b t Hab). simpl length in *. lia.
Qed.

(** ** Python indexing *)

Lemma py_index_nonneg len i :
  0 ≤ i → py_index len i = if bool_decide (i < Z.of_nat len) then Some (Z.to_nat i) else None.
Proof.
  intros Hi. unfold py_index.
  destruct (Z.ltb_spec i 0); [lia|].
  destruct (Z.leb_spec 0 i); [|lia]. simpl.
  destruct (Z.ltb_spec i (Z.of_nat len)); case_bool_decide; done || lia.
Qed.

Lemma getitem_inb {A} (l : list A) i :
  0 ≤ i < Z.of_nat (length l) →
  ∃ x, l !! Z.to_nat i = Some x ∧ getitem l i = Return x.
Proof.
  intros Hi. destruct (lookup_lt_is_Some_2 l (Z.to_nat i)) as [x Hx]; [lia|].
  exists x. split; [done|]. unfold getitem.
  rewrite py_index_nonneg by lia. rewrite bool_decide_true by lia. by rewrite Hx.
Qed.

Lemma getitem_Return {A} (l : list A) i x :
  0 ≤ i → getitem l i = Return x →
  i < Z.of_nat (length l) ∧ l !! Z.to_nat i = Some x.
Proof.
  intros Hi. unfold getitem. rewrite py_index_nonneg by lia.
  case_bool_decide; [|done].
  destruct (l !! Z.to_nat i) eqn:E; [|done]. by intros [= ->].
Qed.

Lemma getitem2_inb grid (c : cell) :
  rectangular grid → in_bounds grid c → ∃ v, getitem2 grid c.1 c.2 = Return v.
Proof.
  intros Hrect [Hr Hc]. unfold getitem2.
  destruct (getitem_inb grid c.1 Hr) as (row & Hrow & ->). simpl.
  assert (Z.of_nat (length row) = ncols grid) as Hlen.
  { unfold rectangular in Hrect. rewrite Forall_forall in Hrect.
    apply Hrect. by eapply list_elem_of_lookup_2. }
  destruct (getitem_inb row c.2) as (v & _ & ->); [lia|]. by exists v.
Qed.

Lemma getitem_0_nonempty {A} (l : list A) :
  l ≠ [] → ∃ x, l !! 0%nat = Some x ∧ getitem l 0 = Return x.
Proof.
  destruct l as [|x l]; [done|]. intros _. exists x. split; [done|].
  unfold getitem, py_index. simpl.
  replace (0 <? Z.pos (Pos.of_succ_nat (length l))) with true by (symmetry; apply Z.ltb_lt; lia).
  done.
Qed.

Lemma open_cell_nonempty grid c : open_cell grid c → grid ≠ [].
Proof.
  intros [[[? Hr] _] _] ->. unfold nrows in Hr. simpl in Hr. lia.
Qed.

(** ** One neighbour evaluation preserves the invariants *)

Section Relax.
Variable grid : list (list Z).
Variables start goal : cell.

Local Abbreviation core_inv := (core_inv grid start goal).
Local Abbreviation front_inv := (front_inv grid start goal).
Local Abbreviation expand_inv := (expand_inv grid start goal).

Lemma core_dom_cf H CF G n :
  core_inv H CF G → n ≠ start → G !! n = None ↔ CF !! n = None.
Proof.
  intros Hc Hn. split; intros Hnone.
  - destruct (CF !! n) as [p|] eqn:E; [|done].
    destruct (core_cf _ _ _ _ _ _ Hc _ _ E) as (_ & _ & gc & gp & Hg & _).
    congruence.
  - destruct (G !! n) as [gn|] eqn:E; [|done].
    destruct (core_g _ _ _ _ _ _ Hc _ _ E) as [_ [?|[p Hp]]]; congruence.
Qed.

Lemma core_push H CF G current gcur n :
  core_inv H CF G →
  G !! current = Some gcur →
  adjacent current n → open_cell grid n →
  (G !! n = None ∨ ∃ gn, G !! n = Some gn ∧ gcur + 1 < gn) →
  n ≠ start ∧
  core_inv ((gcur + 1 + heuristic n goal, n) :: H)
    (<[n := current]> CF) (<[n := gcur + 1]> G).
Proof.
  intros Hc Hcur Hadj Hopen Hnew.
  pose proof (adjacent_ne _ _ Hadj) as Hne.
  destruct (core_g _ _ _ _ _ _ Hc _ _ Hcur) as [[Hg0 Hgsz] _].
  assert (n ≠ start) as Hns.
  { intros ->. rewrite (core_start_g _ _ _ _ _ _ Hc) in Hnew.
    destruct Hnew as [?|(gn & [= <-] & ?)]; [done|lia]. }
  assert (Z.of_nat (size CF) ≤ Z.of_nat (size (<[n := current]> CF))) as Hsz.
  { destruct (CF !! n) eqn:E.
    - rewrite map_size_insert_Some; [lia|done].
    - rewrite map_size_insert_None; [lia|done]. }
  split; [done|]. constructor.
  - rewrite lookup_insert_ne by done. apply Hc.
  - rewrite lookup_insert_ne by done. apply Hc.
  - intros c p. destruct (decide (c = n)) as [->|Hcn].
    + rewrite lookup_insert_eq. intros [= <-].
      split; [done|]. split; [done|].
      exists (gcur + 1), gcur. rewrite lookup_insert_eq.
      rewrite lookup_insert_ne by done. split; [done|]. split; [done|lia].
    + rewrite lookup_insert_ne by done. intros Hcf.
      destruct (core_cf _ _ _ _ _ _ Hc _ _ Hcf) as (Ho & Ha & gc & gp & Hgc & Hgp & Hle).
      split; [done|]. split; [done|].
      rewrite lookup_insert_ne by done.
      destruct (decide (p = n)) as [->|Hpn].
      * exists gc, (gcur + 1). rewrite lookup_insert_eq.
        split; [done|]. split; [done|].
        destruct Hnew as [?|(gn & ? & ?)]; [congruence|].
        assert (gn = gp) by congruence. lia.
      * exists gc, gp. by rewrite lookup_insert_ne.
  - intros c gc. destruct (decide (c = n)) as [->|Hcn].
    + rewrite !lookup_insert_eq. intros [= <-]. split; [|eauto].
      split; [lia|].
      destruct Hnew as [Hnone|(gn & Hgn & Hlt)].
      * apply (core_dom_cf _ _ _ _ Hc Hns) in Hnone.
        rewrite map_size_insert_None by done. lia.
      * destruct (core_g _ _ _ _ _ _ Hc _ _ Hgn) as [[_ ?] _]. lia.
    + rewrite !lookup_insert_ne by done. intros Hgc.
      destruct (core_g _ _ _ _ _ _ Hc _ _ Hgc) as [[? ?] ?].
      split; [lia|done].
  - intros fc c [[= -> ->]|Hin]%elem_of_cons.
    + right. exists (gcur + 1). rewrite lookup_insert_eq. split; [done|lia].
    + destruct (core_heap _ _ _ _ _ _ Hc _ _ Hin) as [[-> ->]|(gc & Hgc & Hle)].
      * by left.
      * right. destruct (decide (c = n)) as [->|Hcn].
        -- exists (gcur + 1). rewrite lookup_insert_eq. split; [done|].
           destruct Hnew as [?|(gn & ? & ?)]; [congruence|].
           assert (gn = gc) by congruence. lia.
        -- exists gc. by rewrite lookup_insert_ne.
Qed.

Lemma front_push X P H G current gcur n :
  G !! current = Some gcur → n ≠ current →
  (G !! n = None ∨ ∃ gn, G !! n = Some gn ∧ gcur + 1 < gn) →
  front_inv X P H G →
  front_inv X P ((gcur + 1 + heuristic n goal, n) :: H) (<[n := gcur + 1]> G).
Proof.
  intros Hcur Hne Hnew Hf. constructor.
  - intros c gc. destruct (decide (c = n)) as [->|Hcn].
    + rewrite lookup_insert_eq. intros [= <-]. do 2 right. left. by left.
    + rewrite lookup_insert_ne by done. intros Hgc.
      destruct (front_closed _ _ _ _ _ _ _ Hf _ _ Hgc) as [?|[[? ?]|[?|Hcl]]].
      * by left.
      * right. left. split; [done|]. by right.
      * do 2 right. left. by right.
      * do 3 right. intros m Ham Hom.
        destruct (Hcl m Ham Hom) as (gm & Hgm & Hle).
        destruct (decide (m = n)) as [->|Hmn].
        -- exists (gcur + 1). rewrite lookup_insert_eq. split; [done|].
           destruct Hnew as [?|(gn & ? & ?)]; [congruence|].
           assert (gn = gm) by congruence. lia.
        -- exists gm. by rewrite lookup_insert_ne.
  - intros c gc. destruct (decide (c = n)) as [->|Hcn].
    + rewrite lookup_insert_eq. intros [= <-]. right. left. by left.
    + rewrite lookup_insert_ne by done. intros Hgc.
      destruct (front_live _ _ _ _ _ _ _ Hf _ _ Hgc) as [?|[?|?]]; auto.
      right. left. by right.
  - destruct (front_seed _ _ _ _ _ _ _ Hf); [left; by right | by right].
  - apply Hf.
Qed.

Lemma details_ok_snoc l n tg hv :
  details_ok l → details_ok (l ++ [(n, tg, hv, tg + hv)]).
Proof.
  intros Hl n' tg' hv' fv' [Hin|Hin]%elem_of_app; [eauto|].
  apply list_elem_of_singleton in Hin. by injection Hin as -> -> -> ->.
Qed.

Lemma relax_inv current gcur P es n es' :
  adjacent current n →
  expand_inv current gcur P es →
  relax grid (nrows grid) (ncols grid) goal current es n = Return es' →
  expand_inv current gcur P es' ∧
  (∀ c gc, e_g es !! c = Some gc → ∃ gc', e_g es' !! c = Some gc' ∧ gc' ≤ gc) ∧
  (open_cell grid n → ∃ gn, e_g es' !! n = Some gn ∧ gn ≤ gcur + 1).
Proof.
  intros Hadj (Hc & Hf & Hcur & Hd). unfold relax.
  assert (∀ es0 : expand_state, es0 = es →
    ¬ open_cell grid n →
    expand_inv current gcur P es0 ∧
    (∀ c gc, e_g es !! c = Some gc → ∃ gc', e_g es0 !! c = Some gc' ∧ gc' ≤ gc) ∧
    (open_cell grid n → ∃ gn, e_g es0 !! n = Some gn ∧ gn ≤ gcur + 1)) as Hsame.
  { intros es0 -> Hno. split; [done|]. split; [|done].
    intros c gc ?. exists gc. split; [done|lia]. }
  destruct ((0 <=? n.1) && (n.1 <? nrows grid) && (0 <=? n.2) && (n.2 <? ncols grid)) eqn:Hb.
  2:{ intros [= <-]. apply Hsame; [done|]. intros [[? ?] _].
      apply not_true_iff_false in Hb. apply Hb.
      rewrite !andb_true_iff, !Z.leb_le, !Z.ltb_lt. lia. }
  rewrite !andb_true_iff, !Z.leb_le, !Z.ltb_lt in Hb.
  destruct (getitem2 grid n.1 n.2) as [v| |] eqn:Hget; simpl; [|done..].
  destruct (Z.eqb_spec v 0) as [->|Hv].
  2:{ intros [= <-]. apply Hsame; [done|]. intros [_ Ho].
      rewrite Ho in Hget. congruence. }
  assert (open_cell grid n) as Hopen.
  { split; [unfold in_bounds; lia|done]. }
  unfold dict_get. rewrite Hcur. simpl.
  pose proof (adjacent_ne _ _ Hadj) as Hne.
  destruct (e_g es !! n) as [gn|] eqn:Hgn.
  - destruct (Z.ltb_spec (gcur + 1) gn) as [Hlt|Hge]; intros [= <-]; simpl.
    + destruct (core_push _ _ _ _ _ _ Hc Hcur Hadj Hopen) as [Hns Hc'];
        [right; eauto|].
      split; [|split].
      * split; [done|]. split; [eapply front_push; eauto|]. simpl.
        rewrite lookup_insert_ne by done. split; [done|].
        by apply details_ok_snoc.
      * intros c gc Hgc. destruct (decide (c = n)) as [->|Hcn].
        -- exists (gcur + 1). rewrite lookup_insert_eq. split; [done|].
           assert (gn = gc) by congruence. lia.
        -- exists gc. rewrite lookup_insert_ne by done. split; [done|lia].
      * intros _. exists (gcur + 1). rewrite lookup_insert_eq. split; [done|lia].
    + split; [|split].
      * split; [done|]. split; [done|]. split; [done|]. by apply details_ok_snoc.
      * intros c gc ?. exists gc. split; [done|lia].
      * intros _. exists gn. split; [done|lia].
  - intros [= <-]; simpl.
    destruct (core_push _ _ _ _ _ _ Hc Hcur Hadj Hopen) as [Hns Hc'];
      [by left|].
    split; [|split].
    + split; [done|]. split; [eapply front_push; eauto|]. simpl.
      rewrite lookup_insert_ne by done. split; [done|].
      by apply details_ok_snoc.
    + intros c gc Hgc. destruct (decide (c = n)) as [->|Hcn]; [congruence|].
      exists gc. rewrite lookup_insert_ne by done. split; [done|lia].
    + intros _. exists (gcur + 1). rewrite lookup_insert_eq. split; [done|lia].
Qed.

Lemma foldM_relax_inv current gcur P l es es' :
  (∀ n, n ∈ l → adjacent current n) →
  expand_inv current gcur P es →
  foldM (relax grid (nrows grid) (ncols grid) goal current) es l = Return es' →
  expand_inv current gcur P es' ∧
  (∀ c gc, e_g es !! c = Some gc → ∃ gc', e_g es' !! c = Some gc' ∧ gc' ≤ gc) ∧
  (∀ n, n ∈ l → open_cell grid n → ∃ gn, e_g es' !! n = Some gn ∧ gn ≤ gcur + 1).
Proof.
  revert es. induction l as [|n l IH]; intros es Hadj Hinv; simpl.
  - intros [= <-]. split; [done|]. split.
    + intros c gc ?. exists gc. split; [done|lia].
    + intros n Hn. by apply elem_of_nil in Hn.
  - destruct (relax _ _ _ _ _ es n) as [es1| |] eqn:Hr; simpl; [|done..].
    intros Hfold.
    destruct (relax_inv _ _ _ _ _ _ (Hadj n (list_elem_of_here _ _)) Hinv Hr)
      as (Hinv1 & Hmono1 & Hn1).
    destruct (IH es1) as (Hinv' & Hmono' & Hl'); [|done|done|].
    { intros m Hm. apply Hadj. by right. }
    split; [done|]. split.
    + intros c gc Hgc. destruct (Hmono1 _ _ Hgc) as (g1 & Hg1 & ?).
      destruct (Hmono' _ _ Hg1) as (g2 & Hg2 & ?). exists g2. split; [done|lia].
    + intros m [->|Hm]%elem_of_cons Ho; [|eauto].
      destruct (Hn1 Ho) as (g1 & Hg1 & ?).
      destruct (Hmono' _ _ Hg1) as (g2 & Hg2 & ?). exists g2. split; [done|lia].
Qed.
End Relax.

(** ** Chains *)

Lemma chain_cons {A} (R : A → A → Prop) a l :
  chain R (a :: l) ↔ match head l with Some b => R a b | None => True end ∧ chain R l.
Proof. destruct l; simpl; tauto. Qed.

Lemma chain_snoc {A} (R : A → A → Prop) l x :
  chain R (l ++ [x]) ↔
  chain R l ∧ match last l with Some y => R y x | None => True end.
Proof.
  induction l as [|a l IH]; [simpl; tauto|].
  rewrite <-app_comm_cons, !chain_cons, IH.
  destruct l as [|b l]; [simpl; tauto|].
  rewrite last_cons_cons. simpl. tauto.
Qed.

Lemma chain_impl {A} (R R' : A → A → Prop) l :
  (∀ a b, R a b → R' a b) → chain R l → chain R' l.
Proof.
  intros HR. induction l as [|a l IH]; [done|].
  rewrite !chain_cons. intros [H1 H2]. split; [|auto].
  destruct (head l); auto.
Qed.

Lemma chain_reverse {A} (R : A → A → Prop) l :
  chain R l → chain (flip R) (reverse l).
Proof.
  induction l as [|a l IH]; [done|].
  rewrite chain_cons, reverse_cons, chain_snoc, last_reverse. tauto.
Qed.

Lemma chain_Forall_tail {A} (R : A → A → Prop) (Q : A → Prop) a l :
  (∀ x y, R x y → Q y) → chain R (a :: l) → Forall Q l.
Proof.
  intros HR. revert a. induction l as [|b l IH]; intros a; [constructor|].
  intros [Hab Hc]. constructor; eauto.
Qed.

(** ** The cells of a grid *)

Lemma elem_of_grid_cells rows cols (c : cell) :
  c ∈ grid_cells rows cols ↔ 0 ≤ c.1 < rows ∧ 0 ≤ c.2 < cols.
Proof.
  unfold grid_cells. rewrite list_elem_of_bind. split.
  - intros (r & Hc & Hr). apply list_elem_of_fmap in Hc as (y & -> & Hy).
    apply elem_of_seqZ in Hr, Hy. simpl. lia.
  - intros [? ?]. exists c.1. split.
    + apply list_elem_of_fmap. exists c.2. split; [by destruct c|].
      apply elem_of_seqZ. lia.
    + apply elem_of_seqZ. lia.
Qed.

Lemma length_grid_cells rows cols :
  length (grid_cells rows cols) = (Z.to_nat rows * Z.to_nat cols)%nat.
Proof.
  unfold grid_cells.
  assert (∀ (l k : list Z),
    length (l ≫= λ r, (λ c, (r, c)) <$> k) = (length l * length k)%nat) as Hlen.
  { intros l k. induction l as [|r l IH]; [done|].
    change (length (((λ c, (r, c)) <$> k) ++ (l ≫= λ r, (λ c, (r, c)) <$> k)) =
            (length (r :: l) * length k)%nat).
    rewrite length_app, length_fmap, IH. simpl. lia. }
  by rewrite Hlen, !length_seqZ.
Qed.

Lemma elem_of_all_cells grid c : c ∈ all_cells grid ↔ in_bounds grid c.
Proof. apply elem_of_grid_cells. Qed.

Lemma length_all_cells grid :
  length (all_cells grid) = (length grid * length (default [] (grid !! 0%nat)))%nat.
Proof.
  unfold all_cells. rewrite length_grid_cells. unfold nrows, ncols. lia.
Qed.

Lemma size_le_cells (grid : list (list Z)) {V} (m : gmap cell V) :
  (∀ c, is_Some (m !! c) → in_bounds grid c) →
  (size m ≤ length (all_cells grid))%nat.
Proof.
  intros Hdom. rewrite <-(length_map_to_list m).
  rewrite <-(length_fmap fst). apply submseteq_length, NoDup_submseteq.
  - apply NoDup_fst_map_to_list.
  - intros c [[c' v] [-> Hin]]%list_elem_of_fmap. simpl.
    apply elem_of_map_to_list in Hin. apply elem_of_all_cells, Hdom. eauto.
Qed.

(** ** Walking back along [came_from] *)

Section Iter.
Variable grid : list (list Z).
Variables start goal : cell.

Local Abbreviation core_inv := (core_inv grid start goal).
Local Abbreviation front_inv := (front_inv grid start goal).
Local Abbreviation expand_inv := (expand_inv grid start goal).
Local Abbreviation astar_inv := (astar_inv grid start goal).

Lemma core_size_cf H CF G :
  core_inv H CF G → (size CF ≤ length (all_cells grid))%nat.
Proof.
  intros Hc. apply size_le_cells. intros c [p Hp].
  by destruct (core_cf _ _ _ _ _ _ Hc _ _ Hp) as [[? _] _].
Qed.

Lemma walk_back_spec H CF G fuel c gc path :
  core_inv H CF G →
  G !! c = Some gc → gc < Z.of_nat fuel →
  ∃ l, walk_back fuel CF c path = Return (path ++ l, start) ∧
       head (l ++ [start]) = Some c ∧
       chain (λ a b, CF !! a = Some b) (l ++ [start]) ∧
       Z.of_nat (length l) ≤ gc.
Proof.
  intros Hc. revert c gc path. induction fuel as [|fuel IH]; intros c gc path Hgc Hlt.
  { destruct (core_g _ _ _ _ _ _ Hc _ _ Hgc) as [[? ?] _]. lia. }
  simpl. destruct (CF !! c) as [p|] eqn:Hcf.
  - destruct (core_cf _ _ _ _ _ _ Hc _ _ Hcf) as (_ & _ & gc' & gp & Hgc' & Hgp & Hle).
    assert (gc' = gc) as -> by congruence.
    destruct (IH p gp (path ++ [c]) Hgp) as (l & Hw & Hh & Hch & Hlen); [lia|].
    exists (c :: l). rewrite Hw, <-app_assoc. split; [done|]. split; [done|].
    split.
    + rewrite <-app_comm_cons, chain_cons, Hh. done.
    + simpl length. lia.
  - exists []. rewrite app_nil_r.
    destruct (core_g _ _ _ _ _ _ Hc _ _ Hgc) as [[? ?] [->|[? ?]]]; [|congruence].
    repeat split; simpl; done || lia.
Qed.

(** ** The cost of the goal when it is popped *)

Lemma goal_cost_optimal H CF G fgoal ggoal rest P :
  core_inv H CF G → front_inv [] P H G →
  heappop H = Some ((fgoal, goal), rest) →
  G !! goal = Some ggoal →
  ∀ q v gv, head q = Some v → last q = Some goal →
    Forall (open_cell grid) q → chain adjacent q →
    G !! v = Some gv → ggoal ≤ gv + Z.of_nat (length q) - 1.
Proof.
  intros Hc Hf Hpop Hgoal.
  destruct (heappop_Some _ _ _ Hpop) as [Hperm Hmin].
  assert ((fgoal, goal) ∈ H) as Hin by (rewrite Hperm; left).
  assert (ggoal ≤ fgoal) as Hgf.
  { destruct (core_heap _ _ _ _ _ _ Hc _ _ Hin) as [[Hs ->]|(g' & Hg' & Hle)].
    - rewrite Hs, (core_start_g _ _ _ _ _ _ Hc) in Hgoal. by injection Hgoal as <-.
    - rewrite heuristic_refl in Hle. assert (g' = ggoal) by congruence. lia. }
  induction q as [|a q IH]; intros v gv; [done|].
  intros [= ->] Hlast Hopen Hchain Hgv.
  destruct (core_g _ _ _ _ _ _ Hc _ _ Hgv) as [[Hgv0 _] _].
  destruct q as [|b q'].
  { injection Hlast as ->. assert (gv = ggoal) by congruence. simpl. lia. }
  rewrite last_cons_cons in Hlast. destruct Hchain as [Hab Hchain].
  apply Forall_cons in Hopen as [_ Hopen].
  pose proof (heuristic_admissible (v :: b :: q') v goal eq_refl) as Hadm.
  rewrite last_cons_cons in Hadm. specialize (Hadm Hlast (conj Hab Hchain)).
  destruct (front_closed _ _ _ _ _ _ _ Hf _ _ Hgv) as [Hx|[[-> Hseed]|[Hlive|Hcl]]].
  - by apply elem_of_nil in Hx.
  - apply Hmin, entry_leb_fst in Hseed. simpl in Hseed. simpl length. lia.
  - apply Hmin, entry_leb_fst in Hlive. simpl in Hlive. lia.
  - destruct (Hcl b Hab) as (gb & Hgb & Hle).
    { by apply Forall_cons in Hopen as [? _]. }
    specialize (IH b gb eq_refl Hlast Hopen Hchain Hgb).
    simpl length in *. lia.
Qed.

Lemma empty_frontier_no_path CF G P q :
  core_inv [] CF G → front_inv [] P [] G → ¬ joins grid q start goal.
Proof.
  intros Hc Hf (Hhead & Hlast & Hopen & Hchain).
  assert (is_Some (G !! goal)) as [gg Hgg].
  { assert (is_Some (G !! start)) as Hs
      by (rewrite (core_start_g _ _ _ _ _ _ Hc); eauto).
    revert Hhead Hs. generalize start as v.
    induction q as [|a q IH]; intros v; [done|].
    intros [= ->] [gv Hgv].
    destruct q as [|b q'].
    { injection Hlast as ->. eauto. }
    rewrite last_cons_cons in Hlast. destruct Hchain as [Hab Hchain].
    apply Forall_cons in Hopen as [_ Hopen].
    destruct (front_closed _ _ _ _ _ _ _ Hf _ _ Hgv) as [Hx|[[_ Hx]|[Hx|Hcl]]];
      try by apply elem_of_nil in Hx.
    destruct (Hcl b Hab) as (gb & Hgb & _).
    { by apply Forall_cons in Hopen as [? _]. }
    apply (IH Hlast Hopen Hchain b eq_refl). eauto. }
  pose proof (front_goal _ _ _ _ _ _ _ Hf) as Hng.
  destruct (front_live _ _ _ _ _ _ _ Hf _ _ Hgg) as [Hs|[Hx|Hx]];
    [|by apply elem_of_nil in Hx|done].
  destruct (front_seed _ _ _ _ _ _ _ Hf) as [Hx|Hx];
    [by apply elem_of_nil in Hx|congruence].
Qed.
End Iter.

(** ** One turn of the search loop *)

Section Loop.
Variable grid : list (list Z).
Variables start goal : cell.

Local Abbreviation core_inv := (core_inv grid start goal).
Local Abbreviation front_inv := (front_inv grid start goal).
Local Abbreviation expand_inv := (expand_inv grid start goal).
Local Abbreviation astar_inv := (astar_inv grid start goal).
Local Abbreviation iter := (astar_iter grid (nrows grid) (ncols grid) start goal).

Lemma core_inv_pop H CF G m rest :
  core_inv H CF G → heappop H = Some (m, rest) → core_inv rest CF G.
Proof.
  intros Hc Hpop. constructor; try apply Hc.
  intros fc c Hin. apply (core_heap _ _ _ _ _ _ Hc).
  apply (heappop_elem _ _ _ _ Hpop). by right.
Qed.

Lemma popped_in_dom H CF G fc c rest :
  core_inv H CF G → heappop H = Some ((fc, c), rest) → is_Some (G !! c).
Proof.
  intros Hc Hpop.
  assert ((fc, c) ∈ H) as Hin by (apply (heappop_elem _ _ _ _ Hpop); by left).
  destruct (core_heap _ _ _ _ _ _ Hc _ _ Hin) as [[-> _]|(gc & Hgc & _)]; [|eauto].
  rewrite (core_start_g _ _ _ _ _ _ Hc). eauto.
Qed.

Lemma front_inv_pop P H G fc current rest :
  front_inv [] P H G → heappop H = Some ((fc, current), rest) →
  current ≠ goal →
  front_inv [current] (current :: P) rest G.
Proof.
  intros Hf Hpop Hng.
  assert (∀ e, e ∈ H → e.2 ≠ current → e ∈ rest) as Hrest.
  { intros e He Hne. apply (heappop_elem _ _ _ _ Hpop) in He as [->|?]; done. }
  constructor.
  - intros c gc Hgc. destruct (decide (c = current)) as [->|Hne].
    { left. by left. }
    right. destruct (front_closed _ _ _ _ _ _ _ Hf _ _ Hgc) as [Hx|[[-> Hs]|[Hl|Hcl]]].
    + by apply elem_of_nil in Hx.
    + left. split; [done|]. by apply Hrest.
    + right. left. by apply Hrest.
    + by do 2 right.
  - intros c gc Hgc. destruct (decide (c = current)) as [->|Hne].
    { do 2 right. by left. }
    destruct (front_live _ _ _ _ _ _ _ Hf _ _ Hgc) as [?|[Hl|?]].
    + by left.
    + right. left. by apply Hrest.
    + do 2 right. by right.
  - destruct (decide (start = current)) as [->|Hne].
    { right. by left. }
    destruct (front_seed _ _ _ _ _ _ _ Hf) as [Hs|?].
    + left. by apply Hrest.
    + right. by right.
  - intros [->|?]%elem_of_cons; [done|]. by apply (front_goal _ _ _ _ _ _ _ Hf).
Qed.

Lemma front_inv_close P H G current gcur :
  front_inv [current] (current :: P) H G →
  G !! current = Some gcur → closed grid G current gcur →
  front_inv [] (P ++ [current]) H G.
Proof.
  intros Hf Hcur Hcl. constructor.
  - intros c gc Hgc.
    destruct (front_closed _ _ _ _ _ _ _ Hf _ _ Hgc) as [Hx|Hx]; [|by right].
    apply list_elem_of_singleton in Hx as ->. do 3 right.
    by assert (gc = gcur) as -> by congruence.
  - intros c gc Hgc.
    destruct (front_live _ _ _ _ _ _ _ Hf _ _ Hgc) as [?|[?|Hp]]; auto.
    do 2 right. rewrite elem_of_app, list_elem_of_singleton.
    apply elem_of_cons in Hp. tauto.
  - destruct (front_seed _ _ _ _ _ _ _ Hf) as [?|Hp]; [by left|].
    right. rewrite elem_of_app, list_elem_of_singleton.
    apply elem_of_cons in Hp. tauto.
  - pose proof (front_goal _ _ _ _ _ _ _ Hf) as Hg.
    rewrite elem_of_app, list_elem_of_singleton.
    rewrite elem_of_cons in Hg. intros [?|?]; apply Hg; auto.
Qed.

Lemma first_pop_exact P H CF G fc c gc rest :
  core_inv H CF G → front_inv [] P H G →
  heappop H = Some ((fc, c), rest) → G !! c = Some gc →
  c ∉ P → c ≠ start ∨ c = goal →
  fc = gc + heuristic c goal.
Proof.
  intros Hc Hf Hpop Hgc HP Hcase.
  destruct (heappop_Some _ _ _ Hpop) as [Hperm Hmin].
  assert ((fc, c) ∈ H) as Hin by (rewrite Hperm; left).
  assert (∀ fc', (fc', c) ∈ H → fc ≤ fc') as Hle.
  { intros fc' Hin'. by apply Hmin, entry_leb_fst in Hin'. }
  destruct (decide (c = start)) as [->|Hne].
  - destruct Hcase as [?|Hg]; [done|]. rewrite Hg, heuristic_refl.
    rewrite (core_start_g _ _ _ _ _ _ Hc) in Hgc. injection Hgc as <-.
    destruct (front_seed _ _ _ _ _ _ _ Hf) as [Hs|?]; [|done].
    apply Hle in Hs.
    destruct (core_heap _ _ _ _ _ _ Hc _ _ Hin) as [[_ ->]|(g' & Hg' & Hle')]; [done|].
    rewrite (core_start_g _ _ _ _ _ _ Hc) in Hg'. injection Hg' as <-.
    pose proof (heuristic_nonneg start goal). lia.
  - destruct (core_heap _ _ _ _ _ _ Hc _ _ Hin) as [[? _]|(g' & Hg' & Hle')]; [done|].
    assert (g' = gc) as -> by congruence.
    destruct (front_live _ _ _ _ _ _ _ Hf _ _ Hgc) as [?|[Hl|?]]; [done| |done].
    apply Hle in Hl. lia.
Qed.

Lemma first_pop_snoc tr r :
  first_pop (tr ++ [r]) (length tr) r ↔ node r ∉ node <$> tr.
Proof.
  unfold first_pop. split.
  - intros Hfp [r' [Heq Hin]]%list_elem_of_fmap.
    apply list_elem_of_lookup in Hin as [j Hj].
    apply (Hfp j r'); [by eapply lookup_lt_Some| |done].
    by apply lookup_app_l_Some.
  - intros Hnin j r' Hlt Hj Heq. apply Hnin.
    rewrite lookup_app_l in Hj by done.
    apply list_elem_of_fmap. exists r'. split; [done|].
    by eapply list_elem_of_lookup_2.
Qed.

Lemma first_pop_prefix tr tr' i r :
  (i < length tr)%nat → first_pop (tr ++ tr') i r ↔ first_pop tr i r.
Proof.
  intros Hi. unfold first_pop. split; intros Hfp j r' Hlt Hj.
  - apply (Hfp j r' Hlt). by apply lookup_app_l_Some.
  - apply (Hfp j r' Hlt). rewrite lookup_app_l in Hj by lia. done.
Qed.

Lemma trace_inv_snoc tr r :
  trace_inv start goal tr →
  status r = Searching → node r ≠ goal → details_ok (neighbors r) →
  (node r ≠ start → node r ∉ node <$> tr → f r = g r + h r) →
  trace_inv start goal (tr ++ [r]).
Proof.
  intros Htr Hs Hg Hd Hf i r' Hi.
  apply lookup_app_Some in Hi as [Hi|[Hge Hi]].
  - destruct (Htr i r' Hi) as (? & ? & ? & Hfp). repeat split; try done.
    intros Hns Hfirst. apply Hfp; [done|].
    eapply first_pop_prefix; [|done]. by eapply lookup_lt_Some.
  - apply list_lookup_singleton_Some in Hi as [Hi ->].
    assert (i = length tr) as -> by lia.
    repeat split; try done. intros Hns Hfirst. apply Hf; [done|].
    by apply first_pop_snoc.
Qed.

Lemma trace_inv_searching tr :
  trace_inv start goal tr → Forall (λ r, status r = Searching) tr.
Proof.
  intros Htr. apply Forall_lookup. intros i r Hi. by destruct (Htr i r Hi).
Qed.

Lemma trace_inv_ok tr : trace_inv start goal tr → trace_ok start tr.
Proof.
  intros Htr i r Hi. destruct (Htr i r Hi) as (Hs & _ & Hd & Hf).
  split; [done|]. intros [?|[? ?]]; [congruence|auto].
Qed.

Lemma trace_ok_goal tr r :
  trace_inv start goal tr → status r = GoalReached → neighbors r = [] →
  f r = g r + h r → trace_ok start (tr ++ [r]).
Proof.
  intros Htr Hs Hn Hf i r' Hi.
  apply lookup_app_Some in Hi as [Hi|[Hge Hi]].
  - destruct (Htr i r' Hi) as (Hs' & _ & Hd & Hfp). split; [done|].
    intros [?|[? Hfirst]]; [congruence|]. apply Hfp; [done|].
    eapply first_pop_prefix; [|done]. by eapply lookup_lt_Some.
  - apply list_lookup_singleton_Some in Hi as [_ ->]. split; [|done].
    rewrite Hn. intros ? ? ? ? Hx. by apply elem_of_nil in Hx.
Qed.
End Loop.

Section Loop2.
Variable grid : list (list Z).
Variables start goal : cell.

Local Abbreviation core_inv := (core_inv grid start goal).
Local Abbreviation front_inv := (front_inv grid start goal).
Local Abbreviation expand_inv := (expand_inv grid start goal).
Local Abbreviation astar_inv := (astar_inv grid start goal).
Local Abbreviation iter := (astar_iter grid (nrows grid) (ncols grid) start goal).

Lemma astar_init_inv : astar_inv (astar_init start).
Proof.
  split; [|split].
  - constructor; simpl.
    + apply lookup_singleton_eq.
    + apply lookup_empty.
    + intros c p Hx. by rewrite lookup_empty in Hx.
    + intros c gc [<- <-]%lookup_singleton_Some. split; [|by left].
      rewrite map_size_empty. lia.
    + intros fc c [= -> ->]%list_elem_of_singleton. by left.
  - constructor; simpl.
    + intros c gc [<- <-]%lookup_singleton_Some. right. left.
      split; [done|]. by left.
    + intros c gc [<- <-]%lookup_singleton_Some. by left.
    + left. by left.
    + apply not_elem_of_nil.
  - intros i r Hx. done.
Qed.

Lemma iter_done_goal st fc rest gcur :
  astar_inv st →
  heappop (open_set st) = Some ((fc, goal), rest) →
  g_score st !! goal = Some gcur →
  ∃ l, walk_back (S (size (came_from st))) (came_from st) goal [] = Return (l, start) ∧
    result_ok grid start goal
      (Some (reverse (l ++ [start])),
       steps st ++ [ {| node := start; g := gcur; h := heuristic goal goal;
                        f := fc; neighbors := []; status := GoalReached |} ]).
Proof.
  intros (Hc & Hf & Htr) Hpop Hg.
  destruct (core_g _ _ _ _ _ _ Hc _ _ Hg) as [[Hg0 Hgsz] _].
  destruct (walk_back_spec grid start goal _ _ _ (S (size (came_from st)))
              goal gcur [] Hc Hg) as (l & Hw & Hh & Hch & Hlen); [lia|].
  exists l. split; [done|]. split; simpl.
  - apply (trace_ok_goal start goal); try done. simpl.
    eapply first_pop_exact; eauto.
    apply (front_goal _ _ _ _ _ _ _ Hf).
  - rewrite head_reverse, last_snoc, last_reverse, Hh.
    split; [done|]. split; [done|]. split; [|split; [|split]].
    + apply chain_reverse in Hch. revert Hch. apply chain_impl.
      intros a b Hba. unfold flip in Hba.
      destruct (core_cf _ _ _ _ _ _ Hc _ _ Hba) as (? & ? & _). done.
    + intros q (Hqh & Hql & Hqo & Hqc).
      pose proof (goal_cost_optimal grid start goal _ _ _ _ _ _ _ Hc Hf Hpop Hg
                    q start 0 Hqh Hql Hqo Hqc (core_start_g _ _ _ _ _ _ Hc)).
      rewrite length_reverse, length_app. simpl. lia.
    + rewrite length_reverse, length_app. simpl.
      pose proof (core_size_cf grid start goal _ _ _ Hc). lia.
    + eexists _, _. split; [done|]. split; [by apply (trace_inv_searching start goal)|done].
Qed.

Lemma iter_continue st fc current rest gcur es :
  astar_inv st →
  heappop (open_set st) = Some ((fc, current), rest) →
  g_score st !! current = Some gcur →
  current ≠ goal →
  foldM (relax grid (nrows grid) (ncols grid) goal current)
    {| e_open := rest; e_came := came_from st; e_g := g_score st; e_details := [] |}
    (neighbors4 current) = Return es →
  astar_inv
    {| open_set := e_open es; came_from := e_came es; g_score := e_g es;
       steps := steps st ++ [ {| node := current; g := gcur;
                                 h := heuristic current goal; f := fc;
                                 neighbors := e_details es;
                                 status := Searching |} ] |}.
Proof.
  intros (Hc & Hf & Htr) Hpop Hg Hng Hfold.
  assert (expand_inv current gcur (node <$> steps st)
            {| e_open := rest; e_came := came_from st;
               e_g := g_score st; e_details := [] |}) as Hes.
  { split; [by eapply core_inv_pop|]. split; [by eapply front_inv_pop|].
    split; [done|]. intros n tg hv fv Hx. by apply elem_of_nil in Hx. }
  destruct (foldM_relax_inv grid start goal current gcur (node <$> steps st)
              _ _ _ (λ n, proj2 (adjacent_neighbors4 current n)) Hes Hfold)
    as ((Hc' & Hf' & Hcur' & Hd') & _ & Hnb).
  split; [done|]. split; simpl.
  - rewrite fmap_app. simpl. eapply front_inv_close; [done..|].
    intros n Hadj Ho. apply Hnb; [|done]. by apply adjacent_neighbors4.
  - apply (trace_inv_snoc start goal); try done. simpl. intros Hns Hfirst.
    apply (first_pop_exact grid start goal (node <$> steps st) (open_set st)
             (came_from st) (g_score st) fc current gcur rest); auto.
Qed.

Lemma iter_inv st r :
  astar_inv st → iter st = Return r →
  match r with
  | Continue st' => astar_inv st'
  | Done res => result_ok grid start goal res
  end.
Proof.
  intros Hinv. pose proof Hinv as (Hc & Hf & Htr). unfold astar_iter.
  destruct (heappop (open_set st)) as [[[fc current] rest]|] eqn:Hpop.
  - destruct (popped_in_dom _ _ _ _ _ _ _ _ _ Hc Hpop) as [gcur Hg].
    unfold dict_get. rewrite Hg. cbn [mbind outcome_bind].
    destruct (decide (current = goal)) as [->|Hng].
    + destruct (iter_done_goal _ _ _ _ Hinv Hpop Hg) as (l & -> & Hok).
      cbn [mbind outcome_bind app]. by intros [= <-].
    + destruct current as [x y].
      change [(x + 1, y); (x - 1, y); (x, y + 1); (x, y - 1)]
        with (neighbors4 (x, y)).
      destruct (foldM _ _ _) as [es| |] eqn:Hfold; simpl; [|done..].
      intros [= <-]. by eapply iter_continue.
  - intros [= <-]. apply heappop_None in Hpop. rewrite Hpop in Hc, Hf.
    split; simpl.
    + by apply (trace_inv_ok start goal).
    + split; [|by apply (trace_inv_searching start goal)].
      intros q. by eapply empty_frontier_no_path.
Qed.

(** The result of the loop, whenever it returns one. *)
Lemma astar_loop_ok fuel st res :
  astar_inv st →
  astar_loop grid (nrows grid) (ncols grid) start goal fuel st = Return res →
  result_ok grid start goal res.
Proof.
  revert st. induction fuel as [|fuel IH]; intros st Hinv; [done|]. simpl.
  destruct (iter st) as [r| |] eqn:Hit; simpl; [|done..].
  pose proof (iter_inv _ _ Hinv Hit) as Hr. destruct r as [st'|res'].
  - by apply IH.
  - by intros [= <-].
Qed.
End Loop2.

Lemma astar_dims grid row0 :
  getitem grid 0 = Return row0 →
  Z.of_nat (length grid) = nrows grid ∧ Z.of_nat (length row0) = ncols grid ∧
  (length grid * length row0)%nat = length (all_cells grid).
Proof.
  intros Hrow. apply getitem_Return in Hrow as [_ Hrow]; [|done].
  change (Z.to_nat 0) with 0%nat in Hrow.
  rewrite length_all_cells. unfold ncols. rewrite Hrow. done.
Qed.

Lemma astar_ok grid start goal res :
  astar grid start goal = Return res → result_ok grid start goal res.
Proof.
  unfold astar. destruct (getitem grid 0) as [row0| |] eqn:Hrow;
    cbn [mbind outcome_bind]; [|done..].
  destruct (astar_dims _ _ Hrow) as (-> & -> & _).
  apply astar_loop_ok, astar_init_inv.
Qed.

(** ** Termination of the search *)

Lemma sum_list_fmap_le {A} (r r' : A → nat) (U : list A) :
  (∀ c, c ∈ U → (r' c ≤ r c)%nat) →
  (sum_list (r' <$> U) ≤ sum_list (r <$> U))%nat.
Proof.
  induction U as [|x U IH]; intros Hle; [done|]. csimpl.
  pose proof (Hle x (list_elem_of_here _ _)) as Hx.
  assert (sum_list (r' <$> U) ≤ sum_list (r <$> U))%nat.
  { apply IH. intros c Hc. apply Hle. by right. }
  lia.
Qed.

Lemma sum_list_fmap_lt {A} (r r' : A → nat) (U : list A) n :
  n ∈ U → (r' n < r n)%nat → (∀ c, c ∈ U → (r' c ≤ r c)%nat) →
  (sum_list (r' <$> U) < sum_list (r <$> U))%nat.
Proof.
  induction U as [|x U IH]; intros Hn Hlt Hle; [by apply elem_of_nil in Hn|].
  csimpl. pose proof (Hle x (list_elem_of_here _ _)) as Hx.
  assert (∀ c, c ∈ U → (r' c ≤ r c)%nat) as Hle' by (intros c Hc; apply Hle; by right).
  apply elem_of_cons in Hn as [->|Hn].
  - pose proof (sum_list_fmap_le r r' U Hle'). lia.
  - specialize (IH Hn Hlt Hle'). lia.
Qed.

Lemma sum_list_fmap_bound {A} (r : A → nat) (U : list A) B :
  (∀ c, (r c ≤ B)%nat) → (sum_list (r <$> U) ≤ length U * B)%nat.
Proof.
  intros Hb. induction U as [|x U IH]; [done|]. csimpl.
  specialize (Hb x). lia.
Qed.

Section Termination.
Variable grid : list (list Z).
Variables start goal : cell.

Local Abbreviation core_inv := (core_inv grid start goal).
Local Abbreviation expand_inv := (expand_inv grid start goal).
Local Abbreviation astar_inv := (astar_inv grid start goal).
Local Abbreviation iter := (astar_iter grid (nrows grid) (ncols grid) start goal).
Local Abbreviation relax_g := (relax grid (nrows grid) (ncols grid) goal).

(** What [relax] does to the frontier and the costs. *)
Lemma relax_cases current gcur es n es' :
  e_g es !! current = Some gcur →
  relax_g current es n = Return es' →
  (e_open es' = e_open es ∧ e_g es' = e_g es) ∨
  (open_cell grid n ∧
   (e_g es !! n = None ∨ ∃ gn, e_g es !! n = Some gn ∧ gcur + 1 < gn) ∧
   e_open es' = (gcur + 1 + heuristic n goal, n) :: e_open es ∧
   e_g es' = <[n := gcur + 1]> (e_g es)).
Proof.
  intros Hcur. unfold relax.
  destruct ((0 <=? n.1) && (n.1 <? nrows grid) && (0 <=? n.2) && (n.2 <? ncols grid)) eqn:Hb.
  2:{ intros [= <-]. by left. }
  rewrite !andb_true_iff, !Z.leb_le, !Z.ltb_lt in Hb.
  destruct (getitem2 grid n.1 n.2) as [v| |] eqn:Hget; simpl; [|done..].
  destruct (Z.eqb_spec v 0) as [->|Hv].
  2:{ intros [= <-]. by left. }
  assert (open_cell grid n) as Hopen.
  { split; [unfold in_bounds; lia|done]. }
  unfold dict_get. rewrite Hcur. simpl.
  destruct (e_g es !! n) as [gn|] eqn:Hgn.
  - destruct (Z.ltb_spec (gcur + 1) gn) as [Hlt|Hge]; intros [= <-]; simpl.
    + right. split; [done|]. split; [right; eauto|done].
    + by left.
  - intros [= <-]; simpl. right. split; [done|]. split; [by left|done].
Qed.

Lemma relax_returns current gcur es n :
  rectangular grid → e_g es !! current = Some gcur →
  ∃ es', relax_g current es n = Return es'.
Proof.
  intros Hrect Hcur. unfold relax.
  destruct ((0 <=? n.1) && (n.1 <? nrows grid) && (0 <=? n.2) && (n.2 <? ncols grid)) eqn:Hb;
    [|eauto].
  rewrite !andb_true_iff, !Z.leb_le, !Z.ltb_lt in Hb.
  destruct (getitem2_inb grid n Hrect) as [v ->]; [unfold in_bounds; lia|]. simpl.
  destruct (v =? 0); [|eauto].
  unfold dict_get. rewrite Hcur. simpl.
  destruct (match e_g es !! n with Some gn => gcur + 1 <? gn | None => true end); eauto.
Qed.

Lemma relax_potential current gcur P es n es' :
  adjacent current n → expand_inv current gcur P es →
  relax_g current es n = Return es' →
  (potential grid (e_open es') (e_g es') ≤ potential grid (e_open es) (e_g es))%nat.
Proof.
  intros Hadj (Hc & _ & Hcur & _) Hr.
  destruct (relax_cases _ _ _ _ _ Hcur Hr) as [[-> ->]|(Hopen & Hnew & -> & ->)]; [done|].
  unfold potential. simpl length.
  set (B := S (S (length (all_cells grid)))).
  destruct (core_g _ _ _ _ _ _ Hc _ _ Hcur) as [[Hg0 Hgsz] _].
  pose proof (core_size_cf grid start goal _ _ _ Hc) as Hsz.
  enough (sum_list (rem_pushes B (<[n := (gcur + 1)%Z]> (e_g es)) <$> all_cells grid) <
          sum_list (rem_pushes B (e_g es) <$> all_cells grid))%nat by lia.
  apply (sum_list_fmap_lt _ _ _ n).
  - apply elem_of_all_cells, Hopen.
  - unfold rem_pushes. rewrite lookup_insert_eq.
    destruct Hnew as [->|(gn & -> & Hlt)]; subst B; lia.
  - intros c _. unfold rem_pushes. destruct (decide (c = n)) as [->|Hne].
    + rewrite lookup_insert_eq.
      destruct Hnew as [->|(gn & -> & Hlt)]; subst B; lia.
    + by rewrite lookup_insert_ne.
Qed.

Lemma foldM_relax_potential current gcur P l es es' :
  (∀ n, n ∈ l → adjacent current n) →
  expand_inv current gcur P es →
  foldM (relax_g current) es l = Return es' →
  (potential grid (e_open es') (e_g es') ≤ potential grid (e_open es) (e_g es))%nat.
Proof.
  revert es. induction l as [|n l IH]; intros es Hadj Hinv; simpl.
  { by intros [= <-]. }
  destruct (relax_g current es n) as [es1| |] eqn:Hr; simpl; [|done..].
  intros Hfold.
  pose proof (relax_potential _ _ _ _ _ _ (Hadj n (list_elem_of_here _ _)) Hinv Hr).
  destruct (relax_inv grid start goal _ _ _ _ _ _
              (Hadj n (list_elem_of_here _ _)) Hinv Hr) as (Hinv1 & _).
  assert (potential grid (e_open es') (e_g es') ≤
          potential grid (e_open es1) (e_g es1))%nat; [|lia].
  apply IH; [|done|done]. intros m Hm. apply Hadj. by right.
Qed.

Lemma foldM_relax_returns current gcur P l es :
  rectangular grid →
  (∀ n, n ∈ l → adjacent current n) →
  expand_inv current gcur P es →
  ∃ es', foldM (relax_g current) es l = Return es'.
Proof.
  intros Hrect. revert es. induction l as [|n l IH]; intros es Hadj Hinv; simpl.
  { eauto. }
  pose proof Hinv as (_ & _ & Hcur & _).
  destruct (relax_returns current gcur es n Hrect Hcur) as [es1 Hr].
  rewrite Hr. simpl.
  destruct (relax_inv grid start goal _ _ _ _ _ _
              (Hadj n (list_elem_of_here _ _)) Hinv Hr) as (Hinv1 & _).
  apply IH; [|done]. intros m Hm. apply Hadj. by right.
Qed.

Lemma iter_progress st :
  rectangular grid → astar_inv st →
  ∃ r, iter st = Return r ∧
    match r with
    | Continue st' =>
        (potential grid (open_set st') (g_score st') <
         potential grid (open_set st) (g_score st))%nat
    | Done _ => True
    end.
Proof.
  intros Hrect Hinv. pose proof Hinv as (Hc & Hf & Htr). unfold astar_iter.
  destruct (heappop (open_set st)) as [[[fc current] rest]|] eqn:Hpop;
    [|eexists; split; [reflexivity|done]].
  destruct (popped_in_dom _ _ _ _ _ _ _ _ _ Hc Hpop) as [gcur Hg].
  unfold dict_get. rewrite Hg. cbn [mbind outcome_bind].
  destruct (decide (current = goal)) as [->|Hng].
  - destruct (iter_done_goal _ _ _ _ _ _ _ Hinv Hpop Hg) as (l & -> & Hok).
    cbn [mbind outcome_bind app]. eexists. split; [reflexivity|done].
  - destruct current as [x y].
    change [(x + 1, y); (x - 1, y); (x, y + 1); (x, y - 1)]
      with (neighbors4 (x, y)).
    assert (expand_inv (x, y) gcur (node <$> steps st)
              {| e_open := rest; e_came := came_from st;
                 e_g := g_score st; e_details := [] |}) as Hes.
    { split; [by eapply core_inv_pop|]. split; [by eapply front_inv_pop|].
      split; [done|]. intros n tg hv fv Hx. by apply elem_of_nil in Hx. }
    destruct (foldM_relax_returns (x, y) gcur _ (neighbors4 (x, y)) _ Hrect
                (λ n, proj2 (adjacent_neighbors4 (x, y) n)) Hes) as [es Hfold].
    rewrite Hfold. cbn [mbind outcome_bind]. eexists. split; [done|]. simpl.
    pose proof (foldM_relax_potential _ _ _ _ _ _
                  (λ n, proj2 (adjacent_neighbors4 (x, y) n)) Hes Hfold) as Hpot.
    simpl in Hpot. unfold potential in *.
    rewrite (heappop_length _ _ _ Hpop). lia.
Qed.

Lemma astar_loop_returns fuel st :
  rectangular grid → astar_inv st →
  (potential grid (open_set st) (g_score st) < fuel)%nat →
  ∃ res, astar_loop grid (nrows grid) (ncols grid) start goal fuel st = Return res.
Proof.
  intros Hrect. revert st. induction fuel as [|fuel IH]; intros st Hinv Hpot; [lia|].
  simpl. destruct (iter_progress st Hrect Hinv) as (r & Hit & Hr).
  rewrite Hit. cbn [mbind outcome_bind]. destruct r as [st'|res]; [|eauto].
  apply IH; [|lia]. apply (iter_inv grid start goal _ _ Hinv Hit).
Qed.

Lemma astar_init_potential :
  (potential grid (open_set (astar_init start)) (g_score (astar_init start)) <
   astar_fuel (length (all_cells grid)))%nat.
Proof.
  unfold potential, astar_fuel. simpl length.
  pose proof (sum_list_fmap_bound
    (rem_pushes (S (S (length (all_cells grid)))) (g_score (astar_init start)))
    (all_cells grid) (S (S (length (all_cells grid))))) as Hb.
  lapply Hb; [lia|]. intros c. unfold rem_pushes. simpl.
  destruct (decide (c = start)) as [->|Hne].
  - rewrite lookup_singleton_eq. simpl. lia.
  - rewrite lookup_singleton_ne by done. lia.
Qed.
End Termination.

(** On a rectangular grid the search returns, whatever the endpoints. *)
Lemma astar_returns grid start goal :
  grid ≠ [] → rectangular grid → ∃ res, astar grid start goal = Return res.
Proof.
  intros Hne Hrect. unfold astar.
  destruct (getitem_0_nonempty grid Hne) as (row0 & _ & Hrow).
  rewrite Hrow. cbn [mbind outcome_bind].
  destruct (astar_dims _ _ Hrow) as (-> & -> & ->).
  apply astar_loop_returns; [done|apply astar_init_inv|apply astar_init_potential].
Qed.

(** ** The reference breadth-first search *)

Lemma open_cellb_spec grid c : open_cellb grid c = true ↔ open_cell grid c.
Proof.
  unfold open_cellb, open_cell, in_bounds.
  rewrite !andb_true_iff, !Z.leb_le, !Z.ltb_lt.
  destruct (getitem2 grid c.1 c.2) as [v| |];
    [|split; intros [_ ?]; done..].
  rewrite Z.eqb_eq. split.
  - intros [? ->]. split; [lia|done].
  - intros [? [= ->]]. split; [lia|done].
Qed.

Lemma elem_of_open_neighbors grid u c :
  c ∈ open_neighbors grid u ↔ adjacent u c ∧ open_cell grid c.
Proof.
  unfold open_neighbors.
  rewrite list_elem_of_filter, open_cellb_spec, adjacent_neighbors4. tauto.
Qed.

Section BFS.
Variable grid : list (list Z).
Variables start goal : cell.

Local Abbreviation reach := (reach grid start).
Local Abbreviation bfs_inv := (bfs_inv grid start).

Lemma reach_pos n c : reach n c → (1 ≤ n)%nat.
Proof. destruct 1; lia. Qed.

Lemma reach_joins n c : reach n c ↔ ∃ q, joins grid q start c ∧ length q = n.
Proof.
  split.
  - induction 1 as [Ho|n u c Hr (q & (Hh & Hl & Ho & Hc) & Hlen) Hadj Hopen].
    + exists [start]. repeat split; try done. by constructor.
    + exists (q ++ [c]). split; [|rewrite length_app; simpl; lia].
      split; [|split; [|split]].
      * destruct q; [done|]. done.
      * apply last_snoc.
      * apply Forall_app. split; [done|]. by constructor.
      * apply chain_snoc. split; [done|]. by rewrite Hl.
  - intros (q & Hj & <-). revert c Hj.
    induction q as [|c' q IH] using rev_ind; intros c (Hh & Hl & Ho & Hc).
    { done. }
    rewrite last_snoc in Hl. injection Hl as ->.
    apply Forall_app in Ho as [Ho Hoc]. rewrite Forall_singleton in Hoc.
    apply chain_snoc in Hc as [Hc Hlast].
    destruct (last q) as [u|] eqn:Hu.
    + rewrite length_app. simpl. replace (length q + 1)%nat with (S (length q)) by lia.
      apply (reach_step _ _ _ u); [|done|done].
      apply IH. split; [|done]. destruct q; [done|]. done.
    + apply last_None in Hu as ->. simpl in Hh. injection Hh as ->.
      by constructor.
Qed.

Lemma bfs_inv_init : open_cell grid start → bfs_inv [start] [start] 1.
Proof.
  intros Ho. assert (∀ c, reach 1 c → c = start) as H1.
  { intros c Hr. inversion Hr as [|n u c' Hr' ? ?]; [done|].
    apply reach_pos in Hr'. lia. }
  split; [lia|]. split; intros c; rewrite list_elem_of_singleton; split.
  - intros ->. exists 1%nat. split; [lia|by constructor].
  - intros (n & Hn & Hr). pose proof (reach_pos _ _ Hr).
    assert (n = 1%nat) as -> by lia. auto.
  - intros ->. split; [by constructor|]. intros n Hn Hr.
    apply reach_pos in Hr. lia.
  - intros [Hr _]. auto.
Qed.

Lemma elem_of_next (V F : list cell) c :
  c ∈ remove_dups (filter (λ c, c ∉ V) (F ≫= open_neighbors grid)) ↔
  (c ∉ V) ∧ ∃ u, u ∈ F ∧ adjacent u c ∧ open_cell grid c.
Proof.
  rewrite elem_of_remove_dups, list_elem_of_filter, list_elem_of_bind.
  setoid_rewrite elem_of_open_neighbors. split.
  - intros (? & u & (? & ?) & ?). eauto 6.
  - intros (? & u & ? & ? & ?). eauto 6.
Qed.

Lemma bfs_inv_step (V F : list cell) len :
  bfs_inv V F len →
  let next := remove_dups (filter (λ c, c ∉ V) (F ≫= open_neighbors grid)) in
  bfs_inv (next ++ V) next (S len).
Proof.
  intros (Hlen & HV & HF) next.
  assert (∀ c, c ∈ next ↔ reach (S len) c ∧ ∀ n, (n < S len)%nat → ¬ reach n c) as Hnext.
  { intros c. unfold next. rewrite elem_of_next. split.
    - intros (HnV & u & Hu & Hadj & Ho). apply HF in Hu as [Hu _]. split.
      + by eapply reach_step.
      + intros n Hn Hr. apply HnV, HV. exists n. split; [lia|done].
    - intros [Hr Hmin]. split.
      + intros (n & Hn & Hr')%HV. apply (Hmin n); [lia|done].
      + inversion Hr as [|n u c' Hru Hadj Ho]; [lia|]. subst.
        exists u. split; [|done]. apply HF. split; [done|].
        intros n Hn Hrn. apply (Hmin (S n)); [lia|]. by eapply reach_step. }
  split; [lia|]. split; [|done]. intros c. rewrite elem_of_app, Hnext, HV. split.
  - intros [[Hr _]|(n & Hn & Hr)]; [exists (S len)|exists n]; split; done || lia.
  - intros (n & Hn & Hr). destruct (decide (c ∈ V)) as [Hin|Hnin].
    + right. by apply HV.
    + left. assert (n = S len) as ->.
      { destruct (decide (n = S len)); [done|]. exfalso. apply Hnin, HV.
        exists n. split; [lia|done]. }
      split; [done|]. intros m Hm Hrm. apply Hnin, HV. exists m. split; [lia|done].
Qed.

Lemma bfs_levels_sound fuel V F len n :
  bfs_inv V F len → bfs_levels fuel grid goal V F len = Some n →
  reach n goal ∧ ∀ m, (m < n)%nat → ¬ reach m goal.
Proof.
  revert V F len. induction fuel as [|fuel IH]; intros V F len Hinv; [done|].
  simpl. case_bool_decide as Hg.
  - intros [= <-]. by apply Hinv.
  - pose proof (bfs_inv_step _ _ _ Hinv) as Hstep. simpl in Hstep.
    destruct (remove_dups _) as [|x next] eqn:Hnext; [done|].
    by apply IH.
Qed.

Lemma bfs_levels_complete fuel V F len m :
  bfs_inv V F len → reach m goal → (m < len + fuel)%nat →
  (∀ n, (n < len)%nat → ¬ reach n goal) →
  ∃ n, bfs_levels fuel grid goal V F len = Some n.
Proof.
  revert V F len. induction fuel as [|fuel IH]; intros V F len Hinv Hm Hlt Hmin.
  { exfalso. apply (Hmin m); [lia|done]. }
  simpl. case_bool_decide as Hg; [eauto|].
  pose proof Hinv as (Hlen & HV & HF).
  assert (∀ n, (n < S len)%nat → ¬ reach n goal) as Hmin'.
  { intros n Hn Hr. destruct (decide (n = len)) as [->|Hne].
    - apply Hg, HF. split; [done|]. apply Hmin.
    - apply (Hmin n); [lia|done]. }
  pose proof (bfs_inv_step _ _ _ Hinv) as Hstep. simpl in Hstep.
  destruct (remove_dups _) as [|x next] eqn:Hnext.
  - exfalso. destruct Hstep as (_ & HV' & HF').
    assert (∀ n c, reach n c → c ∈ V) as Hall.
    { intros n c Hr. induction Hr as [Ho|n u c Hr IHr Hadj Ho].
      - apply HV. exists 1%nat. split; [lia|by constructor].
      - apply HV in IHr as (n' & Hn' & Hr').
        destruct (decide (c ∈ V)) as [|Hnin]; [done|]. exfalso.
        assert (c ∈ ([] : list cell)) as Hx; [|by apply elem_of_nil in Hx].
        apply HF'. assert (n' = len) as ->.
        { destruct (decide (n' = len)); [done|]. exfalso. apply Hnin, HV.
          exists (S n'). split; [lia|]. by eapply reach_step. }
        split; [by eapply reach_step|].
        intros k Hk Hrk. apply Hnin, HV. exists k. split; [lia|done]. }
    apply Hall, HV in Hm as (n & Hn & Hr). apply (Hmin' n); [lia|done].
  - apply (IH _ _ _ Hstep Hm); [lia|done].
Qed.

(** The search returns the number of cells of a shortest path. *)
Lemma bfs_length_spec n :
  open_cell grid start →
  reach n goal → (∀ m, (m < n)%nat → ¬ reach m goal) →
  (n ≤ S (length (all_cells grid)))%nat →
  bfs_length grid start goal = Some n.
Proof.
  intros Ho Hr Hmin Hn. unfold bfs_length.
  rewrite (proj2 (open_cellb_spec _ _) Ho).
  assert (Z.to_nat (nrows grid * ncols grid) = length (all_cells grid)) as ->.
  { rewrite length_all_cells. unfold nrows, ncols. lia. }
  destruct (bfs_levels_complete (S (S (length (all_cells grid)))) [start] [start] 1 n
              (bfs_inv_init Ho) Hr) as [k Hk]; [lia| |].
  { intros k Hk Hrk. apply reach_pos in Hrk. lia. }
  rewrite Hk. f_equal.
  destruct (bfs_levels_sound _ _ _ _ _ (bfs_inv_init Ho) Hk) as [Hrk Hmink].
  destruct (lt_eq_lt_dec k n) as [[Hlt| ->]|Hgt]; [|done|].
  - exfalso. by apply (Hmin k).
  - exfalso. by apply (Hmink n).
Qed.
End BFS.

(** ** Unique paths in a grown tree *)

Lemma chain_impl_elem {A} (R R' : A → A → Prop) p :
  (∀ a b, a ∈ p → b ∈ p → R a b → R' a b) → chain R p → chain R' p.
Proof.
  induction p as [|a p IH]; [done|]. intros HR.
  rewrite !chain_cons. intros [H1 H2]. split.
  - destruct p as [|b p]; [done|]. simpl in *. apply HR; [by left|right; by left|done].
  - apply IH; [|done]. intros x y Hx Hy. apply HR; by right.
Qed.

Lemma verts_unfold root es : verts root es = root :: es.*2.
Proof. reflexivity. Qed.

Section TreePaths.
Variable root : cell.

Local Abbreviation verts := (verts root).
Local Abbreviation grown := (grown root).

Lemma elem_of_verts_cons u v es x :
  x ∈ verts ((u, v) :: es) ↔ x = v ∨ x ∈ verts es.
Proof. rewrite !verts_unfold, fmap_cons, !elem_of_cons. simpl. tauto. Qed.

Lemma verts_app es' es x : x ∈ verts es → x ∈ verts (es' ++ es).
Proof.
  rewrite !verts_unfold, fmap_app, !elem_of_cons, elem_of_app. tauto.
Qed.

Lemma grown_edge_verts es x y :
  grown es → (x, y) ∈ es → x ∈ verts es ∧ y ∈ verts es.
Proof.
  induction 1 as [|u v es Hg IH Hu Hv]; intros Hin; [by apply elem_of_nil in Hin|].
  rewrite !elem_of_verts_cons.
  apply elem_of_cons in Hin as [[= -> ->]|Hin]; [tauto|].
  destruct (IH Hin). tauto.
Qed.

Lemma edge_verts es a b : grown es → edge es a b → a ∈ verts es ∧ b ∈ verts es.
Proof.
  intros Hg [H|H]; destruct (grown_edge_verts _ _ _ Hg H); tauto.
Qed.

Lemma edge_sym es a b : edge es a b → edge es b a.
Proof. unfold edge. tauto. Qed.

Lemma edge_cons u v es a b :
  edge ((u, v) :: es) a b ↔ edge es a b ∨ (a = u ∧ b = v) ∨ (a = v ∧ b = u).
Proof.
  unfold edge. rewrite !elem_of_cons. split.
  - intros [[[= -> ->]|?]|[[= -> ->]|?]]; tauto.
  - intros [[?|?]|[[-> ->]|[-> ->]]]; tauto.
Qed.

Lemma edge_new_leaf u v es x :
  grown es → v ∉ verts es → edge ((u, v) :: es) v x → x = u.
Proof.
  intros Hg Hv [He|[[-> ->]|[_ ->]]]%edge_cons; [|done..].
  destruct (edge_verts _ _ _ Hg He). done.
Qed.

Lemma upath_verts es p a b :
  grown es → a ∈ verts es → upath es p a b → Forall (λ x, x ∈ verts es) p.
Proof.
  intros Hg Ha (_ & Hh & _ & Hc). destruct p as [|a' p]; [constructor|].
  injection Hh as ->. constructor; [done|].
  apply (chain_Forall_tail (edge es) (λ x, x ∈ verts es) a p); [|done].
  intros x y He. by destruct (edge_verts _ _ _ Hg He).
Qed.

Lemma upath_refl es p a : upath es p a a → p = [a].
Proof.
  intros (Hnd & Hh & Hl & _). destruct p as [|a' p]; [done|].
  injection Hh as ->. destruct p as [|b p]; [done|]. exfalso.
  rewrite last_cons_cons in Hl. apply NoDup_cons in Hnd as [Hnin _].
  apply Hnin. rewrite last_Some in Hl. destruct Hl as [l' ->].
  apply elem_of_app. right. by left.
Qed.

Lemma upath_reverse es p a b : upath es p a b → upath es (reverse p) b a.
Proof.
  intros (Hnd & Hh & Hl & Hc). split; [by rewrite reverse_Permutation|].
  rewrite head_reverse, last_reverse. split; [done|]. split; [done|].
  apply chain_reverse in Hc. revert Hc. apply chain_impl.
  intros x y. apply edge_sym.
Qed.

Lemma unique_path_sym es a b :
  (∃ p, upath es p a b ∧ ∀ p', upath es p' a b → p' = p) →
  ∃ p, upath es p b a ∧ ∀ p', upath es p' b a → p' = p.
Proof.
  intros (p & Hp & Huniq). exists (reverse p). split; [by apply upath_reverse|].
  intros p' Hp'. apply upath_reverse, Huniq in Hp'.
  by rewrite <-Hp', reverse_involutive.
Qed.

(** A simple path between two old vertices avoids the new leaf. *)
Lemma upath_avoids_leaf u v es p a b :
  grown es → v ∉ verts es →
  upath ((u, v) :: es) p a b → a ≠ v → b ≠ v → v ∉ p.
Proof.
  intros Hg Hv (Hnd & Hh & Hl & Hc). revert a Hh Hnd Hl Hc.
  induction p as [|x p IH]; intros a Hh Hnd Hl Hc Ha Hb; [apply not_elem_of_nil|].
  injection Hh as ->. apply NoDup_cons in Hnd as [Hnin Hnd].
  apply not_elem_of_cons. split; [done|].
  destruct p as [|c p]; [apply not_elem_of_nil|].
  rewrite last_cons_cons in Hl. destruct Hc as [Hac Hc].
  destruct (decide (c = v)) as [->|Hcv]; [|by apply (IH c)].
  exfalso. apply edge_sym in Hac.
  apply (edge_new_leaf _ _ _ _ Hg Hv) in Hac as ->.
  destruct p as [|d p].
  - by injection Hl as ->.
  - destruct Hc as [Hvd _]. apply (edge_new_leaf _ _ _ _ Hg Hv) in Hvd as ->.
    apply Hnin. right. by left.
Qed.

Lemma upath_old u v es p a b :
  grown es → v ∉ p → upath ((u, v) :: es) p a b → upath es p a b.
Proof.
  intros Hg Hv (Hnd & Hh & Hl & Hc). repeat split; try done.
  revert Hc. apply chain_impl_elem. intros x y Hx Hy [He|[[_ ->]|[-> _]]]%edge_cons;
    done.
Qed.

Lemma upath_new u v es p a b : upath es p a b → upath ((u, v) :: es) p a b.
Proof.
  intros (Hnd & Hh & Hl & Hc). repeat split; try done.
  revert Hc. apply chain_impl. intros x y He. apply edge_cons. by left.
Qed.

(** In a grown tree any two vertices are joined by exactly one simple
    path. *)
Lemma grown_unique_path es :
  grown es → ∀ a b, a ∈ verts es → b ∈ verts es →
  ∃ p, upath es p a b ∧ ∀ p', upath es p' a b → p' = p.
Proof.
  induction 1 as [|u v es Hg IH Hu Hv]; intros a b Ha Hb.
  - apply list_elem_of_singleton in Ha as ->.
    apply list_elem_of_singleton in Hb as ->.
    exists [root]. split; [|intros p'; apply upath_refl].
    repeat split; try done. apply NoDup_singleton.
  - assert (∀ b, b ≠ v → b ∈ verts es →
       ∃ p, upath ((u, v) :: es) p v b ∧
            ∀ p', upath ((u, v) :: es) p' v b → p' = p) as Hleaf.
    { intros c Hcv Hc. destruct (IH u c Hu Hc) as (p0 & Hp0 & Huniq).
      pose proof (upath_verts _ _ _ _ Hg Hu Hp0) as Hin.
      assert (v ∉ p0) as Hvp.
      { intros Hx. rewrite Forall_forall in Hin. by apply Hv, Hin. }
      exists (v :: p0). split.
      - destruct (upath_new u v _ _ _ _ Hp0) as (Hnd & Hh & Hl & Hc').
        split; [by apply NoDup_cons|]. split; [done|]. split.
        + destruct p0; [done|]. by rewrite last_cons_cons.
        + apply chain_cons. rewrite Hh. split; [|done].
          apply edge_cons. tauto.
      - intros p' (Hnd & Hh & Hl & Hc'). destruct p' as [|x p']; [done|].
        injection Hh as ->. apply NoDup_cons in Hnd as [Hnin Hnd].
        destruct p' as [|y p']; [by injection Hl as ->|].
        rewrite last_cons_cons in Hl. destruct Hc' as [Hvy Hc'].
        apply (edge_new_leaf _ _ _ _ Hg Hv) in Hvy as ->.
        f_equal. apply Huniq. by apply (upath_old u v). }
    apply elem_of_verts_cons in Ha, Hb.
    destruct (decide (a = v)) as [->|Hav], (decide (b = v)) as [->|Hbv].
    + exists [v]. split; [|intros p'; apply upath_refl].
      repeat split; try done. apply NoDup_singleton.
    + destruct Hb as [?|Hb]; [done|]. by apply Hleaf.
    + destruct Ha as [?|Ha]; [done|]. by apply unique_path_sym, Hleaf.
    + destruct Ha as [?|Ha]; [done|]. destruct Hb as [?|Hb]; [done|].
      destruct (IH a b Ha Hb) as (p & Hp & Huniq). exists p.
      split; [by apply upath_new|]. intros p' Hp'. apply Huniq.
      apply (upath_old u v); [done| |done].
      by apply (upath_avoids_leaf u v es p' a b).
Qed.
End TreePaths.

(** ** Reading and writing cells *)

Lemma getitem_lookup {A} (l : list A) i :
  0 ≤ i →
  getitem l i = match l !! Z.to_nat i with
                | Some x => Return x
                | None => Raise IndexError
                end.
Proof.
  intros Hi. unfold getitem. rewrite py_index_nonneg by done.
  case_bool_decide as Hlt; [done|].
  rewrite lookup_ge_None_2; [done|lia].
Qed.

Lemma getitem2_cell_at maze (x : cell) :
  0 ≤ x.1 → 0 ≤ x.2 →
  getitem2 maze x.1 x.2 = match cell_at maze x with
                          | Some v => Return v
                          | None => Raise IndexError
                          end.
Proof.
  intros H1 H2. unfold getitem2, cell_at. rewrite getitem_lookup by done.
  destruct (maze !! Z.to_nat x.1) as [row|]; simpl; [|done].
  by rewrite getitem_lookup.
Qed.

Lemma getitem2_Return_cell_at maze (x : cell) v :
  0 ≤ x.1 → 0 ≤ x.2 →
  getitem2 maze x.1 x.2 = Return v ↔ cell_at maze x = Some v.
Proof.
  intros H1 H2. rewrite getitem2_cell_at by done.
  destruct (cell_at maze x); split; intros; congruence.
Qed.

Section Cells.
Variables rows cols : Z.

Local Abbreviation shape := (shape rows cols).
Local Abbreviation inb := (λ x : cell, 0 ≤ x.1 < rows ∧ 0 ≤ x.2 < cols).

Lemma cell_at_shape maze x : shape maze → inb x → is_Some (cell_at maze x).
Proof.
  intros [Hlen Hrow] [H1 H2]. unfold cell_at.
  destruct (lookup_lt_is_Some_2 maze (Z.to_nat x.1)) as [row Hr]; [lia|].
  rewrite Hr. simpl. apply lookup_lt_is_Some_2.
  rewrite (Hrow row); [lia|]. by eapply list_elem_of_lookup_2.
Qed.

Lemma setitem2_shape maze x v :
  shape maze → inb x →
  ∃ maze', setitem2 maze x.1 x.2 v = Return maze' ∧ shape maze' ∧
    ∀ y, 0 ≤ y.1 → 0 ≤ y.2 →
      cell_at maze' y = if decide (y = x) then Some v else cell_at maze y.
Proof.
  intros [Hlen Hrow] [H1 H2]. unfold setitem2.
  rewrite getitem_lookup by lia.
  destruct (lookup_lt_is_Some_2 maze (Z.to_nat x.1)) as [row Hr]; [lia|].
  rewrite Hr. cbn [mbind outcome_bind].
  assert (length row = Z.to_nat cols) as Hlr.
  { apply Hrow. by eapply list_elem_of_lookup_2. }
  unfold setitem. rewrite !py_index_nonneg by lia.
  rewrite !bool_decide_true by lia. cbn [mbind outcome_bind].
  eexists. split; [done|]. split.
  - split; [by rewrite length_insert|].
    intros row' [i Hi]%list_elem_of_lookup.
    destruct (decide (i = Z.to_nat x.1)) as [->|Hne].
    + rewrite list_lookup_insert_eq in Hi by lia. injection Hi as <-.
      by rewrite length_insert.
    + rewrite list_lookup_insert_ne in Hi by done.
      apply Hrow. by eapply list_elem_of_lookup_2.
  - intros y Hy1 Hy2. unfold cell_at.
    destruct (decide (Z.to_nat y.1 = Z.to_nat x.1)) as [Heq|Hne].
    + rewrite Heq, list_lookup_insert_eq by lia. simpl.
      destruct (decide (Z.to_nat y.2 = Z.to_nat x.2)) as [Heq2|Hne2].
      * rewrite Heq2, list_lookup_insert_eq by lia.
        rewrite decide_True; [done|]. destruct x, y; simpl in *. f_equal; lia.
      * rewrite list_lookup_insert_ne by done. rewrite Hr. simpl.
        rewrite decide_False; [done|]. intros ->. done.
    + rewrite list_lookup_insert_ne by done.
      rewrite decide_False; [done|]. intros ->. done.
Qed.

Lemma all_walls_shape : shape (all_walls rows cols).
Proof.
  unfold all_walls. split; [by rewrite length_replicate|].
  intros row [-> _]%elem_of_replicate. by rewrite length_replicate.
Qed.

Lemma all_walls_cell_at x : inb x → cell_at (all_walls rows cols) x = Some 1.
Proof.
  intros [H1 H2]. unfold cell_at, all_walls.
  rewrite lookup_replicate_2 by lia. simpl. by rewrite lookup_replicate_2 by lia.
Qed.
End Cells.

(** ** Rooms and the walls between them *)

Ltac geo :=
  repeat match goal with x : cell |- _ => destruct x end;
  unfold room, two_apart, mid in *; simpl in *;
  Z.div_mod_to_equations; lia.

Lemma pair_eq (a b : cell) : a.1 = b.1 → a.2 = b.2 → a = b.
Proof. destruct a, b. simpl. by intros -> ->. Qed.

Lemma room_origin rows cols : 0 < rows → 0 < cols → room rows cols (0, 0).
Proof. intros. unfold room. simpl. repeat split; lia || reflexivity. Qed.

Section Geometry.
Variables rows cols : Z.

Local Abbreviation room := (room rows cols).

Lemma mid_in_bounds u v :
  room u → room v → two_apart u v →
  0 ≤ (mid u v).1 < rows ∧ 0 ≤ (mid u v).2 < cols.
Proof. intros. geo. Qed.

Lemma mid_not_room u v : room u → room v → two_apart u v → ¬ room (mid u v).
Proof. intros ? ? ? ?. geo. Qed.

Lemma mid_ne_corner u v :
  room u → room v → two_apart u v → mid u v ≠ (rows - 1, cols - 1).
Proof.
  intros Hu Hv Ht Heq.
  assert ((mid u v).1 = rows - 1 ∧ (mid u v).2 = cols - 1) as [? ?]
    by (by rewrite Heq).
  clear Heq. geo.
Qed.

Lemma mid_inj u v a b :
  room u → room v → two_apart u v →
  room a → room b → two_apart a b →
  mid u v = mid a b → (a = u ∧ b = v) ∨ (a = v ∧ b = u).
Proof.
  intros Hu Hv Huv Ha Hb Hab Heq.
  assert ((mid u v).1 = (mid a b).1 ∧ (mid u v).2 = (mid a b).2) as [H1 H2]
    by (by rewrite Heq).
  clear Heq.
  assert ((a.1 = u.1 ∧ a.2 = u.2 ∧ b.1 = v.1 ∧ b.2 = v.2) ∨
          (a.1 = v.1 ∧ a.2 = v.2 ∧ b.1 = u.1 ∧ b.2 = u.2)) as
    [(? & ? & ? & ?)|(? & ? & ? & ?)].
  { clear -Hu Hv Huv Ha Hb Hab H1 H2. geo. }
  - left. split; by apply pair_eq.
  - right. split; by apply pair_eq.
Qed.

Lemma two_apart_sym a b : two_apart a b → two_apart b a.
Proof. intros. geo. Qed.

Lemma mid_sym a b : mid a b = mid b a.
Proof. unfold mid. f_equal; f_equal; lia. Qed.

(** *** The neighbour list of [get_neighbors] *)

Lemma get_neighbors_ok rng free r c k :
  (∀ k l, rng k l ≡ₚ l) → room (r, c) →
  match get_neighbors rng rows cols free r c k with
  | Return (nbrs, k1) =>
      k1 = S k ∧
      (∀ n, n ∈ nbrs → nbr_ok rows cols r c n) ∧
      ∀ y, room y → two_apart (r, c) y → ∃ dr dc, (y.1, y.2, dr, dc) ∈ nbrs
  | Raise RecursionError => (free < 3)%nat
  | _ => False
  end.
Proof.
  intros Hperm Hroom. unfold get_neighbors.
  match goal with |- context [rng k ?L] => set (L0 := L) end.
  destruct (Nat.leb_spec (1 + shuffle_frames L0) free) as [_|Hlt];
    [|unfold shuffle_frames in Hlt; destruct (2 <=? length L0)%nat; lia].
  split; [done|].
  assert (∀ n, n ∈ rng k L0 ↔ n ∈ L0) as Hmem by (intros n; by rewrite Hperm).
  setoid_rewrite Hmem. subst L0. setoid_rewrite list_elem_of_bind. split.
  - intros n (d & Hn & Hd).
    destruct ((0 <=? r + d.1) && (r + d.1 <? rows) && (0 <=? c + d.2) && (c + d.2 <? cols)) eqn:Hb;
      [|by apply elem_of_nil in Hn].
    apply list_elem_of_singleton in Hn as ->.
    rewrite !andb_true_iff, !Z.leb_le, !Z.ltb_lt in Hb.
    unfold nbr_ok. simpl.
    assert (d = (0, 2) ∨ d = (0, -2) ∨ d = (2, 0) ∨ d = (-2, 0)) as Hcases.
    { rewrite !elem_of_cons, elem_of_nil in Hd. tauto. }
    destruct Hcases as [-> | [-> | [-> | ->]]]; simpl in *;
      (split; [|split]); [geo|geo|unfold mid; simpl; f_equal; geo| ..];
      try geo; unfold mid; simpl; f_equal; geo.
  - intros y Hy Hyt.
    assert (∃ d, d ∈ [(0, 2); (0, -2); (2, 0); (-2, 0)] ∧
                 y.1 = r + d.1 ∧ y.2 = c + d.2) as (d & Hd & H1 & H2).
    { assert ((y.1 = r ∧ y.2 = c + 2) ∨ (y.1 = r ∧ y.2 = c + -2) ∨
              (y.1 = r + 2 ∧ y.2 = c) ∨ (y.1 = r + -2 ∧ y.2 = c)) as Hc
        by (clear -Hyt; geo).
      destruct Hc as [[? ?]|[[? ?]|[[? ?]|[? ?]]]];
        [exists (0, 2)|exists (0, -2)|exists (2, 0)|exists (-2, 0)];
        (split; [rewrite !elem_of_cons; tauto|simpl; lia]). }
    exists (d.1 `div` 2), (d.2 `div` 2), d. split; [|done].
    replace ((0 <=? r + d.1) && (r + d.1 <? rows) && (0 <=? c + d.2) && (c + d.2 <? cols))
      with true.
    + rewrite H1, H2. by left.
    + symmetry. rewrite !andb_true_iff, !Z.leb_le, !Z.ltb_lt.
      destruct Hy as [[? ?] _]. lia.
Qed.
End Geometry.

(** ** Counting walls *)

Lemma filter_length_le {A} (P Q : A → Prop) `{∀ x, Decision (P x)}
    `{∀ x, Decision (Q x)} (U : list A) :
  (∀ x, x ∈ U → P x → Q x) →
  (length (filter P U) ≤ length (filter Q U))%nat.
Proof.
  induction U as [|a U IH]; intros HPQ; [done|].
  assert (length (filter P U) ≤ length (filter Q U))%nat as IH'.
  { apply IH. intros x Hx. apply HPQ. by right. }
  destruct (decide (P a)) as [HP|HP].
  - rewrite (filter_cons_True P) by done.
    rewrite (filter_cons_True Q) by (apply HPQ; [by left|done]). simpl. lia.
  - rewrite (filter_cons_False P) by done.
    destruct (decide (Q a)).
    + rewrite (filter_cons_True Q) by done. simpl. lia.
    + by rewrite (filter_cons_False Q).
Qed.

Lemma filter_length_lt {A} (P Q : A → Prop) `{∀ x, Decision (P x)}
    `{∀ x, Decision (Q x)} (U : list A) a :
  (∀ x, x ∈ U → P x → Q x) → a ∈ U → Q a → ¬ P a →
  (length (filter P U) < length (filter Q U))%nat.
Proof.
  induction U as [|b U IH]; intros HPQ Ha HQ HnP; [by apply elem_of_nil in Ha|].
  assert (∀ x, x ∈ U → P x → Q x) as HPQ' by (intros x Hx; apply HPQ; by right).
  pose proof (filter_length_le P Q U HPQ') as Hle.
  apply elem_of_cons in Ha as [->|Ha].
  - rewrite (filter_cons_False P) by done.
    rewrite (filter_cons_True Q) by done. simpl. lia.
  - specialize (IH HPQ' Ha HQ HnP).
    destruct (decide (P b)) as [HP|HP].
    + rewrite (filter_cons_True P) by done.
      rewrite (filter_cons_True Q) by (apply HPQ; [by left|done]). simpl. lia.
    + rewrite (filter_cons_False P) by done.
      destruct (decide (Q b)).
      * rewrite (filter_cons_True Q) by done. simpl. lia.
      * by rewrite (filter_cons_False Q).
Qed.

(** ** The list of rooms *)

Lemma NoDup_grid_cells rows cols : NoDup (grid_cells rows cols).
Proof.
  unfold grid_cells. apply NoDup_bind.
  - intros r1 r2 y _ _ H1 H2.
    apply list_elem_of_fmap in H1 as (c1 & -> & _).
    apply list_elem_of_fmap in H2 as (c2 & Heq & _). congruence.
  - intros r _. apply NoDup_fmap_2; [|apply NoDup_seqZ].
    intros c1 c2 Heq. congruence.
  - apply NoDup_seqZ.
Qed.

Lemma NoDup_room_cells rows cols : NoDup (room_cells rows cols).
Proof.
  unfold room_cells. apply NoDup_fmap_2; [|apply NoDup_grid_cells].
  intros [a1 a2] [b1 b2] Heq. simpl in Heq. f_equal; injection Heq; lia.
Qed.

Lemma elem_of_room_cells rows cols x :
  x ∈ room_cells rows cols ↔ room rows cols x.
Proof.
  unfold room_cells. rewrite list_elem_of_fmap. split.
  - intros (y & -> & Hy%elem_of_grid_cells). destruct y. unfold room. simpl in *.
    Z.div_mod_to_equations. lia.
  - intros Hx. exists (x.1 `div` 2, x.2 `div` 2). split.
    + destruct x. unfold room in Hx. simpl in *. f_equal;
        Z.div_mod_to_equations; lia.
    + apply elem_of_grid_cells. destruct x. unfold room in Hx. simpl in *.
      Z.div_mod_to_equations. lia.
Qed.

Lemma length_room_cells rows cols :
  length (room_cells rows cols) =
  (Z.to_nat ((rows + 1) `div` 2) * Z.to_nat ((cols + 1) `div` 2))%nat.
Proof. unfold room_cells. by rewrite length_fmap, length_grid_cells. Qed.

(** ** The walk grows a tree *)

Section WalkInv.
Variables rows cols : Z.
Hypothesis Hrows : 0 < rows.
Hypothesis Hcols : 0 < cols.

Local Abbreviation room := (room rows cols).
Local Abbreviation shape := (shape rows cols).
Local Abbreviation maze_inv := (maze_inv rows cols).
Local Abbreviation complete := (complete rows cols).
Local Abbreviation closed_count := (closed_count rows cols).
Local Abbreviation inb := (λ x : cell, 0 ≤ x.1 < rows ∧ 0 ≤ x.2 < cols).
Local Abbreviation verts := (verts (0, 0)).

Lemma opened_cons u v es x :
  opened ((u, v) :: es) x ↔ x = v ∨ x = mid u v ∨ opened es x.
Proof.
  unfold opened. rewrite elem_of_verts_cons. split.
  - intros [[?|?]|(a & b & Hin & ->)]; [tauto|tauto|].
    apply elem_of_cons in Hin as [[= -> ->]|Hin]; [tauto|].
    do 2 right. right. eauto.
  - intros [->|[->|[?|(a & b & Hin & ->)]]]; [tauto| |tauto|].
    + right. exists u, v. split; [by left|done].
    + right. exists a, b. split; [by right|done].
Qed.

Lemma opened_app es' es x : opened es x → opened (es' ++ es) x.
Proof.
  intros [?|(a & b & Hin & ->)].
  - left. by apply verts_app.
  - right. exists a, b. split; [|done]. apply elem_of_app. by right.
Qed.

Lemma opened_nil x : opened [] x ↔ x = (0, 0).
Proof.
  unfold opened. rewrite verts_unfold. simpl. rewrite list_elem_of_singleton. split.
  - intros [?|(a & b & Hin & _)]; [done|]. by apply elem_of_nil in Hin.
  - tauto.
Qed.

Lemma maze_inv_open maze es x :
  maze_inv maze es → inb x → cell_at maze x = Some 0 ↔ opened es x.
Proof.
  intros Hi Hx. destruct (mi_cells _ _ _ _ Hi x Hx) as [[-> ?]|[-> ?]];
    split; try done; intros; congruence.
Qed.

Lemma maze_inv_closed maze es x :
  maze_inv maze es → inb x → cell_at maze x = Some 1 ↔ ¬ opened es x.
Proof.
  intros Hi Hx. destruct (mi_cells _ _ _ _ Hi x Hx) as [[-> ?]|[-> ?]];
    split; try done; intros; congruence.
Qed.

Lemma maze_inv_mono maze es maze' es' x :
  maze_inv maze es → maze_inv maze' (es' ++ es) → inb x →
  cell_at maze x = Some 0 → cell_at maze' x = Some 0.
Proof.
  intros Hi Hi' Hx H0. apply (maze_inv_open _ _ _ Hi' Hx), opened_app.
  by apply (maze_inv_open _ _ _ Hi Hx).
Qed.

Lemma complete_mono maze es maze' es' x :
  maze_inv maze es → maze_inv maze' (es' ++ es) →
  complete maze x → complete maze' x.
Proof.
  intros Hi Hi' Hc y Hy Hxy.
  apply (maze_inv_mono maze es maze' es' y Hi Hi' (proj1 Hy)). by apply Hc.
Qed.

Lemma room_in_verts maze es y :
  maze_inv maze es → room y → cell_at maze y = Some 0 → y ∈ verts es.
Proof.
  intros Hi Hy H0. apply (maze_inv_open _ _ _ Hi (proj1 Hy)) in H0.
  destruct H0 as [?|(a & b & Hin & ->)]; [done|]. exfalso.
  destruct (mi_edges _ _ _ _ Hi _ _ Hin) as (Ha & Hb & Hab).
  by apply (mid_not_room rows cols a b).
Qed.

Lemma closed_count_le maze es maze' es' :
  maze_inv maze es → maze_inv maze' (es' ++ es) →
  (closed_count maze' ≤ closed_count maze)%nat.
Proof.
  intros Hi Hi'. apply filter_length_le. intros x Hx%elem_of_room_cells H1.
  apply (maze_inv_closed _ _ _ Hi (proj1 Hx)). intros Ho.
  apply (maze_inv_closed _ _ _ Hi' (proj1 Hx)) in H1. by apply H1, opened_app.
Qed.

Lemma closed_count_lt maze es maze' es' x :
  maze_inv maze es → maze_inv maze' (es' ++ es) → room x →
  cell_at maze x = Some 1 → cell_at maze' x = Some 0 →
  (closed_count maze' < closed_count maze)%nat.
Proof.
  intros Hi Hi' Hx H1 H0. apply (filter_length_lt _ _ _ x).
  - intros y Hy%elem_of_room_cells Hy1.
    apply (maze_inv_closed _ _ _ Hi (proj1 Hy)). intros Ho.
    apply (maze_inv_closed _ _ _ Hi' (proj1 Hy)) in Hy1. by apply Hy1, opened_app.
  - by apply elem_of_room_cells.
  - done.
  - congruence.
Qed.

(** The start room is open, so one room at least is not counted. *)
Lemma closed_count_bound maze es :
  maze_inv maze es →
  (closed_count maze < length (room_cells rows cols))%nat.
Proof.
  intros Hi.
  assert (room (0, 0)) as H0 by (by apply room_origin).
  assert (closed_count maze <
          length (filter (λ _ : cell, True) (room_cells rows cols)))%nat as Hlt.
  { apply (filter_length_lt _ _ _ (0, 0)); [done|by apply elem_of_room_cells|done|].
    assert (cell_at maze (0, 0) = Some 0) as ->; [|done].
    apply (maze_inv_open _ _ _ Hi (proj1 H0)). left. by left. }
  pose proof (length_filter (λ _ : cell, True) (room_cells rows cols)). lia.
Qed.

(** Opening the start room of an all-wall grid. *)
Lemma maze_inv_root :
  ∃ m1, setitem2 (all_walls rows cols) 0 0 0 = Return m1 ∧ maze_inv m1 [].
Proof.
  destruct (setitem2_shape rows cols (all_walls rows cols) (0, 0) 0)
    as (m1 & Hset & Hsh & Hcell); [apply all_walls_shape|simpl; lia|].
  exists m1. split; [done|]. constructor; [done|constructor| |].
  - intros u v Hin. by apply elem_of_nil in Hin.
  - intros x Hx. rewrite Hcell by lia. rewrite opened_nil.
    destruct (decide (x = (0, 0))); [by left|]. right.
    by rewrite all_walls_cell_at.
Qed.

(** Knocking down the wall to a closed neighbouring room and opening the
    room adds a leaf to the tree. *)
Lemma maze_inv_edge maze es u v :
  maze_inv maze es → u ∈ verts es → room u → room v → two_apart u v →
  cell_at maze v = Some 1 →
  ∃ mw m1,
    setitem2 maze (mid u v).1 (mid u v).2 0 = Return mw ∧
    setitem2 mw v.1 v.2 0 = Return m1 ∧
    maze_inv m1 ((u, v) :: es).
Proof.
  intros Hi Hu Hru Hrv Huv Hv1.
  pose proof (mid_in_bounds rows cols u v Hru Hrv Huv) as Hmid.
  destruct (setitem2_shape rows cols maze (mid u v) 0 (mi_shape _ _ _ _ Hi) Hmid)
    as (mw & Hsetw & Hshw & Hcw).
  destruct (setitem2_shape rows cols mw v 0 Hshw (proj1 Hrv))
    as (m1 & Hset1 & Hsh1 & Hc1).
  exists mw, m1. split; [done|]. split; [done|].
  assert (¬ opened es v) as Hnv by (by apply (maze_inv_closed _ _ _ Hi (proj1 Hrv))).
  constructor.
  - done.
  - constructor; [apply Hi|done|]. intros Hin. apply Hnv. by left.
  - intros a b [[= -> ->]|Hin]%elem_of_cons; [done|]. by apply (mi_edges _ _ _ _ Hi).
  - intros x Hx. rewrite Hc1, Hcw by lia. rewrite opened_cons.
    destruct (decide (x = v)) as [->|Hxv]; [left; tauto|].
    destruct (decide (x = mid u v)) as [->|Hxm]; [left; tauto|].
    destruct (mi_cells _ _ _ _ Hi x Hx) as [[? ?]|[? ?]]; [left; tauto|right].
    split; [done|]. tauto.
Qed.

(** *** The loop of [visit] *)

Lemma visit_step_eq vis r c maze k nr nc dr dc :
  visit_step vis r c (maze, k) (nr, nc, dr, dc) =
  (v ← getitem2 maze nr nc;
   if v =? 1 then mw ← setitem2 maze (r + dr) (c + dc) 0; vis nr nc (mw, k)
   else Return (maze, k)).
Proof. done. Qed.

Lemma visit_loop_ok vis N r c l maze k es :
  vis_spec rows cols vis N → room (r, c) →
  (∀ n, n ∈ l → nbr_ok rows cols r c n) →
  maze_inv maze es → (r, c) ∈ verts es →
  match foldM (visit_step vis r c) (maze, k) l with
  | Return (maze', k') =>
      ∃ es',
        maze_inv maze' (es' ++ es) ∧
        (∀ x, x ∈ es'.*2 → complete maze' x) ∧
        (∀ n, n ∈ l → cell_at maze' (n.1.1.1, n.1.1.2) = Some 0) ∧
        k' = (k + length es')%nat
  | Raise RecursionError => (N < closed_count maze + 3)%nat
  | _ => False
  end.
Proof.
  intros Hvis Hroom. revert maze k es.
  induction l as [|n l IH]; intros maze k es Hl Hi Hrc.
  { exists []. split; [done|]. split.
    - intros x Hx. by apply elem_of_nil in Hx.
    - split; [|simpl; lia]. intros n Hn. by apply elem_of_nil in Hn. }
  assert (∀ m, m ∈ l → nbr_ok rows cols r c m) as Hl' by (intros m Hm; apply Hl; by right).
  destruct (Hl n (list_elem_of_here _ _)) as (Hrn & Hadj & Hmid).
  destruct n as [[[nr nc] dr] dc]. simpl in Hrn, Hadj, Hmid.
  cbn [foldM]. rewrite visit_step_eq.
  pose proof (getitem2_cell_at maze (nr, nc)) as Hget. simpl in Hget.
  rewrite Hget by apply Hrn. clear Hget.
  destruct (mi_cells _ _ _ _ Hi (nr, nc) (proj1 Hrn)) as [[H0 Ho]|[H1 Hno]].
  - rewrite H0. cbn [mbind outcome_bind]. change (0 =? 1) with false. cbv iota.
    cbn [mbind outcome_bind].
    pose proof (IH maze k es Hl' Hi Hrc) as HIH.
    destruct (foldM (visit_step vis r c) (maze, k) l) as [[maze' k']|e|];
      [|exact HIH..].
    destruct HIH as (es' & Hi' & Hc' & Hn' & Hk').
    exists es'. split; [done|]. split; [done|]. split; [|done].
    intros m [->|Hm]%elem_of_cons; [|by apply Hn']. simpl.
    by apply (maze_inv_mono maze es maze' es' (nr, nc) Hi Hi' (proj1 Hrn)).
  - rewrite H1. cbn [mbind outcome_bind]. change (1 =? 1) with true. cbv iota.
    destruct (maze_inv_edge maze es (r, c) (nr, nc) Hi Hrc Hroom Hrn Hadj H1)
      as (mw & m1 & Hsw & Hs1 & Hi1).
    rewrite <-Hmid in Hsw. simpl in Hsw, Hs1. rewrite Hsw. cbn [mbind outcome_bind].
    assert (cell_at m1 (nr, nc) = Some 0) as Hn0.
    { apply (maze_inv_open _ _ _ Hi1 (proj1 Hrn)), opened_cons. by left. }
    assert (closed_count m1 < closed_count maze)%nat as Hlt
      by (by apply (closed_count_lt maze es m1 [((r, c), (nr, nc))] (nr, nc))).
    assert ((nr, nc) ∈ verts (((r, c), (nr, nc)) :: es)) as Hin1
      by (apply elem_of_verts_cons; by left).
    pose proof (Hvis nr nc mw k m1 (((r, c), (nr, nc)) :: es) Hs1 Hi1 Hin1 Hrn) as Hv.
    destruct (vis nr nc (mw, k)) as [[m2 k2]|e|]; cbn [mbind outcome_bind].
    + destruct Hv as (es2 & Hi2 & Hc2 & Hk2).
      assert (closed_count m2 ≤ closed_count m1)%nat as Hle2
        by (by apply (closed_count_le m1 (((r, c), (nr, nc)) :: es) m2 es2)).
      assert ((r, c) ∈ verts (es2 ++ ((r, c), (nr, nc)) :: es)) as Hin
        by (apply verts_app, elem_of_verts_cons; by right).
      pose proof (IH m2 k2 (es2 ++ ((r, c), (nr, nc)) :: es) Hl' Hi2 Hin) as HIH.
      destruct (foldM (visit_step vis r c) (m2, k2) l) as [[m3 k3]|e|].
      * destruct HIH as (es3 & Hi3 & Hc3 & Hn3 & Hk3).
        exists (es3 ++ es2 ++ [((r, c), (nr, nc))]).
        assert ((es3 ++ es2 ++ [((r, c), (nr, nc))]) ++ es =
                es3 ++ es2 ++ ((r, c), (nr, nc)) :: es) as Heq
          by (by rewrite <-!app_assoc).
        split; [by rewrite Heq|]. split; [|split].
        -- intros x. rewrite !fmap_app, !elem_of_app. simpl.
           intros [Hx|[Hx|Hx]]; [by apply Hc3| |].
           ++ apply (complete_mono m2 (es2 ++ ((r, c), (nr, nc)) :: es) m3 es3);
                [done|done|]. apply Hc2. by right.
           ++ apply list_elem_of_singleton in Hx as ->.
              apply (complete_mono m2 (es2 ++ ((r, c), (nr, nc)) :: es) m3 es3);
                [done|done|]. apply Hc2. by left.
        -- intros m [->|Hm]%elem_of_cons; [|by apply Hn3]. simpl.
           apply (maze_inv_mono m1 (((r, c), (nr, nc)) :: es) m3 (es3 ++ es2));
             [done| |apply Hrn|done].
           by rewrite <-app_assoc.
        -- rewrite !length_app. simpl. lia.
      * destruct e; try done. lia.
      * done.
    + destruct e; try done. lia.
    + done.
Qed.

(** *** [visit] *)

Lemma visit_ok rng free :
  (∀ k l, rng k l ≡ₚ l) → vis_spec rows cols (visit rng rows cols free) free.
Proof.
  intros Hperm. induction free as [|free IH];
    intros r c maze k m1 es Hset Hi Hrc Hroom; [simpl; lia|].
  cbn [visit fst snd]. rewrite Hset. cbn [mbind outcome_bind].
  pose proof (get_neighbors_ok rows cols rng free r c k Hperm Hroom) as Hg.
  destruct (get_neighbors rng rows cols free r c k) as [[nbrs k1]|e|];
    cbn [mbind outcome_bind]; [|destruct e; try done; lia|done].
  destruct Hg as (Hk & Hok & Hall).
  pose proof (visit_loop_ok _ free r c nbrs m1 k1 es IH Hroom Hok Hi Hrc) as Hl.
  destruct (foldM _ (m1, k1) nbrs) as [[m' k']|e|];
    [|destruct e; try done; lia|done].
  destruct Hl as (es' & Hi' & Hc' & Hn' & Hk').
  exists es'. split; [done|]. split; [|lia].
  intros x [->|Hx]%elem_of_cons; [|by apply Hc'].
  intros y Hy Hxy. destruct (Hall y Hy Hxy) as (dr & dc & Hin).
  apply Hn' in Hin. simpl in Hin. by destruct y.
Qed.

(** Every room is a vertex of the tree once every vertex is complete. *)
Lemma complete_all_rooms maze es :
  maze_inv maze es → (∀ x, x ∈ verts es → complete maze x) →
  ∀ y, room y → y ∈ verts es.
Proof.
  intros Hi Hc.
  assert (∀ n y, Z.to_nat (y.1 + y.2) = n → room y → y ∈ verts es) as Hind.
  { induction n as [n IH] using lt_wf_ind. intros y Hn Hy.
    destruct (decide (y = (0, 0))) as [->|Hne]; [by left|].
    assert (∃ y', room y' ∧ two_apart y' y ∧
                  (Z.to_nat (y'.1 + y'.2) < n)%nat) as (y' & Hy' & Hyy & Hlt).
    { destruct (decide (2 ≤ y.1)).
      - exists (y.1 - 2, y.2). clear -Hy Hn l. geo.
      - exists (y.1, y.2 - 2).
        assert (y.1 = 0 → y.2 = 0 → False) as Hz
          by (intros ? ?; apply Hne; by apply pair_eq).
        clear -Hy Hn n0 Hz. geo. }
    pose proof (IH _ Hlt y' eq_refl Hy') as Hin.
    eapply room_in_verts; [done|done|]. by apply (Hc y' Hin). }
  intros y. by apply (Hind _ y eq_refl).
Qed.

(** The walk leaves a spanning tree of the rooms after one shuffle for
    each, or raises [RecursionError]; the latter only when the rooms do not
    fit the recursion limit. *)
Lemma walk_ok rng k :
  (∀ k l, rng k l ≡ₚ l) →
  match walk rng rows cols k with
  | Return (maze, k') =>
      ∃ es, maze_inv maze es ∧ (∀ y, room y → y ∈ verts es) ∧
            k' = (k + length (verts es))%nat
  | Raise RecursionError => ¬ rooms_fit rows cols
  | _ => False
  end.
Proof.
  intros Hperm. destruct maze_inv_root as (m1 & Hset & Hi1).
  assert (room (0, 0)) as H00 by (by apply room_origin).
  assert ((0, 0) ∈ verts []) as Hin by (by left).
  pose proof (visit_ok rng free_frames Hperm
                0 0 (all_walls rows cols) k m1 [] Hset Hi1 Hin H00) as Hv.
  unfold walk.
  destruct (visit rng rows cols free_frames 0 0 (all_walls rows cols, k))
    as [[m k']|e|].
  - destruct Hv as (es & Hi & Hc & Hk).
    rewrite app_nil_r in Hi. exists es. split; [done|]. split.
    + by apply (complete_all_rooms m es).
    + rewrite verts_unfold. simpl. rewrite length_fmap. lia.
  - destruct e; try done. rename Hv into Hlt.
    pose proof (closed_count_bound m1 [] Hi1) as Hb.
    rewrite length_room_cells in Hb.
    unfold rooms_fit, free_frames, recursion_limit in *. intros Hfit.
    assert (0 ≤ (rows + 1) `div` 2) by (Z.div_mod_to_equations; lia).
    assert (0 ≤ (cols + 1) `div` 2) by (Z.div_mod_to_equations; lia).
    nia.
  - done.
Qed.
End WalkInv.

(** ** The search: properties of the specification *)

Lemma chain_both {A} (R : A → A → Prop) (Q : A → Prop) p :
  match head p with Some a => Q a | None => True end →
  chain (λ a b, R a b ∧ Q b) p →
  Forall Q p ∧ chain (λ a b, R a b ∧ Q a ∧ Q b) p.
Proof.
  induction p as [|a p IH]; [by split|].
  simpl head. intros Ha. rewrite !chain_cons. intros [Hab Hc].
  destruct p as [|b p]; simpl in *.
  - split; [by repeat constructor|done].
  - destruct Hab as [Hab Hb]. destruct (IH Hb Hc) as [HF HC].
    split; [by constructor|]. done.
Qed.

Lemma result_path_joins grid start goal p tr :
  open_cell grid start →
  result_ok grid start goal (Some p, tr) →
  joins grid p start goal ∧
  chain (λ a b, adjacent a b ∧ open_cell grid a ∧ open_cell grid b) p.
Proof.
  intros Hs (_ & Hh & Hl & Hc & _). simpl in *.
  destruct (chain_both adjacent (open_cell grid) p) as [HF HC]; [by rewrite Hh|done|].
  split; [|done]. split; [done|]. split; [done|]. split; [done|].
  revert Hc. apply chain_impl. tauto.
Qed.

(** C2: a returned path starts at [start], ends at [goal], and every two
    consecutive cells of it are 4-adjacent and open. *)
Theorem astar_path_valid (grid : list (list Z)) (start goal : cell)
    (p : list cell) (tr : list StepRecord) :
  open_cell grid start → open_cell grid goal →
  astar grid start goal = Return (Some p, tr) →
  head p = Some start ∧ last p = Some goal ∧
  chain (λ a b, adjacent a b ∧ open_cell grid a ∧ open_cell grid b) p.
Proof.
  intros Hs _ Ha. apply astar_ok in Ha.
  destruct (result_path_joins _ _ _ _ _ Hs Ha) as [(? & ? & _) ?]. done.
Qed.

(** C1: when some path of open cells joins [start] to [goal], the search
    returns a path, it has as many cells as the breadth-first search counts
    on a shortest path, and no path between the two cells has fewer. *)
Theorem astar_shortest (grid : list (list Z)) (start goal : cell)
    (q : list cell) :
  rectangular grid → open_cell grid start → open_cell grid goal →
  joins grid q start goal →
  ∃ p tr,
    astar grid start goal = Return (Some p, tr) ∧
    joins grid p start goal ∧
    bfs_length grid start goal = Some (length p) ∧
    ∀ q', joins grid q' start goal → (length p ≤ length q')%nat.
Proof.
  intros Hrect Hs _ Hq.
  destruct (astar_returns grid start goal (open_cell_nonempty _ _ Hs) Hrect)
    as [[[p|] tr] Ha].
  - exists p, tr. split; [done|]. pose proof (astar_ok _ _ _ _ Ha) as Hok.
    destruct (result_path_joins _ _ _ _ _ Hs Hok) as [Hj _].
    destruct Hok as (_ & _ & _ & _ & Hmin & Hlen & _). simpl in *.
    split; [done|]. split; [|done].
    apply bfs_length_spec; [done| | |done].
    + apply reach_joins. eauto.
    + intros m Hm (q' & Hq' & <-)%reach_joins. specialize (Hmin q' Hq'). lia.
  - apply astar_ok in Ha as (_ & Hno & _). by destruct (Hno q).
Qed.

(** C5, amended: the record of the first pop of a cell other than the start
    cell, and the terminal record, have f = g + h; so has every neighbour
    evaluation listed in a record. *)
Theorem astar_record_totals (grid : list (list Z)) (start goal : cell)
    (res : option (list cell)) (tr : list StepRecord) (i : nat) (r : StepRecord) :
  astar grid start goal = Return (res, tr) →
  tr !! i = Some r →
  (status r = GoalReached ∨ (node r ≠ start ∧ first_pop tr i r) →
   f r = g r + h r) ∧
  ∀ n tg hv fv, (n, tg, hv, fv) ∈ neighbors r → fv = tg + hv.
Proof.
  intros Ha Hi. apply astar_ok in Ha as [Htr _].
  destruct (Htr i r Hi) as [Hd Hf]. split; [done|]. apply Hd.
Qed.

(** *** Records and pops *)

Section Pops.
Variable grid : list (list Z).
Variables rows cols : Z.
Variables start goal : cell.

Local Abbreviation iter := (astar_iter grid rows cols start goal).

Lemma iter_shape st r :
  iter st = Return r →
  match heappop (open_set st) with
  | None => r = Done (None, steps st)
  | Some ((fc, c), rest) =>
      (c = goal ∧ ∃ p rcd, r = Done (Some p, steps st ++ [rcd]) ∧
                           status rcd = GoalReached) ∨
      (c ≠ goal ∧ ∃ st' rcd, r = Continue st' ∧ steps st' = steps st ++ [rcd] ∧
                             status rcd = Searching ∧ node rcd = c)
  end.
Proof.
  unfold astar_iter.
  destruct (heappop (open_set st)) as [[[fc c] rest]|]; [|by intros [= <-]].
  destruct (dict_get (g_score st) c) as [gc| |]; cbn [mbind outcome_bind]; [|done..].
  destruct (decide (c = goal)) as [->|Hne].
  - destruct (walk_back _ _ _ _) as [[l e]| |]; cbn [mbind outcome_bind]; [|done..].
    intros [= <-]. left. split; [done|]. eexists _, _. split; done.
  - destruct c as [x y].
    destruct (foldM _ _ _) as [es| |]; cbn [mbind outcome_bind]; [|done..].
    intros [= <-]. right. split; [done|]. eexists _, _. split; done.
Qed.

Lemma astar_loop_pops fuel st res tr :
  astar_loop grid rows cols start goal fuel st = Return (res, tr) →
  ∃ new, tr = steps st ++ new ∧
    node <$> filter (λ r, status r = Searching) new =
    filter (λ c, c ≠ goal) (popped_cells grid rows cols start goal fuel st).
Proof.
  revert st. induction fuel as [|fuel IH]; intros st; [done|]. simpl.
  destruct (iter st) as [r| |] eqn:Hit; cbn [mbind outcome_bind]; [|done..].
  pose proof (iter_shape _ _ Hit) as Hsh.
  destruct (heappop (open_set st)) as [[[fc c] rest]|].
  - destruct Hsh as [(-> & p & rcd & -> & Hst)|(Hne & st' & rcd & -> & Hsteps & Hst & Hnode)].
    + intros [= <- <-]. exists [rcd]. split; [done|].
      rewrite filter_cons_False by congruence.
      rewrite filter_cons_False by (intros Hx; by apply Hx). done.
    + intros Hloop. destruct (IH _ Hloop) as (new & -> & Hnew).
      exists (rcd :: new). rewrite Hsteps, <-app_assoc. split; [done|].
      rewrite filter_cons_True by done. rewrite filter_cons_True by done.
      rewrite fmap_cons, Hnode, Hnew. done.
  - rewrite Hsh. intros [= <- <-]. exists []. by rewrite app_nil_r.
Qed.
End Pops.

(** C4, amended: there is one [Searching] record per pop of a cell other
    than the goal, in the order of the pops, and a search that reaches the
    goal ends its trace with a [GoalReached] record without neighbours. *)
Theorem searching_records_are_pops (grid : list (list Z)) (start goal : cell)
    (res : option (list cell)) (tr : list StepRecord) :
  astar grid start goal = Return (res, tr) →
  node <$> filter (λ r, status r = Searching) tr =
    filter (λ c, c ≠ goal) (astar_pops grid start goal) ∧
  searching_count tr =
    length (filter (λ c, c ≠ goal) (astar_pops grid start goal)) ∧
  (is_Some res →
   ∃ r, last tr = Some r ∧ status r = GoalReached ∧ neighbors r = []).
Proof.
  intros Ha. pose proof (astar_ok _ _ _ _ Ha) as Hok.
  assert (node <$> filter (λ r, status r = Searching) tr =
          filter (λ c, c ≠ goal) (astar_pops grid start goal)) as Hpops.
  { unfold astar, astar_pops in *.
    destruct (getitem grid 0) as [row0| |] eqn:Hrow; [|done..].
    cbn [mbind outcome_bind] in Ha.
    destruct grid as [|row grid']; [done|].
    assert (row = row0) as -> by (by vm_compute in Hrow; injection Hrow).
    destruct (astar_loop_pops _ _ _ _ _ _ _ _ _ Ha) as (new & -> & Hnew). done. }
  split; [done|]. split.
  - unfold searching_count. by rewrite <-Hpops, length_fmap.
  - intros [p ->]. destruct Hok as (_ & _ & _ & _ & _ & _ & tr' & r & Heq & _ & ? & ? & _).
    simpl in Heq. subst tr. exists r. by rewrite last_snoc.
Qed.

(** ** The generator: properties of the specification *)

Section Generated.
Variables rows cols : Z.
Hypothesis Hrows : 0 < rows.
Hypothesis Hcols : 0 < cols.

Local Abbreviation room := (room rows cols).
Local Abbreviation maze_inv := (maze_inv rows cols).
Local Abbreviation inb := (λ x : cell, 0 ≤ x.1 < rows ∧ 0 ≤ x.2 < cols).
Local Abbreviation verts := (verts (0, 0)).

Lemma is_open_cell_at maze x : 0 ≤ x.1 → 0 ≤ x.2 →
  is_open maze x ↔ cell_at maze x = Some 0.
Proof. intros. by apply getitem2_Return_cell_at. Qed.

Lemma verts_room maze es x : maze_inv maze es → x ∈ verts es → room x.
Proof.
  intros Hi [->|Hx]%elem_of_cons.
  - by apply room_origin.
  - apply list_elem_of_fmap in Hx as ([u v] & -> & Hin).
    by destruct (mi_edges _ _ _ _ Hi _ _ Hin) as (_ & ? & _).
Qed.

(** What [generate_maze] returns after a walk that left [mw]. *)
Lemma generate_after_walk rng k mw kw es :
  walk rng rows cols k = Return (mw, kw) → maze_inv mw es →
  ∃ m, generate_maze rng rows cols k = Return (m, kw) ∧
    shape rows cols m ∧
    ∀ x, inb x →
      cell_at m x = if decide (x = (rows - 1, cols - 1)) then Some 0
                    else cell_at mw x.
Proof.
  intros Hw Hi. unfold generate_maze. rewrite Hw. cbn [mbind outcome_bind].
  destruct (setitem2_shape rows cols mw (0, 0) 0 (mi_shape _ _ _ _ Hi))
    as (m2 & Hs2 & Hsh2 & Hc2); [simpl; lia|].
  destruct (setitem2_shape rows cols m2 (rows - 1, cols - 1) 0 Hsh2)
    as (m3 & Hs3 & Hsh3 & Hc3); [simpl; lia|].
  simpl in Hs2, Hs3. rewrite Hs2. cbn [mbind outcome_bind].
  rewrite Hs3. cbn [mbind outcome_bind]. exists m3. split; [done|].
  split; [done|].
  intros x Hx. rewrite Hc3, Hc2 by lia.
  destruct (decide (x = (rows - 1, cols - 1))); [done|].
  destruct (decide (x = (0, 0))) as [->|]; [|done].
  symmetry. apply (maze_inv_open rows cols mw es (0, 0) Hi); [simpl; lia|].
  left. by left.
Qed.

Lemma forced_corner_open (m mw : list (list Z)) :
  (∀ x, inb x →
     cell_at m x = if decide (x = (rows - 1, cols - 1)) then Some 0
                   else cell_at mw x) →
  ∀ x, inb x →
    cell_at m x = Some 0 ↔ cell_at mw x = Some 0 ∨ x = (rows - 1, cols - 1).
Proof. intros Hm x Hx. rewrite (Hm x Hx). destruct (decide _); tauto. Qed.

Lemma passage_edge mw es m a b :
  maze_inv mw es →
  (∀ x, inb x →
     cell_at m x = Some 0 ↔ cell_at mw x = Some 0 ∨ x = (rows - 1, cols - 1)) →
  passage rows cols m a b ↔ edge es a b.
Proof.
  intros Hi Hm. split.
  - intros (Ha & Hb & Hab & _ & _ & Hmid).
    pose proof (mid_in_bounds rows cols a b Ha Hb Hab) as Hin.
    apply is_open_cell_at in Hmid; [|lia..].
    apply (Hm _ Hin) in Hmid as [Hmid|Hmid];
      [|exfalso; by apply (mid_ne_corner rows cols a b Ha Hb Hab)].
    apply (maze_inv_open rows cols mw es _ Hi Hin) in Hmid
      as [Hv|(u & v & Huv & Heq)].
    + apply (verts_room mw es _ Hi) in Hv.
      by destruct (mid_not_room rows cols a b Ha Hb Hab).
    + destruct (mi_edges _ _ _ _ Hi _ _ Huv) as (Hu & Hv & Htw).
      symmetry in Heq.
      destruct (mid_inj rows cols u v a b Hu Hv Htw Ha Hb Hab Heq)
        as [[-> ->]|[-> ->]]; [by left|by right].
  - assert (∀ u v, (u, v) ∈ es → passage rows cols m u v) as Hpass.
    { intros u v Huv. destruct (mi_edges _ _ _ _ Hi _ _ Huv) as (Hu & Hv & Htw).
      destruct (grown_edge_verts (0, 0) es u v (mi_grown _ _ _ _ Hi) Huv) as [Hvu Hvv].
      pose proof (mid_in_bounds rows cols u v Hu Hv Htw) as Hin.
      split; [done|]. split; [done|]. split; [done|].
      rewrite !is_open_cell_at by (apply Hu || apply Hv || lia).
      rewrite (Hm u (proj1 Hu)), (Hm v (proj1 Hv)), (Hm _ Hin).
      rewrite !(maze_inv_open rows cols mw es _ Hi) by (apply Hu || apply Hv || done).
      split; [by do 2 left|]. split; [by do 2 left|]. left. right. eauto. }
    intros [Hin|Hin].
    + by apply Hpass.
    + destruct (Hpass _ _ Hin) as (? & ? & ? & ? & ? & ?).
      split; [done|]. split; [done|]. split; [by apply two_apart_sym|].
      split; [done|]. split; [done|]. by rewrite mid_sym.
Qed.

(** The grid made of a walk that left a spanning tree is a perfect maze. *)
Lemma tree_perfect mw es m :
  maze_inv mw es → (∀ y, room y → y ∈ verts es) →
  (∀ x, inb x →
     cell_at m x = Some 0 ↔ cell_at mw x = Some 0 ∨ x = (rows - 1, cols - 1)) →
  perfect_maze rows cols m.
Proof.
  intros Hi Hall Hm.
  assert (∀ x, room x → is_open m x) as Hopen.
  { intros x Hx. apply is_open_cell_at; [apply Hx..|].
    apply (Hm x (proj1 Hx)). left.
    apply (maze_inv_open rows cols mw es x Hi (proj1 Hx)). left. by apply Hall. }
  split; [done|]. intros a b Ha Hb _ _.
  assert (∀ p, simple_path rows cols m p a b ↔ upath es p a b) as Hpath.
  { intros p. unfold simple_path, upath.
    assert (chain (passage rows cols m) p ↔ chain (edge es) p) as ->; [|done].
    split; apply chain_impl; intros x y; by apply (passage_edge mw es m). }
  destruct (grown_unique_path (0, 0) es (mi_grown _ _ _ _ Hi) a b
              (Hall a Ha) (Hall b Hb)) as (p & Hp & Huniq).
  exists p. split; [by apply Hpath|]. intros p' Hp'. by apply Huniq, Hpath.
Qed.

(** [generate_maze] builds its grid from a walk that left a spanning tree
    of the rooms after one shuffle for each room, or raises
    [RecursionError]; the latter only when the rooms do not fit the
    recursion limit. *)
Lemma generated_spec rng k :
  (∀ k l, rng k l ≡ₚ l) →
  match generate_maze rng rows cols k with
  | Return (m, kw) =>
      ∃ mw es,
        walk rng rows cols k = Return (mw, kw) ∧
        maze_inv mw es ∧ (∀ y, room y → y ∈ verts es) ∧
        kw = (k + length (verts es))%nat ∧
        shape rows cols m ∧
        ∀ x, inb x →
          cell_at m x = if decide (x = (rows - 1, cols - 1)) then Some 0
                        else cell_at mw x
  | Raise RecursionError => ¬ rooms_fit rows cols
  | _ => False
  end.
Proof.
  intros Hperm. pose proof (walk_ok rows cols Hrows Hcols rng k Hperm) as Hw.
  destruct (walk rng rows cols k) as [[mw kw]|e|] eqn:Hwalk.
  - destruct Hw as (es & Hi & Hall & Hk).
    destruct (generate_after_walk rng k mw kw es Hwalk Hi) as (m & -> & Hsh & Hm).
    by exists mw, es.
  - unfold generate_maze. rewrite Hwalk. done.
  - done.
Qed.

Lemma generated_returns rng k :
  (∀ k l, rng k l ≡ₚ l) → rooms_fit rows cols →
  ∃ m kw, generate_maze rng rows cols k = Return (m, kw).
Proof.
  intros Hperm Hfit. pose proof (generated_spec rng k Hperm) as Hg.
  destruct (generate_maze rng rows cols k) as [[m kw]|e|]; [by exists m, kw| |done].
  by destruct e.
Qed.

Lemma generated_facts rng k m kw :
  (∀ k l, rng k l ≡ₚ l) → generate_maze rng rows cols k = Return (m, kw) →
  ∃ mw es,
    walk rng rows cols k = Return (mw, kw) ∧
    maze_inv mw es ∧ (∀ y, room y → y ∈ verts es) ∧
    kw = (k + length (verts es))%nat ∧
    shape rows cols m ∧
    ∀ x, inb x →
      cell_at m x = if decide (x = (rows - 1, cols - 1)) then Some 0
                    else cell_at mw x.
Proof.
  intros Hperm Hg. pose proof (generated_spec rng k Hperm) as Hs.
  by rewrite Hg in Hs.
Qed.
End Generated.

(** C6: for positive dimensions and any shuffle outcomes, every grid
    [generate_maze] returns has every room open and any two open rooms
    joined by exactly one simple path of passages; and it returns one
    whenever the rooms fit the recursion limit of line 7. *)
Theorem generate_maze_perfect (rng : nat → list nbr → list nbr)
    (rows cols : Z) (k : nat) :
  (∀ k l, rng k l ≡ₚ l) → 0 < rows → 0 < cols →
  (rooms_fit rows cols →
   ∃ maze k', generate_maze rng rows cols k = Return (maze, k')) ∧
  (∀ maze k',
     generate_maze rng rows cols k = Return (maze, k') →
     perfect_maze rows cols maze).
Proof.
  intros Hperm Hrows Hcols. split.
  - by apply generated_returns.
  - intros m kw Hg.
    destruct (generated_facts rows cols Hrows Hcols rng k m kw Hperm Hg)
      as (mw & es & _ & Hi & Hall & _ & _ & Hm).
    apply (tree_perfect rows cols Hrows Hcols mw es m); [done|done|].
    by apply forced_corner_open.
Qed.

(** C9, amended: the open cells of a grid [generate_maze] returns are
    those the walk opened together with the corner (rows-1, cols-1), which
    lines 39-40 force open; and it returns one whenever the rooms fit the
    recursion limit of line 7. *)
Theorem generate_maze_opens_corner (rng : nat → list nbr → list nbr)
    (rows cols : Z) (k : nat) :
  (∀ k l, rng k l ≡ₚ l) → 0 < rows → 0 < cols →
  (rooms_fit rows cols →
   ∃ m kw, generate_maze rng rows cols k = Return (m, kw)) ∧
  (∀ m kw,
     generate_maze rng rows cols k = Return (m, kw) →
     ∃ mw,
       walk rng rows cols k = Return (mw, kw) ∧
       is_open m (rows - 1, cols - 1) ∧
       ∀ x, 0 ≤ x.1 < rows ∧ 0 ≤ x.2 < cols →
         is_open m x ↔ is_open mw x ∨ x = (rows - 1, cols - 1)).
Proof.
  intros Hperm Hrows Hcols. split.
  - by apply generated_returns.
  - intros m kw Hg.
    destruct (generated_facts rows cols Hrows Hcols rng k m kw Hperm Hg)
      as (mw & es & Hw & Hi & Hall & _ & _ & Hm).
    exists mw. split; [done|].
    assert (∀ x, 0 ≤ x.1 < rows ∧ 0 ≤ x.2 < cols →
              is_open m x ↔ is_open mw x ∨ x = (rows - 1, cols - 1)) as Hop.
    { intros x Hx. rewrite !is_open_cell_at by lia.
      by apply (forced_corner_open rows cols m mw). }
    split; [|done]. apply Hop; [simpl; lia|]. by right.
Qed.

(** ** Determinism *)

Section TwoRuns.
Variables rng1 rng2 : nat → list nbr → list nbr.
Variables rows cols : Z.
Variables k1 k2 : nat.
Hypothesis Hagree : ∀ i l, rng1 (k1 + i) l = rng2 (k2 + i) l.

Local Abbreviation sim := (same_run k1 k2).

Lemma visit_loop_sim vis1 vis2 r c :
  (∀ nr nc m d, sim (vis1 nr nc (m, (k1 + d)%nat)) (vis2 nr nc (m, (k2 + d)%nat))) →
  ∀ l m d,
    sim (foldM (visit_step vis1 r c) (m, (k1 + d)%nat) l)
        (foldM (visit_step vis2 r c) (m, (k2 + d)%nat) l).
Proof.
  intros Hvis. induction l as [|[[[nr nc] dr] dc] l IH]; intros m d.
  { simpl. split; [done|]. by exists d. }
  cbn [foldM]. rewrite !visit_step_eq.
  destruct (getitem2 m nr nc) as [v| |]; cbn [mbind outcome_bind]; [|done..].
  destruct (v =? 1); cbn [mbind outcome_bind]; [|apply IH].
  destruct (setitem2 m (r + dr) (c + dc) 0) as [mw| |]; cbn [mbind outcome_bind]; [|done..].
  specialize (Hvis nr nc mw d).
  destruct (vis1 nr nc (mw, (k1 + d)%nat)) as [[m1 j1]| |],
           (vis2 nr nc (mw, (k2 + d)%nat)) as [[m2 j2]| |];
    cbn [mbind outcome_bind]; try done.
  destruct Hvis as (-> & d' & -> & ->). apply IH.
Qed.

Lemma visit_sim fuel r c m d :
  sim (visit rng1 rows cols fuel r c (m, (k1 + d)%nat))
      (visit rng2 rows cols fuel r c (m, (k2 + d)%nat)).
Proof.
  revert r c m d. induction fuel as [|fuel IH]; intros r c m d; [done|].
  cbn [visit fst snd].
  destruct (setitem2 m r c 0) as [m1| |]; cbn [mbind outcome_bind]; [|done..].
  unfold get_neighbors. rewrite Hagree.
  match goal with |- context [(?a <=? fuel)%nat] => destruct (a <=? fuel)%nat end;
    cbn [mbind outcome_bind]; [|done].
  replace (S (k1 + d)) with (k1 + S d)%nat by lia.
  replace (S (k2 + d)) with (k2 + S d)%nat by lia.
  by apply visit_loop_sim.
Qed.

Lemma generate_maze_sim :
  sim (generate_maze rng1 rows cols k1) (generate_maze rng2 rows cols k2).
Proof.
  unfold generate_maze, walk.
  pose proof (visit_sim free_frames 0 0 (all_walls rows cols) 0) as Hv.
  rewrite !Nat.add_0_r in Hv.
  destruct (visit rng1 _ _ _ _ _ _) as [[m1 j1]| |],
           (visit rng2 _ _ _ _ _ _) as [[m2 j2]| |];
    cbn [mbind outcome_bind]; try done.
  destruct Hv as (-> & d & -> & ->).
  destruct (setitem2 m2 0 0 0) as [m3| |]; cbn [mbind outcome_bind]; [|done..].
  destruct (setitem2 m3 _ _ 0) as [m4| |]; cbn [mbind outcome_bind]; [|done..].
  split; [done|]. by exists d.
Qed.
End TwoRuns.

(** C8, amended: [generate_maze] takes no seed; its grid is a function of
    [rows], [cols] and the shuffle outcomes it draws. Two calls whose
    shuffles give the same outcomes return identical grids. *)
Theorem generate_maze_deterministic (rng1 rng2 : nat → list nbr → list nbr)
    (rows cols : Z) (k1 k2 : nat) :
  (∀ i l, rng1 (k1 + i)%nat l = rng2 (k2 + i)%nat l) →
  grid_only (generate_maze rng1 rows cols k1) =
  grid_only (generate_maze rng2 rows cols k2).
Proof.
  intros Hagree.
  pose proof (generate_maze_sim rng1 rng2 rows cols k1 k2 Hagree) as Hs.
  unfold grid_only.
  destruct (generate_maze rng1 rows cols k1) as [[m1 j1]| |],
           (generate_maze rng2 rows cols k2) as [[m2 j2]| |];
    cbn [mbind outcome_bind]; try done.
  - by destruct Hs as [-> _].
  - simpl in Hs. by subst.
Qed.

(** ** Invalid inputs *)

Lemma generate_maze_bad_dims rng rows cols k :
  rows ≤ 0 ∨ cols ≤ 0 → generate_maze rng rows cols k = Raise IndexError.
Proof.
  intros Hbad. unfold generate_maze, walk.
  assert (∃ f, free_frames = S f) as [f ->] by (by exists 4996%nat).
  cbn [visit fst snd]. unfold setitem2, all_walls.
  destruct (Z.to_nat rows) as [|n] eqn:Hr; [done|].
  assert (Z.to_nat cols = 0%nat) as -> by lia.
  rewrite getitem_lookup by lia. done.
Qed.

(** C7, amended: neither operation validates its input. With a
    non-positive dimension [generate_maze] raises [IndexError] at its first
    cell write and returns no grid; [astar] on a non-empty rectangular grid
    returns a result whatever [start] and [goal] are. *)
Theorem no_input_validation (rng : nat → list nbr → list nbr)
    (rows cols : Z) (k : nat) (grid : list (list Z)) (start goal : cell) :
  rows ≤ 0 ∨ cols ≤ 0 → grid ≠ [] → rectangular grid →
  generate_maze rng rows cols k = Raise IndexError ∧
  ∃ res, astar grid start goal = Return res.
Proof.
  intros Hbad Hne Hrect. split.
  - by apply generate_maze_bad_dims.
  - by apply astar_returns.
Qed.

(** ** Evaluations on concrete inputs *)

(** C10: with [start = goal] the search returns the one-cell path and a trace
    of one record, tagged [GoalReached], with no neighbours and g = h = f = 0. *)
Theorem astar_start_is_goal (grid : list (list Z)) (s : cell) :
  open_cell grid s →
  astar grid s s =
    Return (Some [s],
            [ {| node := s; g := 0; h := 0; f := 0; neighbors := [];
                 status := GoalReached |} ]).
Proof.
  intros Ho. destruct (getitem_0_nonempty grid (open_cell_nonempty _ _ Ho))
    as (row0 & _ & Hrow0).
  unfold astar. rewrite Hrow0. simpl.
  unfold astar_iter, astar_init. simpl.
  unfold dict_get. rewrite lookup_singleton_eq. simpl.
  rewrite decide_True by done. simpl.
  rewrite lookup_empty. simpl. by rewrite heuristic_refl.
Qed.

(** Start equal to goal on a 2x2 grid. *)
Lemma astar_start_is_goal_witness :
  open_cell [[1; 0]; [0; 0]] (1, 0) ∧
  astar [[1; 0]; [0; 0]] (1, 0) (1, 0) =
    Return (Some [(1, 0)],
            [ {| node := (1, 0); g := 0; h := 0; f := 0; neighbors := [];
                 status := GoalReached |} ]).
Proof.
  assert (H : open_cell [[1; 0]; [0; 0]] (1, 0)).
  { split; [unfold in_bounds, nrows, ncols; simpl; lia | reflexivity]. }
  split; [exact H | exact (astar_start_is_goal _ _ H)].
Defined.

(** C3: on the grid [[0, 0]] with start (0,0) and goal (0,1) the goal is
    popped second; the terminal record carries the start cell in its [node]
    field, not the goal cell that was popped. *)
Theorem astar_goal_record_node :
  ∃ tr r,
    astar [[0; 0]] (0, 0) (0, 1) = Return (Some [(0, 0); (0, 1)], tr) ∧
    length tr = 2%nat ∧ last tr = Some r ∧
    status r = GoalReached ∧ neighbors r = [] ∧
    node r = (0, 0) ∧ node r ≠ (0, 1).
Proof.
  eexists _, _. split; [vm_compute; reflexivity|].
  repeat split; done.
Qed.

(** C4, as stated, fails on [stale_grid]: (4,1) is popped twice, so there
    are nine [Searching] records for eight distinct popped cells. *)
Lemma searching_count_not_distinct_pops :
  ∃ tr,
    open_cell stale_grid (5, 3) ∧ open_cell stale_grid (0, 1) ∧
    astar stale_grid (5, 3) (0, 1) = Return (None, tr) ∧
    searching_count tr = 9%nat ∧
    length (remove_dups (astar_pops stale_grid (5, 3) (0, 1))) = 8%nat ∧
    searching_count tr ≠
      length (remove_dups (astar_pops stale_grid (5, 3) (0, 1))).
Proof.
  eexists. split; [|split; [|split; [vm_compute; reflexivity|]]].
  - split; [unfold in_bounds, nrows, ncols; simpl; lia | reflexivity].
  - split; [unfold in_bounds, nrows, ncols; simpl; lia | reflexivity].
  - split; [vm_compute; reflexivity|]. split; [vm_compute; reflexivity|].
    vm_compute. discriminate.
Qed.

(** C5, as stated, fails on [stale_grid]: the ninth record, for the second
    pop of (4,1), has g = 3, h = 4 and f = 9. *)
Lemma stale_record_f_not_g_plus_h :
  ∃ tr r,
    open_cell stale_grid (5, 3) ∧ open_cell stale_grid (0, 1) ∧
    astar stale_grid (5, 3) (0, 1) = Return (None, tr) ∧
    tr !! 8%nat = Some r ∧ node r = (4, 1) ∧
    g r = 3 ∧ h r = 4 ∧ f r = 9 ∧ f r ≠ g r + h r.
Proof.
  eexists _, _. split; [|split; [|split; [vm_compute; reflexivity|]]].
  - split; [unfold in_bounds, nrows, ncols; simpl; lia | reflexivity].
  - split; [unfold in_bounds, nrows, ncols; simpl; lia | reflexivity].
  - repeat split; done.
Qed.

(** C7, as stated, fails: with the start cell on a wall [astar] raises
    nothing and returns a path. *)
Lemma astar_wall_start_returns :
  ¬ open_cell [[1; 0]] (0, 0) ∧
  (∃ tr, astar [[1; 0]] (0, 0) (0, 1) = Return (Some [(0, 0); (0, 1)], tr)) ∧
  ∀ e, astar [[1; 0]] (0, 0) (0, 1) ≠ Raise e.
Proof.
  split; [|split].
  - intros [_ H]. vm_compute in H. discriminate.
  - eexists. vm_compute. reflexivity.
  - intros e. vm_compute. discriminate.
Qed.

(** C8, as stated, fails: two calls in a row with the same dimensions
    return different grids. *)
Lemma generate_maze_twice_differs :
  ∃ m1 k1 m2 k2,
    generate_maze rng_keep_then_rev 3 3 0 = Return (m1, k1) ∧
    generate_maze rng_keep_then_rev 3 3 k1 = Return (m2, k2) ∧
    m1 ≠ m2.
Proof.
  eexists _, _, _, _. split; [vm_compute; reflexivity|].
  split; [vm_compute; reflexivity|]. discriminate.
Qed.

(** C9, as stated, fails: on a 2x2 grid the walk leaves (1,1) a wall and
    [generate_maze] returns it open. *)
Lemma generate_maze_forces_corner :
  ∃ mw kw m k,
    walk (λ _ l, l) 2 2 0 = Return (mw, kw) ∧
    generate_maze (λ _ l, l) 2 2 0 = Return (m, k) ∧
    ¬ is_open mw (1, 1) ∧ is_open m (1, 1).
Proof.
  eexists _, _, _, _. split; [vm_compute; reflexivity|].
  split; [vm_compute; reflexivity|]. split; [|reflexivity].
  unfold is_open. vm_compute. discriminate.
Qed.

(** A corridor of 5001 rooms does not fit the recursion limit of line 7:
    here with shuffles that keep the order, the walk raises
    [RecursionError] and [generate_maze] returns no grid. *)
Lemma generate_maze_long_corridor :
  generate_maze (λ _ l, l) 1 10001 0 = Raise RecursionError.
Proof. vm_compute. reflexivity. Qed.

(** ** The theorems at concrete inputs *)

(** Optimality on a 2x2 grid with one wall. *)
Lemma astar_shortest_witness :
  ∃ p tr,
    astar [[0; 0]; [1; 0]] (0, 0) (1, 1) = Return (Some p, tr) ∧
    joins [[0; 0]; [1; 0]] p (0, 0) (1, 1) ∧
    bfs_length [[0; 0]; [1; 0]] (0, 0) (1, 1) = Some (length p) ∧
    ∀ q', joins [[0; 0]; [1; 0]] q' (0, 0) (1, 1) → (length p ≤ length q')%nat.
Proof.
  assert (∀ c, c ∈ [(0, 0); (0, 1); (1, 1)] → open_cell [[0; 0]; [1; 0]] c) as Ho.
  { intros c Hc. rewrite !elem_of_cons, elem_of_nil in Hc.
    destruct Hc as [-> | [-> | [-> | []]]];
      (split; [unfold in_bounds, nrows, ncols; simpl; lia | reflexivity]). }
  apply (astar_shortest [[0; 0]; [1; 0]] (0, 0) (1, 1) [(0, 0); (0, 1); (1, 1)]).
  - repeat constructor.
  - apply Ho. rewrite !elem_of_cons. tauto.
  - apply Ho. rewrite !elem_of_cons. tauto.
  - split; [reflexivity|]. split; [reflexivity|]. split.
    + apply Forall_forall, Ho.
    + simpl. unfold adjacent. simpl. lia.
Defined.

(** Path validity on the same grid. *)
Lemma astar_path_valid_witness :
  ∃ tr,
    astar [[0; 0]; [1; 0]] (0, 0) (1, 1) = Return (Some [(0, 0); (0, 1); (1, 1)], tr) ∧
    head [(0, 0); (0, 1); (1, 1)] = Some (0, 0) ∧
    last [(0, 0); (0, 1); (1, 1)] = Some (1, 1) ∧
    chain (λ a b, adjacent a b ∧ open_cell [[0; 0]; [1; 0]] a ∧
                  open_cell [[0; 0]; [1; 0]] b) [(0, 0); (0, 1); (1, 1)].
Proof.
  eexists. split; [vm_compute; reflexivity|].
  eapply (astar_path_valid [[0; 0]; [1; 0]] (0, 0) (1, 1)).
  - split; [unfold in_bounds, nrows, ncols; simpl; lia | reflexivity].
  - split; [unfold in_bounds, nrows, ncols; simpl; lia | reflexivity].
  - vm_compute. reflexivity.
Defined.

(** Records and pops on [stale_grid]. *)
Lemma searching_records_are_pops_witness :
  ∃ tr,
    astar stale_grid (5, 3) (0, 1) = Return (None, tr) ∧
    node <$> filter (λ r, status r = Searching) tr =
      filter (λ c, c ≠ (0, 1)) (astar_pops stale_grid (5, 3) (0, 1)) ∧
    searching_count tr =
      length (filter (λ c, c ≠ (0, 1)) (astar_pops stale_grid (5, 3) (0, 1))) ∧
    (is_Some (@None (list cell)) →
     ∃ r, last tr = Some r ∧ status r = GoalReached ∧ neighbors r = []).
Proof.
  eexists. split; [vm_compute; reflexivity|].
  apply (searching_records_are_pops stale_grid (5, 3) (0, 1)).
  vm_compute. reflexivity.
Defined.

(** The totals of the second record on [stale_grid]. *)
Lemma astar_record_totals_witness :
  ∃ tr r,
    astar stale_grid (5, 3) (0, 1) = Return (None, tr) ∧
    tr !! 1%nat = Some r ∧ node r = (4, 3) ∧
    (status r = GoalReached ∨ (node r ≠ (5, 3) ∧ first_pop tr 1 r) →
     f r = g r + h r) ∧
    ∀ n tg hv fv, (n, tg, hv, fv) ∈ neighbors r → fv = tg + hv.
Proof.
  eexists _, _. split; [vm_compute; reflexivity|].
  split; [reflexivity|]. split; [reflexivity|].
  eapply (astar_record_totals stale_grid (5, 3) (0, 1) None).
  - vm_compute. reflexivity.
  - reflexivity.
Defined.

(** A perfect 3x3 maze, with shuffles that keep the order. *)
Lemma generate_maze_perfect_witness :
  ∃ maze k',
    generate_maze (λ _ l, l) 3 3 0 = Return (maze, k') ∧
    perfect_maze 3 3 maze.
Proof.
  destruct (generate_maze_perfect (λ _ l, l) 3 3 0) as [Hret Hperfect].
  - intros k l. reflexivity.
  - lia.
  - lia.
  - destruct Hret as (maze & k' & Hg).
    + unfold rooms_fit, recursion_limit. vm_compute. discriminate.
    + exists maze, k'. split; [exact Hg|exact (Hperfect maze k' Hg)].
Defined.

(** Zero rows for the generator; a start cell out of bounds for the search. *)
Lemma no_input_validation_witness :
  generate_maze (λ _ l, l) 0 5 0 = Raise IndexError ∧
  ∃ res, astar [[1; 0]] (0, -1) (0, 1) = Return res.
Proof.
  apply (no_input_validation (λ _ l, l) 0 5 0 [[1; 0]] (0, -1) (0, 1)).
  - left. lia.
  - discriminate.
  - repeat constructor.
Defined.

(** A run started after four shuffles of [rng_keep_then_rev] against a
    run whose shuffles all reverse. *)
Lemma generate_maze_deterministic_witness :
  grid_only (generate_maze rng_keep_then_rev 3 3 4) =
  grid_only (generate_maze (λ _ l, rev l) 3 3 0).
Proof.
  apply (generate_maze_deterministic rng_keep_then_rev (λ _ l, rev l) 3 3 4 0).
  intros i l. unfold rng_keep_then_rev.
  destruct (Nat.ltb_spec (4 + i) 4); [lia|reflexivity].
Defined.

(** The forced corner of a 2x2 maze. *)
Lemma generate_maze_opens_corner_witness :
  ∃ mw kw m,
    walk (λ _ l, l) 2 2 0 = Return (mw, kw) ∧
    generate_maze (λ _ l, l) 2 2 0 = Return (m, kw) ∧
    is_open m (2 - 1, 2 - 1) ∧
    ∀ x, 0 ≤ x.1 < 2 ∧ 0 ≤ x.2 < 2 →
      is_open m x ↔ is_open mw x ∨ x = (2 - 1, 2 - 1).
Proof.
  destruct (generate_maze_opens_corner (λ _ l, l) 2 2 0) as [Hret Hopen].
  - intros k l. reflexivity.
  - lia.
  - lia.
  - destruct Hret as (m & kw & Hg).
    + unfold rooms_fit, recursion_limit. vm_compute. discriminate.
    + destruct (Hopen m kw Hg) as (mw & Hw & Hc & Hx).
      exists mw, kw, m. split; [exact Hw|]. split; [exact Hg|].
      split; [exact Hc|exact Hx].
Defined.

(** ** Further properties of the search *)

(** *** The heuristic *)

Lemma heuristic_sym a b : heuristic a b = heuristic b a.
Proof. unfold heuristic. lia. Qed.

Lemma heuristic_triangle a b c : heuristic a c ≤ heuristic a b + heuristic b c.
Proof. unfold heuristic. lia. Qed.

Lemma heuristic_zero a b : heuristic a b = 0 ↔ a = b.
Proof.
  unfold heuristic. split.
  - intros H. destruct a, b; simpl in *. f_equal; lia.
  - intros ->. lia.
Qed.

Lemma heuristic_path (q : list cell) a b t :
  head q = Some a → last q = Some b → chain adjacent q →
  heuristic a t ≤ Z.of_nat (length q) - 1 + heuristic b t.
Proof.
  revert a. induction q as [|x q IH]; intros a; [done|].
  intros [= ->]. destruct q as [|c q'].
  - intros [= ->] _. simpl. lia.
  - intros Hl [Hac Hc]. rewrite last_cons_cons in Hl.
    specialize (IH c eq_refl Hl Hc).
    pose proof (heuristic_adjacent a c t Hac). simpl length in *. lia.
Qed.

Section Records.
Variable grid : list (list Z).
Variables start goal : cell.

Local Abbreviation core_inv := (core_inv grid start goal).
Local Abbreviation front_inv := (front_inv grid start goal).
Local Abbreviation astar_inv := (astar_inv grid start goal).
Local Abbreviation iter := (astar_iter grid (nrows grid) (ncols grid) start goal).
Local Abbreviation loop := (astar_loop grid (nrows grid) (ncols grid) start goal).

(** The cost of a cell when it is popped is at most the number of steps of
    any path to it. *)
Lemma pop_cost_optimal H CF G fc c gc rest P :
  core_inv H CF G → front_inv [] P H G →
  heappop H = Some ((fc, c), rest) →
  G !! c = Some gc →
  ∀ q v gv, head q = Some v → last q = Some c →
    Forall (open_cell grid) q → chain adjacent q →
    G !! v = Some gv → gc ≤ gv + Z.of_nat (length q) - 1.
Proof.
  intros Hc Hf Hpop Hgc.
  destruct (heappop_Some _ _ _ Hpop) as [Hperm Hmin].
  assert ((fc, c) ∈ H) as Hin by (rewrite Hperm; left).
  assert (gc = 0 ∨ gc + heuristic c goal ≤ fc) as Hgf.
  { destruct (core_heap _ _ _ _ _ _ Hc _ _ Hin) as [[Hs ->]|(g' & Hg' & Hle)].
    - rewrite Hs, (core_start_g _ _ _ _ _ _ Hc) in Hgc. left. by injection Hgc as <-.
    - right. assert (g' = gc) by congruence. lia. }
  induction q as [|a q IH]; intros v gv; [done|].
  intros [= ->] Hlast Hopen Hchain Hgv.
  destruct (core_g _ _ _ _ _ _ Hc _ _ Hgv) as [[Hgv0 _] _].
  destruct q as [|b q'].
  { injection Hlast as ->. assert (gv = gc) by congruence. simpl. lia. }
  pose proof (heuristic_path (v :: b :: q') v c goal eq_refl Hlast Hchain) as Hadm.
  pose proof (heuristic_nonneg c goal) as Hh0.
  rewrite last_cons_cons in Hlast. destruct Hchain as [Hab Hchain].
  apply Forall_cons in Hopen as [_ Hopen].
  destruct (front_closed _ _ _ _ _ _ _ Hf _ _ Hgv) as [Hx|[[-> Hseed]|[Hlive|Hcl]]].
  - by apply elem_of_nil in Hx.
  - apply Hmin, entry_leb_fst in Hseed. simpl in Hseed. simpl length in *. lia.
  - apply Hmin, entry_leb_fst in Hlive. simpl in Hlive. simpl length in *. lia.
  - destruct (Hcl b Hab) as (gb & Hgb & Hle).
    { by apply Forall_cons in Hopen as [? _]. }
    specialize (IH b gb eq_refl Hlast Hopen Hchain Hgb).
    simpl length in *. lia.
Qed.

(** Following [came_from] back from a cell gives a path from [start] with
    at most as many steps as the cell's cost, without repeated cells. *)
Lemma came_from_path H CF G :
  core_inv H CF G → open_cell grid start →
  ∀ (n : nat) c gc, G !! c = Some gc → gc < Z.of_nat n →
    ∃ q, joins grid q start c ∧ Z.of_nat (length q) ≤ gc + 1 ∧ NoDup q ∧
         Forall (λ x, ∃ gx, G !! x = Some gx ∧ gx ≤ gc) q.
Proof.
  intros Hc Hstart. induction n as [|n IH]; intros c gc Hgc Hlt.
  { destruct (core_g _ _ _ _ _ _ Hc _ _ Hgc) as [[? _] _]. lia. }
  destruct (core_g _ _ _ _ _ _ Hc _ _ Hgc) as [[Hg0 _] Hcase].
  destruct (CF !! c) as [p|] eqn:Hcf.
  - destruct (core_cf _ _ _ _ _ _ Hc _ _ Hcf) as (Ho & Hadj & gc' & gp & Hgc' & Hgp & Hle).
    assert (gc' = gc) as -> by congruence.
    destruct (IH p gp Hgp) as (q & (Hh & Hl & Hop & Hch) & Hlen & Hnd & Hall); [lia|].
    exists (q ++ [c]). split; [|split; [|split]].
    + split; [by destruct q|]. split; [apply last_snoc|]. split.
      * apply Forall_app. split; [done|]. by constructor.
      * apply chain_snoc. split; [done|]. by rewrite Hl.
    + rewrite length_app. simpl. lia.
    + apply NoDup_app. split; [done|]. split; [|apply NoDup_singleton].
      intros x Hx ->%list_elem_of_singleton.
      rewrite Forall_forall in Hall. destruct (Hall _ Hx) as (gx & Hgx & ?).
      assert (gx = gc) by congruence. lia.
    + apply Forall_app. split.
      * eapply Forall_impl; [exact Hall|]. intros x (gx & ? & ?). exists gx.
        split; [done|lia].
      * constructor; [|done]. exists gc. split; [done|lia].
  - destruct Hcase as [->|[? ?]]; [|congruence].
    exists [start]. split; [|split; [|split]].
    + split; [done|]. split; [done|]. split; [by constructor|done].
    + simpl. lia.
    + apply NoDup_singleton.
    + constructor; [|done]. exists gc. split; [done|lia].
Qed.

(** The cost of a popped cell is the least number of steps to it. *)
Lemma pop_cost_shortest H CF G fc c gc rest P :
  core_inv H CF G → front_inv [] P H G → open_cell grid start →
  heappop H = Some ((fc, c), rest) → G !! c = Some gc →
  shortest_steps grid start c gc.
Proof.
  intros Hc Hf Hstart Hpop Hgc.
  assert (∀ q, joins grid q start c → gc + 1 ≤ Z.of_nat (length q)) as Hmin.
  { intros q (Hh & Hl & Ho & Hch).
    pose proof (pop_cost_optimal _ _ _ _ _ _ _ _ Hc Hf Hpop Hgc q start 0
                  Hh Hl Ho Hch (core_start_g _ _ _ _ _ _ Hc)). lia. }
  split; [|done].
  destruct (came_from_path _ _ _ Hc Hstart (S (Z.to_nat gc)) c gc Hgc)
    as (q & Hq & Hlen & _); [lia|].
  exists q. split; [done|]. specialize (Hmin q Hq). lia.
Qed.

(** The record a turn of the loop appends. *)
Lemma iter_record st out :
  astar_inv st → iter st = Return out →
  match heappop (open_set st) with
  | None => out = Done (None, steps st)
  | Some ((fc, c), rest) =>
      ∃ gc r,
        g_score st !! c = Some gc ∧
        g r = gc ∧ h r = heuristic c goal ∧ f r = fc ∧
        popped_cell goal r = c ∧
        ((c ≠ goal ∧ ∃ st', out = Continue st' ∧ steps st' = steps st ++ [r]) ∨
         (c = goal ∧ ∃ p, out = Done (Some p, steps st ++ [r])))
  end.
Proof.
  intros Hinv. pose proof Hinv as (Hc & Hf & Htr). unfold astar_iter.
  destruct (heappop (open_set st)) as [[[fc c] rest]|] eqn:Hpop; [|by intros [= <-]].
  destruct (popped_in_dom _ _ _ _ _ _ _ _ _ Hc Hpop) as [gcur Hg].
  unfold dict_get. rewrite Hg. cbn [mbind outcome_bind].
  destruct (decide (c = goal)) as [->|Hng].
  - destruct (iter_done_goal _ _ _ _ _ _ _ Hinv Hpop Hg) as (l & -> & Hok).
    cbn [mbind outcome_bind app]. intros [= <-].
    exists gcur, {| node := start; g := gcur; h := heuristic goal goal; f := fc;
                    neighbors := []; status := GoalReached |}.
    split; [done|]. do 4 (split; [done|]). right. split; [done|]. eauto.
  - destruct c as [x y].
    destruct (foldM _ _ _) as [es| |] eqn:Hfold; cbn [mbind outcome_bind]; [|done..].
    intros [= <-].
    exists gcur, {| node := (x, y); g := gcur; h := heuristic (x, y) goal; f := fc;
                    neighbors := e_details es; status := Searching |}.
    split; [done|]. do 4 (split; [done|]). left. split; [done|]. eauto.
Qed.

(** A property of records that holds at every pop holds of every record
    of the trace. *)
Lemma astar_loop_Forall (R : StepRecord → Prop) fuel st res :
  (∀ st fc c rest gc r,
     astar_inv st → heappop (open_set st) = Some ((fc, c), rest) →
     g_score st !! c = Some gc →
     g r = gc → h r = heuristic c goal → f r = fc → popped_cell goal r = c →
     R r) →
  astar_inv st → Forall R (steps st) →
  loop fuel st = Return res → Forall R res.2.
Proof.
  intros HR. revert st. induction fuel as [|fuel IH]; intros st Hinv Hall; [done|].
  simpl. destruct (iter st) as [out| |] eqn:Hit; cbn [mbind outcome_bind]; [|done..].
  pose proof (iter_record _ _ Hinv Hit) as Hrec.
  pose proof (iter_inv grid start goal _ _ Hinv Hit) as Hinv'.
  destruct (heappop (open_set st)) as [[[fc c] rest]|] eqn:Hpop.
  - destruct Hrec as (gc & r & Hgc & Hg & Hh & Hf & Hpc & Hcase).
    assert (R r) as Hr by (by eapply HR).
    destruct Hcase as [(Hne & st' & -> & Hsteps)|(-> & p & ->)].
    + apply IH; [done|]. rewrite Hsteps. apply Forall_app. split; [done|].
      by constructor.
    + intros [= <-]. simpl. apply Forall_app. split; [done|]. by constructor.
  - subst out. by intros [= <-].
Qed.

Lemma record_priority_pop st fc c rest gc r :
  astar_inv st →
  heappop (open_set st) = Some ((fc, c), rest) →
  g_score st !! c = Some gc →
  g r = gc → h r = heuristic c goal → f r = fc → popped_cell goal r = c →
  h r = heuristic (popped_cell goal r) goal ∧
  ((popped_cell goal r = start ∧ f r = 0) ∨ g r + h r ≤ f r).
Proof.
  intros (Hc & Hf & _) Hpop Hgc Hg Hh Hfr Hpc.
  rewrite Hpc, Hg, Hh, Hfr. split; [done|].
  assert ((fc, c) ∈ open_set st) as Hin
    by (apply (heappop_elem _ _ _ _ Hpop); by left).
  destruct (core_heap _ _ _ _ _ _ Hc _ _ Hin) as [[-> ->]|(g' & Hg' & Hle)];
    [by left|right].
  assert (g' = gc) by congruence. lia.
Qed.

Lemma record_cost_pop st fc c rest gc r :
  open_cell grid start → astar_inv st →
  heappop (open_set st) = Some ((fc, c), rest) →
  g_score st !! c = Some gc →
  g r = gc → h r = heuristic c goal → f r = fc → popped_cell goal r = c →
  shortest_steps grid start (popped_cell goal r) (g r).
Proof.
  intros Hstart (Hc & Hf & _) Hpop Hgc Hg Hh Hfr Hpc.
  rewrite Hpc, Hg. by eapply pop_cost_shortest.
Qed.

(** The state in which the loop gives up. *)
Lemma astar_loop_none fuel st tr :
  astar_inv st → loop fuel st = Return (None, tr) →
  ∃ st', astar_inv st' ∧ open_set st' = [] ∧ steps st' = tr.
Proof.
  revert st. induction fuel as [|fuel IH]; intros st Hinv; [done|].
  simpl. destruct (iter st) as [out| |] eqn:Hit; cbn [mbind outcome_bind]; [|done..].
  pose proof (iter_record _ _ Hinv Hit) as Hrec.
  pose proof (iter_inv grid start goal _ _ Hinv Hit) as Hinv'.
  destruct (heappop (open_set st)) as [[[fc c] rest]|] eqn:Hpop.
  - destruct Hrec as (gc & r & _ & _ & _ & _ & _ & Hcase).
    destruct Hcase as [(Hne & st' & -> & Hsteps)|(-> & p & ->)]; [by apply IH|done].
  - subst out. intros [= <-]. apply heappop_None in Hpop. eauto.
Qed.

(** With an empty frontier every cell a path reaches has a cost. *)
Lemma empty_frontier_dom CF G P q c :
  core_inv [] CF G → front_inv [] P [] G →
  joins grid q start c → is_Some (G !! c).
Proof.
  intros Hc Hf (Hhead & Hlast & Hopen & Hchain).
  assert (is_Some (G !! start)) as Hs
    by (rewrite (core_start_g _ _ _ _ _ _ Hc); eauto).
  revert Hhead Hs. generalize start as v.
  induction q as [|a q IH]; intros v; [done|].
  intros [= ->] [gv Hgv].
  destruct q as [|b q'].
  { injection Hlast as ->. eauto. }
  rewrite last_cons_cons in Hlast. destruct Hchain as [Hab Hchain].
  apply Forall_cons in Hopen as [_ Hopen].
  destruct (front_closed _ _ _ _ _ _ _ Hf _ _ Hgv) as [Hx|[[_ Hx]|[Hx|Hcl]]];
    try by apply elem_of_nil in Hx.
  destruct (Hcl b Hab) as (gb & Hgb & _).
  { by apply Forall_cons in Hopen as [? _]. }
  apply (IH Hlast Hopen Hchain b eq_refl). eauto.
Qed.

Lemma empty_frontier_popped CF G P q c :
  core_inv [] CF G → front_inv [] P [] G →
  joins grid q start c → c ∈ P.
Proof.
  intros Hc Hf Hq.
  destruct (empty_frontier_dom _ _ _ _ _ Hc Hf Hq) as [gc Hgc].
  destruct (front_live _ _ _ _ _ _ _ Hf _ _ Hgc) as [->|[Hx|Hx]];
    [|by apply elem_of_nil in Hx|done].
  destruct (front_seed _ _ _ _ _ _ _ Hf) as [Hx|Hx];
    [by apply elem_of_nil in Hx|done].
Qed.

(** *** Termination on every grid *)

Local Abbreviation relax_g := (relax grid (nrows grid) (ncols grid) goal).

Lemma getitem_Return_or_IndexError {A} (l : list A) i :
  (∃ x, getitem l i = Return x) ∨ getitem l i = Raise IndexError.
Proof.
  unfold getitem. destruct (py_index (length l) i) as [j|]; [|by right].
  destruct (l !! j); [left; eauto|by right].
Qed.

Lemma relax_Return_or_IndexError current gcur es n :
  e_g es !! current = Some gcur →
  (∃ es', relax_g current es n = Return es') ∨
  relax_g current es n = Raise IndexError.
Proof.
  intros Hcur. unfold relax.
  destruct ((0 <=? n.1) && (n.1 <? nrows grid) && (0 <=? n.2) && (n.2 <? ncols grid));
    [|left; eauto].
  unfold getitem2.
  destruct (getitem_Return_or_IndexError grid n.1) as [[row ->]| ->]; [|by right].
  cbn [mbind outcome_bind].
  destruct (getitem_Return_or_IndexError row n.2) as [[v ->]| ->]; [|by right].
  cbn [mbind outcome_bind]. destruct (v =? 0); [|left; eauto].
  unfold dict_get. rewrite Hcur. cbn [mbind outcome_bind].
  destruct (match e_g es !! n with Some gn => gcur + 1 <? gn | None => true end);
    left; eauto.
Qed.

Lemma foldM_relax_Return_or_IndexError current gcur P l es :
  (∀ n, n ∈ l → adjacent current n) →
  expand_inv grid start goal current gcur P es →
  (∃ es', foldM (relax_g current) es l = Return es') ∨
  foldM (relax_g current) es l = Raise IndexError.
Proof.
  revert es. induction l as [|n l IH]; intros es Hadj Hinv; simpl.
  { left. eauto. }
  pose proof Hinv as (_ & _ & Hcur & _).
  destruct (relax_Return_or_IndexError current gcur es n Hcur) as [[es1 Hr]|Hr];
    rewrite Hr; cbn [mbind outcome_bind]; [|by right].
  destruct (relax_inv grid start goal _ _ _ _ _ _
              (Hadj n (list_elem_of_here _ _)) Hinv Hr) as (Hinv1 & _).
  apply IH; [|done]. intros m Hm. apply Hadj. by right.
Qed.

Lemma iter_Return_or_IndexError st :
  astar_inv st →
  (∃ r, iter st = Return r ∧
     match r with
     | Continue st' =>
         (potential grid (open_set st') (g_score st') <
          potential grid (open_set st) (g_score st))%nat
     | Done _ => True
     end) ∨
  iter st = Raise IndexError.
Proof.
  intros Hinv. pose proof Hinv as (Hc & Hf & Htr). unfold astar_iter.
  destruct (heappop (open_set st)) as [[[fc current] rest]|] eqn:Hpop;
    [|left; eexists; split; [reflexivity|done]].
  destruct (popped_in_dom _ _ _ _ _ _ _ _ _ Hc Hpop) as [gcur Hg].
  unfold dict_get. rewrite Hg. cbn [mbind outcome_bind].
  destruct (decide (current = goal)) as [->|Hng].
  - destruct (iter_done_goal _ _ _ _ _ _ _ Hinv Hpop Hg) as (l & -> & Hok).
    cbn [mbind outcome_bind app]. left. eexists. split; [reflexivity|done].
  - destruct current as [x y].
    change [(x + 1, y); (x - 1, y); (x, y + 1); (x, y - 1)]
      with (neighbors4 (x, y)).
    assert (expand_inv grid start goal (x, y) gcur (node <$> steps st)
              {| e_open := rest; e_came := came_from st;
                 e_g := g_score st; e_details := [] |}) as Hes.
    { split; [by eapply core_inv_pop|]. split; [by eapply front_inv_pop|].
      split; [done|]. intros n tg hv fv Hx. by apply elem_of_nil in Hx. }
    destruct (foldM_relax_Return_or_IndexError (x, y) gcur _ (neighbors4 (x, y)) _
                (λ n, proj2 (adjacent_neighbors4 (x, y) n)) Hes) as [[es Hfold]|Hfold];
      rewrite Hfold; cbn [mbind outcome_bind]; [|by right].
    left. eexists. split; [done|]. simpl.
    pose proof (foldM_relax_potential grid start goal _ _ _ _ _ _
                  (λ n, proj2 (adjacent_neighbors4 (x, y) n)) Hes Hfold) as Hpot.
    simpl in Hpot. unfold potential in *.
    rewrite (heappop_length _ _ _ Hpop). lia.
Qed.

Lemma astar_loop_Return_or_IndexError fuel st :
  astar_inv st →
  (potential grid (open_set st) (g_score st) < fuel)%nat →
  (∃ res, loop fuel st = Return res) ∨ loop fuel st = Raise IndexError.
Proof.
  revert st. induction fuel as [|fuel IH]; intros st Hinv Hpot; [lia|].
  simpl. destruct (iter_Return_or_IndexError st Hinv) as [(r & Hit & Hr)|Hit];
    rewrite Hit; cbn [mbind outcome_bind]; [|by right].
  destruct r as [st'|res]; [|left; eauto].
  apply IH; [|lia]. apply (iter_inv grid start goal _ _ Hinv Hit).
Qed.
End Records.

(** *** Properties of [astar] and [heuristic] *)

Lemma astar_trace_Forall (R : StepRecord → Prop) grid start goal res :
  (∀ st fc c rest gc r,
     astar_inv grid start goal st →
     heappop (open_set st) = Some ((fc, c), rest) →
     g_score st !! c = Some gc →
     g r = gc → h r = heuristic c goal → f r = fc → popped_cell goal r = c →
     R r) →
  astar grid start goal = Return res → Forall R res.2.
Proof.
  intros HR. unfold astar.
  destruct (getitem grid 0) as [row0| |] eqn:Hrow;
    cbn [mbind outcome_bind]; [|done..].
  destruct (astar_dims _ _ Hrow) as (-> & -> & _).
  apply astar_loop_Forall; [done|apply astar_init_inv|constructor].
Qed.

Lemma record_cost_shortest_in_trace grid start goal res tr r :
  open_cell grid start →
  astar grid start goal = Return (res, tr) → r ∈ tr →
  shortest_steps grid start (popped_cell goal r) (g r).
Proof.
  intros Hstart Ha Hr.
  pose proof (astar_trace_Forall
    (λ r, shortest_steps grid start (popped_cell goal r) (g r))
    grid start goal (res, tr)) as Hall.
  rewrite Forall_forall in Hall. apply Hall; [|done|done].
  intros. by eapply record_cost_pop.
Qed.

(** X1: the cost [g] of every record, a record for a stale frontier entry
    included, is the least number of steps from [start] to the cell popped. *)
Theorem astar_record_cost_shortest (grid : list (list Z)) (start goal : cell)
    (res : option (list cell)) (tr : list StepRecord) (r : StepRecord) :
  open_cell grid start →
  astar grid start goal = Return (res, tr) → r ∈ tr →
  shortest_steps grid start (popped_cell goal r) (g r).
Proof.
  intros Hstart Ha Hr. by eapply record_cost_shortest_in_trace.
Qed.

(** X2: in every record [h] is the Manhattan distance from the popped cell
    to the goal, and [f] is at least [g + h], except in the record of the
    seed entry, pushed with priority 0. *)
Theorem astar_record_priority (grid : list (list Z)) (start goal : cell)
    (res : option (list cell)) (tr : list StepRecord) (r : StepRecord) :
  astar grid start goal = Return (res, tr) → r ∈ tr →
  h r = heuristic (popped_cell goal r) goal ∧
  ((popped_cell goal r = start ∧ f r = 0) ∨ g r + h r ≤ f r).
Proof.
  intros Ha Hr.
  pose proof (astar_trace_Forall
    (λ r, h r = heuristic (popped_cell goal r) goal ∧
          ((popped_cell goal r = start ∧ f r = 0) ∨ g r + h r ≤ f r))
    grid start goal (res, tr)) as Hall.
  rewrite Forall_forall in Hall. apply Hall; [|done|done].
  intros. by eapply record_priority_pop.
Qed.

(** A path with a repeated cell can be cut short. *)
Lemma joins_shorten grid q a b :
  joins grid q a b → ¬ NoDup q →
  ∃ q', joins grid q' a b ∧ (length q' < length q)%nat.
Proof.
  revert a. induction q as [|x q IH]; intros a Hj Hnd;
    destruct Hj as (Hh & Hl & Ho & Hc).
  { done. }
  injection Hh as ->. apply Forall_cons in Ho as [Hoa Ho].
  destruct (decide (a ∈ q)) as [Hin|Hnin].
  - apply list_elem_of_split in Hin as (l1 & l2 & ->).
    exists (a :: l2). split.
    + split; [done|]. split.
      { by rewrite app_comm_cons, last_app_cons in Hl. }
      apply Forall_app in Ho as [_ Ho]. split; [done|].
      apply chain_cons in Hc as [_ Hc]. clear -Hc.
      induction l1 as [|y l1 IH]; [done|].
      apply IH. rewrite <-app_comm_cons in Hc. by apply chain_cons in Hc as [_ ?].
    + rewrite !length_cons, length_app, length_cons. lia.
  - destruct q as [|c q'].
    { exfalso. apply Hnd. apply NoDup_singleton. }
    rewrite last_cons_cons in Hl. destruct Hc as [Hac Hc].
    destruct (IH c) as (q'' & (Hh' & Hl' & Ho' & Hc') & Hlen).
    { done. }
    { intros Hnd'. apply Hnd. by constructor. }
    exists (a :: q''). split.
    + split; [done|]. split.
      { destruct q''; [done|]. by rewrite last_cons_cons. }
      split; [by constructor|]. apply chain_cons. rewrite Hh'. done.
    + simpl in *. lia.
Qed.

(** X3: a returned path visits no cell twice. *)
Theorem astar_path_simple (grid : list (list Z)) (start goal : cell)
    (p : list cell) (tr : list StepRecord) :
  open_cell grid start →
  astar grid start goal = Return (Some p, tr) → NoDup p.
Proof.
  intros Hstart Ha. apply astar_ok in Ha.
  destruct (result_path_joins _ _ _ _ _ Hstart Ha) as [Hj _].
  destruct Ha as (_ & _ & _ & _ & Hmin & _). simpl in Hmin.
  destruct (decide (NoDup p)) as [|Hnd]; [done|]. exfalso.
  destruct (joins_shorten _ _ _ _ Hj Hnd) as (q' & Hq' & Hlt).
  specialize (Hmin q' Hq'). lia.
Qed.

(** X4: when the goal is reached, the terminal record carries the number of
    steps of the returned path as [g], with [h = 0] and [f = g]. *)
Theorem astar_goal_record_cost (grid : list (list Z)) (start goal : cell)
    (p : list cell) (tr : list StepRecord) :
  open_cell grid start →
  astar grid start goal = Return (Some p, tr) →
  ∃ r, last tr = Some r ∧ status r = GoalReached ∧
       g r = Z.of_nat (length p) - 1 ∧ h r = 0 ∧ f r = g r.
Proof.
  intros Hstart Ha. pose proof (astar_ok _ _ _ _ Ha) as Hok.
  destruct (result_path_joins _ _ _ _ _ Hstart Hok) as [Hj _].
  destruct Hok as (Htr & _ & _ & _ & Hmin & _ & tr' & r & Heq & _ & Hst & _).
  simpl in Heq, Hmin, Htr. subst tr. exists r.
  rewrite last_snoc. split; [done|]. split; [done|].
  assert (r ∈ tr' ++ [r]) as Hr by (apply elem_of_app; right; by left).
  assert (popped_cell goal r = goal) as Hpc by (unfold popped_cell; by rewrite Hst).
  pose proof (astar_trace_Forall
    (λ r, shortest_steps grid start (popped_cell goal r) (g r) ∧
          h r = heuristic (popped_cell goal r) goal)
    grid start goal (Some p, tr' ++ [r])) as Hall.
  rewrite Forall_forall in Hall.
  destruct (Hall) with (x := r) as [[(q & Hq & Hlen) Hlow] Hh]; [|done|done|].
  { intros. split; [by eapply record_cost_pop|].
    by eapply record_priority_pop. }
  rewrite Hpc in *. rewrite heuristic_refl in Hh.
  specialize (Hmin q Hq). specialize (Hlow p Hj).
  assert (g r = Z.of_nat (length p) - 1) as Hg by lia.
  split; [done|]. split; [done|].
  destruct (Htr (length tr') r) as [_ Hf].
  { by rewrite lookup_app_r, Nat.sub_diag by lia. }
  rewrite Hf by (by left). lia.
Qed.

(** X5: on a rectangular grid, [astar] returns no path exactly when no path
    of open cells joins [start] to [goal]. *)
Theorem astar_none_iff_unreachable (grid : list (list Z)) (start goal : cell) :
  rectangular grid → open_cell grid start →
  (∃ tr, astar grid start goal = Return (None, tr)) ↔
  (∀ q, ¬ joins grid q start goal).
Proof.
  intros Hrect Hstart. split.
  - intros [tr Ha]. apply astar_ok in Ha as (_ & Hno & _). done.
  - intros Hno.
    destruct (astar_returns grid start goal (open_cell_nonempty _ _ Hstart) Hrect)
      as [[[p|] tr] Ha]; [|eauto].
    apply astar_ok in Ha.
    destruct (result_path_joins _ _ _ _ _ Hstart Ha) as [Hj _].
    by destruct (Hno p).
Qed.

(** X6: when [astar] returns no path, the cells of its trace are exactly the
    cells that a path of open cells reaches from [start]: the search was
    exhaustive. *)
Theorem astar_none_trace_covers (grid : list (list Z)) (start goal : cell)
    (tr : list StepRecord) (c : cell) :
  open_cell grid start →
  astar grid start goal = Return (None, tr) →
  c ∈ node <$> tr ↔ ∃ q, joins grid q start c.
Proof.
  intros Hstart Ha. split.
  - intros (r & -> & Hr)%list_elem_of_fmap.
    pose proof (astar_ok _ _ _ _ Ha) as (_ & _ & Hs). simpl in Hs.
    rewrite Forall_forall in Hs. specialize (Hs r Hr).
    destruct (record_cost_shortest_in_trace grid start goal None tr r Hstart Ha Hr)
      as [(q & Hq & _) _].
    unfold popped_cell in Hq. rewrite Hs in Hq. eauto.
  - intros [q Hq]. unfold astar in Ha.
    destruct (getitem grid 0) as [row0| |] eqn:Hrow;
      cbn [mbind outcome_bind] in Ha; [|done..].
    destruct (astar_dims _ _ Hrow) as (Hr & Hcl & _). rewrite Hr, Hcl in Ha.
    destruct (astar_loop_none grid start goal _ _ _ (astar_init_inv grid start goal) Ha)
      as (st' & (Hc & Hf & _) & Hopen & <-).
    rewrite Hopen in Hc, Hf. by eapply empty_frontier_popped.
Qed.

(** X7: [astar] terminates on every grid, and the only exception it can
    raise is [IndexError] (an empty grid, or a row shorter than the first);
    it never looks up a missing key. *)
Theorem astar_returns_or_index_error (grid : list (list Z)) (start goal : cell) :
  (∃ res, astar grid start goal = Return res) ∨
  astar grid start goal = Raise IndexError.
Proof.
  unfold astar.
  destruct (getitem_Return_or_IndexError grid 0) as [[row0 Hrow]|Hrow];
    rewrite Hrow; cbn [mbind outcome_bind]; [|by right].
  destruct (astar_dims _ _ Hrow) as (-> & -> & ->).
  apply astar_loop_Return_or_IndexError;
    [apply astar_init_inv|apply astar_init_potential].
Qed.

(** X8: the heuristic is consistent and admissible: along any chain of
    4-adjacent cells from [a] to [b] it drops by at most the number of
    steps, so it never exceeds the number of steps of a path to the goal. *)
Theorem heuristic_consistent (q : list cell) (a b t : cell) :
  head q = Some a → last q = Some b → chain adjacent q →
  heuristic a t ≤ Z.of_nat (length q) - 1 + heuristic b t ∧
  (b = t → heuristic a t ≤ Z.of_nat (length q) - 1).
Proof.
  intros Hh Hl Hc. pose proof (heuristic_path q a b t Hh Hl Hc) as Hp.
  split; [done|]. intros ->. rewrite heuristic_refl in Hp. lia.
Qed.

(** ** Further properties of the generator *)

Section GeneratedGrid.
Variables rows cols : Z.
Hypothesis Hrows : 0 < rows.
Hypothesis Hcols : 0 < cols.

Local Abbreviation room := (room rows cols).
Local Abbreviation shape := (shape rows cols).
Local Abbreviation maze_inv := (maze_inv rows cols).
Local Abbreviation inb := (λ x : cell, 0 ≤ x.1 < rows ∧ 0 ≤ x.2 < cols).
Local Abbreviation verts := (verts (0, 0)).

Lemma shape_rows m : shape m → nrows m = rows ∧ ncols m = cols.
Proof.
  intros [Hlen Hrow]. unfold nrows, ncols. split; [lia|].
  destruct m as [|row m]; [simpl in Hlen; lia|]. simpl.
  rewrite (Hrow row); [lia|by left].
Qed.

Lemma shape_rectangular m : shape m → rectangular m.
Proof.
  intros Hsh. destruct (shape_rows m Hsh) as [_ Hc]. pose proof Hsh as [_ Hrow].
  unfold rectangular. apply Forall_forall. intros row Hin.
  rewrite Hc, (Hrow row Hin). lia.
Qed.

Lemma shape_nonempty m : shape m → m ≠ [].
Proof. intros [Hlen _] ->. simpl in Hlen. lia. Qed.

Lemma open_cell_shape m x :
  shape m → open_cell m x ↔ inb x ∧ cell_at m x = Some 0.
Proof.
  intros Hsh. destruct (shape_rows m Hsh) as [Hr Hc].
  unfold open_cell, in_bounds. rewrite Hr, Hc. split.
  - intros [Hx Hg]. split; [done|]. apply getitem2_Return_cell_at in Hg; [done|lia..].
  - intros [Hx Hg]. split; [done|]. apply getitem2_Return_cell_at; [lia..|done].
Qed.
End GeneratedGrid.

(** X9: for positive dimensions and any shuffle outcomes, every grid
    [generate_maze] returns has [rows] rows of [cols] cells, each cell 0 or
    1; and it returns one whenever the rooms fit the recursion limit. *)
Theorem generate_maze_shape (rng : nat → list nbr → list nbr)
    (rows cols : Z) (k : nat) :
  (∀ k l, rng k l ≡ₚ l) → 0 < rows → 0 < cols →
  (rooms_fit rows cols →
   ∃ maze k', generate_maze rng rows cols k = Return (maze, k')) ∧
  (∀ maze k',
     generate_maze rng rows cols k = Return (maze, k') →
     Z.of_nat (length maze) = rows ∧
     Forall (λ row, Z.of_nat (length row) = cols ∧
                    Forall (λ v, v = 0 ∨ v = 1) row) maze).
Proof.
  intros Hperm Hrows Hcols. split; [by apply generated_returns|].
  intros m kw Hg.
  destruct (generated_facts rows cols Hrows Hcols rng k m kw Hperm Hg)
    as (mw & es & _ & Hi & _ & _ & Hsh & Hm).
  pose proof Hsh as [Hlen Hrow].
  split; [lia|]. apply Forall_lookup. intros i row Hi'.
  assert (length row = Z.to_nat cols) as Hlr
    by (apply Hrow; by eapply list_elem_of_lookup_2).
  split; [lia|]. apply Forall_lookup. intros j v Hj.
  pose proof (lookup_lt_Some _ _ _ Hi') as Hilt.
  pose proof (lookup_lt_Some _ _ _ Hj) as Hjlt.
  assert (cell_at m (Z.of_nat i, Z.of_nat j) = Some v) as Hcell.
  { unfold cell_at. simpl. rewrite !Nat2Z.id, Hi'. simpl. done. }
  rewrite Hm in Hcell by (simpl; lia).
  destruct (decide _); [left; congruence|].
  destruct (mi_cells _ _ _ _ Hi (Z.of_nat i, Z.of_nat j)) as [[H0 _]|[H1 _]];
    [simpl; lia|left; congruence|right; congruence].
Qed.

(** X10: the open cells of a grid [generate_maze] returns are the rooms,
    the wall cell between the two rooms of each passage, and the corner
    (rows-1, cols-1); every other cell is 1. It returns a grid whenever
    the rooms fit the recursion limit. *)
Theorem generate_maze_open_cells (rng : nat → list nbr → list nbr)
    (rows cols : Z) (k : nat) :
  (∀ k l, rng k l ≡ₚ l) → 0 < rows → 0 < cols →
  (rooms_fit rows cols →
   ∃ maze k', generate_maze rng rows cols k = Return (maze, k')) ∧
  (∀ maze k',
     generate_maze rng rows cols k = Return (maze, k') →
     ∀ x, 0 ≤ x.1 < rows ∧ 0 ≤ x.2 < cols →
       (is_open maze x ↔
        room rows cols x ∨ x = (rows - 1, cols - 1) ∨
        ∃ a b, passage rows cols maze a b ∧ x = mid a b) ∧
       (is_open maze x ∨ getitem2 maze x.1 x.2 = Return 1)).
Proof.
  intros Hperm Hrows Hcols. split; [by apply generated_returns|].
  intros m kw Hg x Hx.
  destruct (generated_facts rows cols Hrows Hcols rng k m kw Hperm Hg)
    as (mw & es & _ & Hi & Hall & _ & Hsh & Hm).
  pose proof (forced_corner_open rows cols m mw Hm) as Hm'.
  rewrite is_open_cell_at by lia. split.
  - split.
    + intros H0. apply (Hm' x Hx) in H0 as [H0| ->]; [|tauto].
      apply (maze_inv_open rows cols mw es x Hi Hx) in H0
        as [Hv|(u & v & Huv & ->)].
      * left. by apply (verts_room rows cols Hrows Hcols mw es).
      * do 2 right. exists u, v. split; [|done].
        apply (passage_edge rows cols Hrows Hcols mw es m u v Hi Hm'). by left.
    + intros [Hr|[->|(a & b & Hp & ->)]].
      * apply (Hm' x Hx). left.
        apply (maze_inv_open rows cols mw es x Hi Hx). left. by apply Hall.
      * apply (Hm' _ Hx). by right.
      * destruct Hp as (Ha & Hb & Hab & _ & _ & Hmid).
        pose proof (mid_in_bounds rows cols a b Ha Hb Hab).
        apply is_open_cell_at in Hmid; [done|lia..].
  - rewrite getitem2_Return_cell_at by lia. rewrite (Hm x Hx).
    destruct (decide _); [by left|].
    destruct (mi_cells _ _ _ _ Hi x Hx) as [[H0 _]|[H1 _]]; [by left|by right].
Qed.

(** ** The number of shuffles *)

Lemma grown_NoDup root es : grown root es → NoDup (verts root es).
Proof.
  induction 1 as [|u v es Hg IH Hu Hv].
  - apply NoDup_singleton.
  - unfold verts in *. rewrite fmap_cons. simpl.
    apply NoDup_cons in IH as [Hr IH]. rewrite not_elem_of_cons in Hv.
    destruct Hv as [Hne Hv].
    apply NoDup_cons. split; [|by apply NoDup_cons].
    rewrite not_elem_of_cons. split; [congruence|done].
Qed.

Section Count.
Variables rows cols : Z.
Hypothesis Hrows : 0 < rows.
Hypothesis Hcols : 0 < cols.

Local Abbreviation room := (room rows cols).
Local Abbreviation maze_inv := (maze_inv rows cols).
Local Abbreviation verts := (verts (0, 0)).

Lemma verts_length_rooms maze es :
  maze_inv maze es → (∀ y, room y → y ∈ verts es) →
  length (verts es) = length (room_cells rows cols).
Proof.
  intros Hi Hall. apply Permutation_length, NoDup_Permutation.
  - apply grown_NoDup, Hi.
  - apply NoDup_room_cells.
  - intros x. rewrite elem_of_room_cells. split; [|apply Hall].
    by apply (verts_room rows cols Hrows Hcols maze es).
Qed.
End Count.

(** X18: a call of [generate_maze] that returns has called
    [random.shuffle] once for each room, ((rows+1)//2) * ((cols+1)//2)
    times in all; and it returns whenever the rooms fit the recursion
    limit. *)
Theorem generate_maze_shuffle_count (rng : nat → list nbr → list nbr)
    (rows cols : Z) (k : nat) :
  (∀ k l, rng k l ≡ₚ l) → 0 < rows → 0 < cols →
  (rooms_fit rows cols →
   ∃ maze k', generate_maze rng rows cols k = Return (maze, k')) ∧
  (∀ maze k',
     generate_maze rng rows cols k = Return (maze, k') →
     Z.of_nat k' = Z.of_nat k + ((rows + 1) `div` 2) * ((cols + 1) `div` 2)).
Proof.
  intros Hperm Hrows Hcols. split; [by apply generated_returns|].
  intros m kw Hg.
  destruct (generated_facts rows cols Hrows Hcols rng k m kw Hperm Hg)
    as (mw & es & _ & Hi & Hall & -> & _).
  rewrite (verts_length_rooms rows cols Hrows Hcols mw es Hi Hall).
  rewrite length_room_cells.
  assert (0 ≤ (rows + 1) `div` 2) by (Z.div_mod_to_equations; lia).
  assert (0 ≤ (cols + 1) `div` 2) by (Z.div_mod_to_equations; lia).
  nia.
Qed.

(** ** Searching a generated maze *)

Lemma joins_snoc grid q a b c :
  joins grid q a b → adjacent b c → open_cell grid c →
  joins grid (q ++ [c]) a c.
Proof.
  intros (Hh & Hl & Ho & Hc) Hbc Hoc. split; [|split; [|split]].
  - destruct q; [done|]. done.
  - by rewrite last_snoc.
  - apply Forall_app. split; [done|]. by apply Forall_singleton.
  - apply chain_snoc. split; [done|]. by rewrite Hl.
Qed.

(** A path between two different cells enters its last cell from an open
    neighbour. *)
Lemma joins_last_step grid q a b :
  joins grid q a b → a ≠ b → ∃ y, open_cell grid y ∧ adjacent y b.
Proof.
  revert a. induction q as [|x q IH]; intros a (Hh & Hl & Ho & Hc) Hab; [done|].
  simpl in Hh. injection Hh as ->.
  destruct q as [|y q]; [simpl in Hl; congruence|].
  apply Forall_cons in Ho as [Hoa Ho]. destruct Hc as [Hay Hc].
  destruct (decide (y = b)) as [->|Hyb]; [by exists a|].
  apply (IH y); [|done]. split; [done|]. split; [|done].
  by rewrite last_cons_cons in Hl.
Qed.

Section Solve.
Variables rows cols : Z.
Hypothesis Hrows : 0 < rows.
Hypothesis Hcols : 0 < cols.

Local Abbreviation room := (room rows cols).
Local Abbreviation shape := (shape rows cols).
Local Abbreviation passage := (passage rows cols).
Local Abbreviation inb := (λ x : cell, 0 ≤ x.1 < rows ∧ 0 ≤ x.2 < cols).

Lemma passage_open_cells m a b :
  shape m → passage m a b →
  open_cell m a ∧ open_cell m (mid a b) ∧ open_cell m b ∧
  adjacent a (mid a b) ∧ adjacent (mid a b) b.
Proof.
  intros Hsh (Ha & Hb & Hab & Hoa & Hob & Hom).
  pose proof (mid_in_bounds rows cols a b Ha Hb Hab) as Hin.
  pose proof Ha as [Hina _]. pose proof Hb as [Hinb _].
  rewrite !(open_cell_shape rows cols Hrows Hcols m _ Hsh).
  apply is_open_cell_at in Hoa; [|lia..].
  apply is_open_cell_at in Hob; [|lia..].
  apply is_open_cell_at in Hom; [|lia..].
  do 3 (split; [done|]). unfold adjacent. clear Hoa Hob Hom. split; geo.
Qed.

(** A chain of passages is walked cell by cell through the walls it
    opened. *)
Lemma passage_chain_joins m p :
  shape m → chain (passage m) p →
  ∀ a b, head p = Some a → last p = Some b → open_cell m a →
    ∃ q, joins m q a b.
Proof.
  intros Hsh. induction p as [|x p IH]; intros Hc a b Hh Hl Hoa; [done|].
  simpl in Hh. assert (x = a) as Hxa by congruence. subst x. clear Hh.
  destruct p as [|y p].
  - simpl in Hl. assert (a = b) as Hab by congruence. subst b. exists [a].
    split; [done|]. split; [done|]. split; [by apply Forall_singleton|done].
  - destruct Hc as [Hp Hc]. rewrite last_cons_cons in Hl.
    destruct (passage_open_cells m a y Hsh Hp) as (_ & Hom & Hoy & Ha1 & Ha2).
    destruct (IH Hc y b eq_refl Hl Hoy) as (q & Hhq & Hlq & Hoq & Hcq).
    exists (a :: mid a y :: q). split; [done|]. split; [|split].
    + destruct q as [|z q]; [done|]. by rewrite !last_cons_cons.
    + by repeat apply Forall_cons_2.
    + split; [done|]. apply chain_cons. rewrite Hhq. done.
Qed.

Lemma generated_open_start m mw es :
  maze_inv rows cols mw es →
  (∀ x, inb x → cell_at m x = if decide (x = (rows - 1, cols - 1)) then Some 0
                              else cell_at mw x) →
  shape m → open_cell m (0, 0) ∧ open_cell m (rows - 1, cols - 1).
Proof.
  intros Hi Hm Hsh. rewrite !(open_cell_shape rows cols Hrows Hcols m _ Hsh).
  split; (split; [simpl; lia|]); rewrite Hm by (simpl; lia).
  - destruct (decide _); [done|].
    apply (maze_inv_open rows cols mw es (0, 0) Hi); [simpl; lia|].
    left. by left.
  - by rewrite decide_True.
Qed.

(** With an odd dimension the far corner touches a room, so the walk
    reaches it. *)
Lemma generated_solvable rng k m kw :
  (∀ k l, rng k l ≡ₚ l) → rows `mod` 2 = 1 ∨ cols `mod` 2 = 1 →
  generate_maze rng rows cols k = Return (m, kw) →
  shape m ∧ open_cell m (0, 0) ∧ ∃ q, joins m q (0, 0) (rows - 1, cols - 1).
Proof.
  intros Hperm Hodd Hg.
  destruct (generated_facts rows cols Hrows Hcols rng k m kw Hperm Hg)
    as (mw & es & _ & Hi & Hall & _ & Hsh & Hm).
  pose proof (tree_perfect rows cols Hrows Hcols mw es m Hi Hall
                (forced_corner_open rows cols m mw Hm)) as [Hopen Hpaths].
  destruct (generated_open_start m mw es Hi Hm Hsh) as [Hos Hoc].
  do 2 (split; [done|]).
  set (t := (2 * ((rows - 1) `div` 2), 2 * ((cols - 1) `div` 2))).
  assert (room t) as Ht
    by (subst t; repeat split; simpl; Z.div_mod_to_equations; lia).
  assert (room (0, 0)) as H0 by (by apply room_origin).
  destruct (Hpaths (0, 0) t H0 Ht (Hopen _ H0) (Hopen _ Ht))
    as (p & (_ & Hh & Hl & Hc) & _).
  destruct (passage_chain_joins m p Hsh Hc (0, 0) t Hh Hl Hos) as (q & Hq).
  destruct (decide (t = (rows - 1, cols - 1))) as [<-|Hne]; [by exists q|].
  exists (q ++ [(rows - 1, cols - 1)]). apply (joins_snoc m q (0, 0) t); [done| |done].
  unfold adjacent, t in *. simpl.
  assert (2 * ((rows - 1) `div` 2) ≠ rows - 1 ∨ 2 * ((cols - 1) `div` 2) ≠ cols - 1)
    as Hd by (destruct (decide (2 * ((rows - 1) `div` 2) = rows - 1));
              [right; congruence|by left]).
  clear -Hd Hodd Hrows Hcols. Z.div_mod_to_equations. lia.
Qed.

(** With both dimensions even the far corner is walled in. *)
Lemma generated_unsolvable rng k m kw :
  (∀ k l, rng k l ≡ₚ l) → rows `mod` 2 = 0 → cols `mod` 2 = 0 →
  generate_maze rng rows cols k = Return (m, kw) →
  shape m ∧ open_cell m (0, 0) ∧ is_open m (rows - 1, cols - 1) ∧
  ∀ q, ¬ joins m q (0, 0) (rows - 1, cols - 1).
Proof.
  intros Hperm Hr Hc Hg.
  destruct (generated_facts rows cols Hrows Hcols rng k m kw Hperm Hg)
    as (mw & es & _ & Hi & _ & _ & Hsh & Hm).
  destruct (generated_open_start m mw es Hi Hm Hsh) as [Hos Hoc].
  do 2 (split; [done|]). split.
  { apply is_open_cell_at; [simpl; lia..|].
    rewrite Hm by (simpl; lia). by rewrite decide_True. }
  intros q Hq.
  destruct (joins_last_step m q _ _ Hq) as (y & Hoy & Hadj).
  { intros [= H1 H2]. clear -H1 Hr. Z.div_mod_to_equations. lia. }
  apply (open_cell_shape rows cols Hrows Hcols m _ Hsh) in Hoy as [Hin Hoy].
  rewrite (Hm y Hin) in Hoy.
  destruct (decide (y = _)) as [->|_];
    [unfold adjacent in Hadj; simpl in Hadj; lia|].
  apply (maze_inv_open rows cols mw es y Hi Hin) in Hoy as [Hv|(u & v & Huv & ->)].
  - apply (verts_room rows cols Hrows Hcols mw es y Hi) in Hv.
    unfold adjacent in Hadj. clear -Hv Hadj Hr Hc. geo.
  - destruct (mi_edges _ _ _ _ Hi u v Huv) as (Hu & Hv & Huv').
    unfold adjacent in Hadj. clear -Hu Hv Huv' Hadj Hr Hc. geo.
Qed.
End Solve.

(** X11: when [rows] or [cols] is odd, [astar] finds a path of open cells
    from (0, 0) to (rows-1, cols-1) in every grid [generate_maze] returns;
    and it returns one whenever the rooms fit the recursion limit. *)
Theorem generate_then_astar_finds_path (rng : nat → list nbr → list nbr)
    (rows cols : Z) (k : nat) :
  (∀ k l, rng k l ≡ₚ l) → 0 < rows → 0 < cols →
  rows `mod` 2 = 1 ∨ cols `mod` 2 = 1 →
  (rooms_fit rows cols →
   ∃ maze k', generate_maze rng rows cols k = Return (maze, k')) ∧
  (∀ maze k',
     generate_maze rng rows cols k = Return (maze, k') →
     ∃ p tr,
       astar maze (0, 0) (rows - 1, cols - 1) = Return (Some p, tr) ∧
       joins maze p (0, 0) (rows - 1, cols - 1)).
Proof.
  intros Hperm Hrows Hcols Hodd. split; [by apply generated_returns|].
  intros m kw Hg.
  destruct (generated_solvable rows cols Hrows Hcols rng k m kw Hperm Hodd Hg)
    as (Hsh & Hos & q & Hq).
  destruct (astar_returns m (0, 0) (rows - 1, cols - 1)) as ([res tr] & Ha).
  { by apply (shape_nonempty rows cols Hrows). }
  { by apply (shape_rectangular rows cols Hrows Hcols). }
  pose proof (astar_ok _ _ _ _ Ha) as Hok.
  destruct res as [p|].
  - exists p, tr. split; [done|].
    by apply (result_path_joins m _ _ p tr Hos Hok).
  - destruct Hok as (_ & Hno & _). by destruct (Hno q).
Qed.

(** X12: when [rows] and [cols] are both even, the corner
    (rows-1, cols-1) that [generate_maze] forces open is cut off in every
    grid it returns, and [astar] from (0, 0) to it returns no path; and
    [generate_maze] returns a grid whenever the rooms fit the recursion
    limit. *)
Theorem generate_then_astar_even_no_path (rng : nat → list nbr → list nbr)
    (rows cols : Z) (k : nat) :
  (∀ k l, rng k l ≡ₚ l) → 0 < rows → 0 < cols →
  rows `mod` 2 = 0 → cols `mod` 2 = 0 →
  (rooms_fit rows cols →
   ∃ maze k', generate_maze rng rows cols k = Return (maze, k')) ∧
  (∀ maze k',
     generate_maze rng rows cols k = Return (maze, k') →
     is_open maze (rows - 1, cols - 1) ∧
     ∃ tr, astar maze (0, 0) (rows - 1, cols - 1) = Return (None, tr)).
Proof.
  intros Hperm Hrows Hcols Hr Hc. split; [by apply generated_returns|].
  intros m kw Hg.
  destruct (generated_unsolvable rows cols Hrows Hcols rng k m kw Hperm Hr Hc Hg)
    as (Hsh & Hos & Hoc & Hno).
  split; [done|].
  destruct (astar_returns m (0, 0) (rows - 1, cols - 1)) as ([res tr] & Ha).
  { by apply (shape_nonempty rows cols Hrows). }
  { by apply (shape_rectangular rows cols Hrows Hcols). }
  pose proof (astar_ok _ _ _ _ Ha) as Hok.
  destruct res as [p|].
  - destruct (result_path_joins m _ _ p tr Hos Hok) as [Hj _]. by destruct (Hno p).
  - by exists tr.
Qed.

(** ** The step viewer *)

(** A comprehension [[f(l[i]) for i in range(n)]] over a prefix of [l]. *)
Lemma mapM_getitem_seqZ {A B} (f : A → B) (pre rest : list A) (n : nat) :
  (n ≤ length rest)%nat →
  mapM (λ i, s ← getitem (pre ++ rest) i; Return (f s))
       (seqZ (Z.of_nat (length pre)) (Z.of_nat n))
  = Return (f <$> take n rest).
Proof.
  revert pre rest. induction n as [|n IH]; intros pre rest Hn; [done|].
  destruct rest as [|x rest]; [simpl in Hn; lia|].
  rewrite seqZ_cons by lia. cbn [mapM].
  rewrite getitem_lookup by lia. rewrite Nat2Z.id, lookup_app_r by lia.
  rewrite Nat.sub_diag. cbn [lookup list_lookup mbind outcome_bind].
  replace (Z.succ (Z.of_nat (length pre))) with (Z.of_nat (length (pre ++ [x])))
    by (rewrite length_app; simpl; lia).
  replace (Z.pred (Z.of_nat (S n))) with (Z.of_nat n) by lia.
  rewrite (cons_middle x pre rest), (assoc_L (++)).
  rewrite IH by (simpl in Hn; lia). done.
Qed.

Lemma mapM_getitem_range {A B} (f : A → B) (l : list A) (n : nat) :
  (n ≤ length l)%nat →
  mapM (λ i, s ← getitem l i; Return (f s)) (range (Z.of_nat n))
  = Return (f <$> take n l).
Proof. intros Hn. by apply (mapM_getitem_seqZ f [] l n). Qed.

Section Viewer.
Variables (steps : list StepRecord) (path : option (list cell)).

Local Abbreviation upd := (update_display steps path).
Local Abbreviation press := (on_key steps path).
Local Abbreviation expected := (display_after steps path).
Local Abbreviation after := (viewer_after steps path).
Local Abbreviation max_steps := (Z.of_nat (length steps) + path_len path).

Lemma path_len_nonneg : 0 ≤ path_len path.
Proof. unfold path_len. destruct path as [[|? ?]|]; lia. Qed.

Lemma path_len_default : path_len path = Z.of_nat (length (default [] path)).
Proof. unfold path_len. by destruct path as [[|? ?]|]. Qed.

(** Lines 145-167: a search step. *)
Lemma update_display_search (i : nat) step d :
  steps !! i = Some step →
  upd (Z.of_nat i) d =
  Return {| visited_plot := plot_of (node <$> take (S i) steps);
            path_plot := path_plot d;
            current_node_plot := plot_of [node step];
            text_display := step_info (Z.of_nat i) step;
            title := "Visiting: " +:+ py_tuple (node step) |}.
Proof.
  intros Hi. pose proof (lookup_lt_Some _ _ _ Hi) as Hlt.
  unfold update_display.
  destruct (Z.ltb_spec (Z.of_nat i) 0) as [?|_]; [lia|].
  destruct (Z.ltb_spec (Z.of_nat i) (Z.of_nat (length steps))) as [_|?]; [|lia].
  rewrite getitem_lookup by lia. rewrite Nat2Z.id, Hi.
  cbn [mbind outcome_bind].
  replace (Z.of_nat i + 1) with (Z.of_nat (S i)) by lia.
  rewrite !mapM_getitem_range by lia. cbn [mbind outcome_bind].
  unfold plot_of. by rewrite <-!list_fmap_compose.
Qed.

(** Lines 169-185: a step of the path phase. *)
Lemma update_display_trace (i : nat) d :
  (length steps ≤ i)%nat → Z.of_nat i < max_steps →
  upd (Z.of_nat i) d =
  Return {| visited_plot := visited_plot d;
            path_plot := plot_of (take (S i - length steps) (default [] path));
            current_node_plot := current_node_plot d;
            text_display := tracing_text;
            title := "Tracing Final Path" |}.
Proof.
  intros Hge Hlt. unfold update_display.
  destruct (Z.ltb_spec (Z.of_nat i) 0) as [?|_]; [lia|].
  destruct (Z.ltb_spec (Z.of_nat i) (Z.of_nat (length steps))) as [?|_]; [lia|].
  unfold path_len in Hlt. destruct path as [[|c p]|]; [lia| |lia].
  set (q := c :: p) in *.
  destruct (Z.ltb_spec (Z.of_nat i - Z.of_nat (length steps)) (Z.of_nat (length q)))
    as [_|?]; [|lia].
  replace (Z.of_nat i - Z.of_nat (length steps) + 1)
    with (Z.of_nat (S i - length steps)) by lia.
  rewrite !mapM_getitem_range by lia. done.
Qed.

Lemma display_after_succ (n : nat) :
  Z.of_nat n < max_steps →
  upd (Z.of_nat n) (expected n) = Return (expected (S n)).
Proof.
  intros Hlt. destruct (steps !! n) as [step|] eqn:Hn.
  - rewrite (update_display_search n step _ Hn).
    cbn [display_after]. rewrite Hn. do 2 f_equal.
    destruct n as [|i]; [done|]. cbn [display_after].
    destruct (steps !! i) eqn:Hi; [done|].
    apply lookup_ge_None in Hi. apply lookup_lt_Some in Hn. lia.
  - pose proof Hn as Hge. apply lookup_ge_None in Hge.
    rewrite (update_display_trace n _ Hge Hlt).
    cbn [display_after]. rewrite Hn.
    destruct n as [|i].
    + assert (steps = []) as -> by (apply length_zero_iff_nil; lia). done.
    + cbn [display_after].
      destruct (steps !! i) as [step|] eqn:Hi; cbn [visited_plot current_node_plot].
      * assert (length steps = S i) as Hlen by (apply lookup_lt_Some in Hi; lia).
        rewrite firstn_all2 by lia.
        assert (last steps = Some step) as ->; [|done].
        rewrite last_lookup, Hlen. done.
      * done.
Qed.

Lemma display_after_again (n : nat) :
  Z.of_nat n = max_steps →
  upd (Z.of_nat n - 1) (expected n) = Return (expected n).
Proof.
  intros Hn. destruct n as [|i]; [done|].
  replace (Z.of_nat (S i) - 1) with (Z.of_nat i) by lia.
  cbn [display_after]. destruct (steps !! i) as [step|] eqn:Hi.
  - by rewrite (update_display_search i step _ Hi).
  - apply lookup_ge_None in Hi. by rewrite (update_display_trace i) by lia.
Qed.

(** One key press. *)
Lemma on_key_after (n : nat) key :
  Z.of_nat n ≤ max_steps →
  press (after n) key =
  Return (after
            (if bool_decide (key ∈ [" "; "right"])
             then Z.to_nat (Z.min (Z.of_nat n + 1) max_steps) else n)).
Proof.
  intros Hn. unfold on_key. case_bool_decide; [|done].
  cbn [step_idx shown viewer_after].
  replace (Z.of_nat n - 1 + 1) with (Z.of_nat n) by lia.
  destruct (Z.leb_spec max_steps (Z.of_nat n)) as [Hle|Hlt].
  - assert (Z.of_nat n = max_steps) as Heq by lia.
    rewrite <-Heq, display_after_again by done. cbn [mbind outcome_bind].
    rewrite Z.min_r by lia. rewrite Nat2Z.id. done.
  - rewrite display_after_succ by done. cbn [mbind outcome_bind].
    rewrite Z.min_l by lia.
    replace (Z.to_nat (Z.of_nat n + 1)) with (S n) by lia.
    unfold viewer_after. do 2 f_equal. lia.
Qed.

Lemma advances_cons key keys :
  advances (key :: keys) =
  (if bool_decide (key ∈ [" "; "right"]) then 1 else 0) + advances keys.
Proof.
  unfold advances. rewrite filter_cons. case_bool_decide.
  - rewrite decide_True by done. simpl. lia.
  - rewrite decide_False by done. lia.
Qed.

Lemma advances_nonneg keys : 0 ≤ advances keys.
Proof. unfold advances. lia. Qed.

Lemma foldM_on_key (n : nat) keys :
  Z.of_nat n ≤ max_steps →
  foldM press (after n) keys =
  Return (after (Z.to_nat (Z.min (Z.of_nat n + advances keys) max_steps))).
Proof.
  revert n. induction keys as [|key keys IH]; intros n Hn.
  - simpl. unfold advances. simpl. rewrite Z.add_0_r, Z.min_l by lia.
    by rewrite Nat2Z.id.
  - cbn [foldM]. rewrite on_key_after by done. cbn [mbind outcome_bind].
    rewrite advances_cons. pose proof (advances_nonneg keys).
    pose proof path_len_nonneg.
    case_bool_decide.
    + rewrite IH by lia. do 2 f_equal. lia.
    + rewrite IH by lia. do 2 f_equal.
Qed.

(** The viewer after any key presses, once the grid has been drawn. *)
Lemma viewer_run grid start goal keys :
  grid ≠ [] →
  visualize_maze_search grid start goal path steps keys =
  (_ ← imshow grid;
   Return (after (Z.to_nat (Z.min (advances keys) max_steps)))).
Proof.
  intros Hne. unfold visualize_maze_search.
  destruct (getitem_0_nonempty grid Hne) as (row0 & _ & ->).
  cbn [mbind outcome_bind]. destruct (imshow grid) as [[]|e|]; [|done..].
  cbn [mbind outcome_bind]. pose proof path_len_nonneg.
  change initial_viewer with (after 0).
  rewrite (foldM_on_key 0 keys) by lia. do 3 f_equal.
Qed.

Lemma imshow_maze_grid grid : rectangular grid → imshow grid = Return ().
Proof. intros Hr. unfold imshow. by rewrite bool_decide_true. Qed.

Lemma viewer_run_drawn grid start goal keys :
  grid ≠ [] → rectangular grid →
  visualize_maze_search grid start goal path steps keys =
  Return (after (Z.to_nat (Z.min (advances keys) max_steps))).
Proof.
  intros Hne Hr. by rewrite (viewer_run grid start goal keys Hne), imshow_maze_grid.
Qed.
End Viewer.

(** X13: on a grid as the specification has it, the viewer handles any
    key presses without raising, and its step index is the number of SPACE
    and RIGHT presses, capped at len(steps) + len(path), minus one. *)
Theorem viewer_step_index (grid : list (list Z)) (start goal : cell)
    (path : option (list cell)) (steps : list StepRecord) (keys : list string) :
  maze_grid grid →
  ∃ v, visualize_maze_search grid start goal path steps keys = Return v ∧
    step_idx v =
    Z.min (advances keys) (Z.of_nat (length steps) + path_len path) - 1.
Proof.
  intros (Hne & _ & Hrect & _).
  rewrite (viewer_run_drawn steps path grid start goal keys Hne Hrect).
  eexists. split; [done|]. cbn [step_idx viewer_after].
  pose proof (advances_nonneg keys). pose proof (path_len_nonneg path). lia.
Qed.

(** X14: on a grid as the specification has it, after [n + 1] SPACE or
    RIGHT presses, with [n < len(steps)], the viewer marks the nodes of the first [n + 1] records as visited,
    highlights the node of record [n], shows its text, and has drawn no
    path yet. *)
Theorem viewer_search_step (grid : list (list Z)) (start goal : cell)
    (path : option (list cell)) (steps : list StepRecord) (keys : list string)
    (n : nat) (step : StepRecord) :
  maze_grid grid → steps !! n = Some step → advances keys = Z.of_nat n + 1 →
  ∃ v, visualize_maze_search grid start goal path steps keys = Return v ∧
    step_idx v = Z.of_nat n ∧
    visited_plot (shown v) = plot_of (node <$> take (S n) steps) ∧
    current_node_plot (shown v) = plot_of [node step] ∧
    path_plot (shown v) = ([], []) ∧
    text_display (shown v) = step_info (Z.of_nat n) step ∧
    title (shown v) = "Visiting: " +:+ py_tuple (node step).
Proof.
  intros (Hne & _ & Hrect & _) Hn Hadv.
  rewrite (viewer_run_drawn steps path grid start goal keys Hne Hrect).
  eexists. split; [done|]. pose proof (lookup_lt_Some _ _ _ Hn).
  pose proof (path_len_nonneg path).
  replace (Z.to_nat (Z.min _ _)) with (S n) by lia.
  cbn [step_idx shown viewer_after display_after]. rewrite Hn.
  split; [lia|done].
Qed.

(** X15: on a grid as the specification has it, once the presses exceed
    [len(steps)] and a path was found, the viewer draws the first [presses - len(steps)] cells of the path, in
    path order, over the nodes of all records. *)
Theorem viewer_path_phase (grid : list (list Z)) (start goal : cell)
    (p : list cell) (steps : list StepRecord) (keys : list string) :
  maze_grid grid → p ≠ [] → Z.of_nat (length steps) < advances keys →
  ∃ v, visualize_maze_search grid start goal (Some p) steps keys = Return v ∧
    path_plot (shown v) =
      plot_of (take (Z.to_nat (advances keys) - length steps) p) ∧
    visited_plot (shown v) = plot_of (node <$> steps) ∧
    text_display (shown v) = tracing_text ∧
    title (shown v) = "Tracing Final Path".
Proof.
  intros (Hne & _ & Hrect & _) Hp Hadv.
  rewrite (viewer_run_drawn steps (Some p) grid start goal keys Hne Hrect).
  eexists. split; [done|].
  assert (path_len (Some p) = Z.of_nat (length p)) as Hlen
    by (by destruct p).
  assert (0 < length p)%nat as Hpos by (destruct p; [done|simpl; lia]).
  rewrite Hlen.
  remember (Z.to_nat (Z.min (advances keys)
              (Z.of_nat (length steps) + Z.of_nat (length p)))) as m eqn:Hm.
  destruct m as [|i]; [exfalso; lia|].
  cbn [shown viewer_after display_after].
  destruct (steps !! i) eqn:Hi; [apply lookup_lt_Some in Hi; lia|].
  cbn [path_plot visited_plot text_display title default].
  split; [|done]. f_equal.
  destruct (Z.min_spec (advances keys) (Z.of_nat (length steps) + Z.of_nat (length p)))
    as [[_ Hmin]|[Hge Hmin]].
  - f_equal. lia.
  - unfold id. rewrite !firstn_all2 by lia. done.
Qed.

(** X16: what the viewer shows depends on the key presses only through
    the number of SPACE and RIGHT presses capped at
    len(steps) + len(path): other keys are ignored, and presses beyond the
    last step change nothing. *)
Theorem viewer_counts_presses (grid : list (list Z)) (start goal : cell)
    (path : option (list cell)) (steps : list StepRecord)
    (keys keys' : list string) :
  grid ≠ [] →
  Z.min (advances keys) (Z.of_nat (length steps) + path_len path) =
  Z.min (advances keys') (Z.of_nat (length steps) + path_len path) →
  visualize_maze_search grid start goal path steps keys =
  visualize_maze_search grid start goal path steps keys'.
Proof.
  intros Hne Heq.
  rewrite !(viewer_run steps path grid start goal _ Hne). by rewrite Heq.
Qed.

(** ** The script *)

(** Writing to a cell the value it holds leaves the grid as it is. *)
Lemma setitem2_same rows cols maze (x : cell) v :
  shape rows cols maze → 0 ≤ x.1 < rows ∧ 0 ≤ x.2 < cols →
  cell_at maze x = Some v → setitem2 maze x.1 x.2 v = Return maze.
Proof.
  intros [Hlen Hrow] [H1 H2] Hc. unfold cell_at in Hc. unfold setitem2.
  rewrite getitem_lookup by lia.
  destruct (maze !! Z.to_nat x.1) as [row|] eqn:Hr; [|done]. simpl in Hc.
  cbn [mbind outcome_bind].
  assert (length row = Z.to_nat cols) as Hlr.
  { apply Hrow. by eapply list_elem_of_lookup_2. }
  unfold setitem. rewrite !py_index_nonneg by lia.
  rewrite !bool_decide_true by lia. cbn [mbind outcome_bind].
  by rewrite (list_insert_id row _ _ Hc), (list_insert_id maze _ _ Hr).
Qed.

(** X17: whatever the shuffles, the script generates a 21 x 21 maze in
    which [astar] finds a path from (0, 0) to (20, 20); it prints the
    length of that path and opens the viewer, and never prints that no
    path was found. *)
Theorem main_reports_path (rng : nat → list nbr → list nbr) (k : nat)
    (keys : list string) :
  (∀ k l, rng k l ≡ₚ l) →
  ∃ maze k' p tr v,
    generate_maze rng ROWS COLS k = Return (maze, k') ∧
    astar maze (0, 0) (20, 20) = Return (Some p, tr) ∧
    visualize_maze_search maze (0, 0) (20, 20) (Some p) tr keys = Return v ∧
    main rng k keys =
    Return (["Solving maze...";
             "Path found! Length: " +:+ pretty (length p)], Some v).
Proof.
  intros Hperm.
  assert (0 < ROWS) as Hrows by done. assert (0 < COLS) as Hcols by done.
  destruct (generated_returns ROWS COLS Hrows Hcols rng k Hperm)
    as (m & kw & Hg); [unfold rooms_fit; vm_compute; discriminate|].
  destruct (generated_solvable ROWS COLS Hrows Hcols rng k m kw Hperm)
    as (Hsh & Hos & q & Hq); [by left|done|].
  change (ROWS - 1, COLS - 1) with (20, 20) in Hq.
  assert (open_cell m (20, 20)) as Hoc.
  { destruct Hq as (_ & Hl & Ho & _). rewrite Forall_forall in Ho.
    apply Ho. rewrite last_lookup in Hl. by eapply list_elem_of_lookup_2. }
  pose proof (shape_nonempty ROWS COLS Hrows m Hsh) as Hne.
  destruct (astar_returns m (0, 0) (20, 20) Hne) as ([res tr] & Ha).
  { by apply (shape_rectangular ROWS COLS Hrows Hcols). }
  pose proof (astar_ok _ _ _ _ Ha) as Hok.
  destruct res as [p|]; [|destruct Hok as (_ & Hno & _); by destruct (Hno q)].
  pose proof (viewer_run_drawn tr (Some p) m (0, 0) (20, 20) keys Hne
                (shape_rectangular ROWS COLS Hrows Hcols m Hsh)) as Hv.
  eexists m, kw, p, tr, _. split; [done|]. split; [done|]. split; [exact Hv|].
  unfold main. rewrite Hg. cbn [mbind outcome_bind].
  change (ROWS - 1) with 20. change (COLS - 1) with 20.
  apply (open_cell_shape ROWS COLS Hrows Hcols m _ Hsh) in Hos as [Hi0 Hc0].
  apply (open_cell_shape ROWS COLS Hrows Hcols m _ Hsh) in Hoc as [Hi1 Hc1].
  rewrite (setitem2_same ROWS COLS m (0, 0) 0 Hsh Hi0 Hc0).
  cbn [mbind outcome_bind].
  rewrite (setitem2_same ROWS COLS m (20, 20) 0 Hsh Hi1 Hc1).
  cbn [mbind outcome_bind]. rewrite Ha. cbn [mbind outcome_bind].
  destruct Hok as (_ & Hh & _). simpl in Hh.
  destruct p as [|c p]; [done|]. rewrite Hv. done.
Qed.

(** ** The further properties at concrete inputs *)

(** The cost of the second record on a 2x2 grid with one wall. *)
Lemma astar_record_cost_shortest_witness :
  ∃ res tr r,
    astar [[0; 0]; [1; 0]] (0, 0) (1, 1) = Return (res, tr) ∧
    tr !! 1%nat = Some r ∧
    shortest_steps [[0; 0]; [1; 0]] (0, 0) (popped_cell (1, 1) r) (g r).
Proof.
  eexists _, _, _. split; [vm_compute; reflexivity|]. split; [reflexivity|].
  eapply (astar_record_cost_shortest [[0; 0]; [1; 0]] (0, 0) (1, 1)).
  - split; [unfold in_bounds, nrows, ncols; simpl; lia | reflexivity].
  - vm_compute. reflexivity.
  - apply (list_elem_of_lookup_2 _ 1%nat). reflexivity.
Defined.

(** The priority of the second record on the same grid. *)
Lemma astar_record_priority_witness :
  ∃ res tr r,
    astar [[0; 0]; [1; 0]] (0, 0) (1, 1) = Return (res, tr) ∧
    tr !! 1%nat = Some r ∧
    h r = heuristic (popped_cell (1, 1) r) (1, 1) ∧
    ((popped_cell (1, 1) r = (0, 0) ∧ f r = 0) ∨ g r + h r ≤ f r).
Proof.
  eexists _, _, _. split; [vm_compute; reflexivity|]. split; [reflexivity|].
  eapply (astar_record_priority [[0; 0]; [1; 0]] (0, 0) (1, 1)).
  - vm_compute. reflexivity.
  - apply (list_elem_of_lookup_2 _ 1%nat). reflexivity.
Defined.

(** The path found on the same grid repeats no cell. *)
Lemma astar_path_simple_witness :
  ∃ p tr,
    astar [[0; 0]; [1; 0]] (0, 0) (1, 1) = Return (Some p, tr) ∧ NoDup p.
Proof.
  eexists _, _. split; [vm_compute; reflexivity|].
  eapply (astar_path_simple [[0; 0]; [1; 0]] (0, 0) (1, 1)).
  - split; [unfold in_bounds, nrows, ncols; simpl; lia | reflexivity].
  - vm_compute. reflexivity.
Defined.

(** The terminal record on the same grid. *)
Lemma astar_goal_record_cost_witness :
  ∃ p tr r,
    astar [[0; 0]; [1; 0]] (0, 0) (1, 1) = Return (Some p, tr) ∧
    last tr = Some r ∧ status r = GoalReached ∧
    g r = Z.of_nat (length p) - 1 ∧ h r = 0 ∧ f r = g r.
Proof.
  assert (∃ p tr, astar [[0; 0]; [1; 0]] (0, 0) (1, 1) = Return (Some p, tr))
    as (p & tr & Ha) by (eexists _, _; vm_compute; reflexivity).
  destruct (astar_goal_record_cost [[0; 0]; [1; 0]] (0, 0) (1, 1) p tr)
    as (r & Hr); [|exact Ha|].
  - split; [unfold in_bounds, nrows, ncols; simpl; lia | reflexivity].
  - exists p, tr, r. split; [exact Ha|exact Hr].
Defined.

(** The walled-off goal of [stale_grid]. *)
Lemma astar_none_iff_unreachable_witness :
  (∃ tr, astar stale_grid (5, 3) (0, 1) = Return (None, tr)) ↔
  (∀ q, ¬ joins stale_grid q (5, 3) (0, 1)).
Proof.
  apply (astar_none_iff_unreachable stale_grid (5, 3) (0, 1)).
  - repeat constructor.
  - split; [unfold in_bounds, nrows, ncols; simpl; lia | reflexivity].
Defined.

(** A cell of the trace of the failed search on [stale_grid]. *)
Lemma astar_none_trace_covers_witness :
  ∃ tr,
    astar stale_grid (5, 3) (0, 1) = Return (None, tr) ∧
    ((4, 3) ∈ node <$> tr ↔ ∃ q, joins stale_grid q (5, 3) (4, 3)).
Proof.
  eexists. split; [vm_compute; reflexivity|].
  eapply (astar_none_trace_covers stale_grid (5, 3) (0, 1)).
  - split; [unfold in_bounds, nrows, ncols; simpl; lia | reflexivity].
  - vm_compute. reflexivity.
Defined.

(** The estimate along a walk of two steps. *)
Lemma heuristic_consistent_witness :
  heuristic (0, 0) (3, 4) ≤
    Z.of_nat (length [(0, 0); (0, 1); (1, 1)]) - 1 + heuristic (1, 1) (3, 4) ∧
  ((1, 1) = (3, 4) →
   heuristic (0, 0) (3, 4) ≤ Z.of_nat (length [(0, 0); (0, 1); (1, 1)]) - 1).
Proof.
  apply (heuristic_consistent [(0, 0); (0, 1); (1, 1)] (0, 0) (1, 1) (3, 4)).
  - reflexivity.
  - reflexivity.
  - simpl. unfold adjacent. simpl. lia.
Defined.

(** The shape of a 3x4 maze, with shuffles that keep the order. *)
Lemma generate_maze_shape_witness :
  ∃ maze k',
    generate_maze (λ _ l, l) 3 4 0 = Return (maze, k') ∧
    Z.of_nat (length maze) = 3 ∧
    Forall (λ row, Z.of_nat (length row) = 4 ∧
                   Forall (λ v, v = 0 ∨ v = 1) row) maze.
Proof.
  destruct (generate_maze_shape (λ _ l, l) 3 4 0) as [Hret Hshape].
  - intros k l. reflexivity.
  - lia.
  - lia.
  - destruct Hret as (maze & k' & Hg).
    + unfold rooms_fit, recursion_limit. vm_compute. discriminate.
    + exists maze, k'. split; [exact Hg|exact (Hshape maze k' Hg)].
Defined.

(** The open cells of a 3x3 maze, with shuffles that reverse. *)
Lemma generate_maze_open_cells_witness :
  ∃ maze k',
    generate_maze (λ _ l, rev l) 3 3 0 = Return (maze, k') ∧
    ∀ x, 0 ≤ x.1 < 3 ∧ 0 ≤ x.2 < 3 →
      (is_open maze x ↔
       room 3 3 x ∨ x = (3 - 1, 3 - 1) ∨
       ∃ a b, passage 3 3 maze a b ∧ x = mid a b) ∧
      (is_open maze x ∨ getitem2 maze x.1 x.2 = Return 1).
Proof.
  destruct (generate_maze_open_cells (λ _ l, rev l) 3 3 0) as [Hret Hcells].
  - intros k l. symmetry. apply Permutation_rev.
  - lia.
  - lia.
  - destruct Hret as (maze & k' & Hg).
    + unfold rooms_fit, recursion_limit. vm_compute. discriminate.
    + exists maze, k'. split; [exact Hg|exact (Hcells maze k' Hg)].
Defined.

(** A 3x4 maze is solved: one dimension is odd. *)
Lemma generate_then_astar_finds_path_witness :
  ∃ maze k' p tr,
    generate_maze (λ _ l, l) 3 4 0 = Return (maze, k') ∧
    astar maze (0, 0) (3 - 1, 4 - 1) = Return (Some p, tr) ∧
    joins maze p (0, 0) (3 - 1, 4 - 1).
Proof.
  destruct (generate_then_astar_finds_path (λ _ l, l) 3 4 0) as [Hret Hpath].
  - intros k l. reflexivity.
  - lia.
  - lia.
  - left. reflexivity.
  - destruct Hret as (maze & k' & Hg).
    + unfold rooms_fit, recursion_limit. vm_compute. discriminate.
    + destruct (Hpath maze k' Hg) as (p & tr & Ha & Hj).
      exists maze, k', p, tr. split; [exact Hg|]. split; [exact Ha|exact Hj].
Defined.

(** A 4x4 maze is not. *)
Lemma generate_then_astar_even_no_path_witness :
  ∃ maze k' tr,
    generate_maze (λ _ l, l) 4 4 0 = Return (maze, k') ∧
    is_open maze (4 - 1, 4 - 1) ∧
    astar maze (0, 0) (4 - 1, 4 - 1) = Return (None, tr).
Proof.
  destruct (generate_then_astar_even_no_path (λ _ l, l) 4 4 0) as [Hret Hnone].
  - intros k l. reflexivity.
  - lia.
  - lia.
  - reflexivity.
  - reflexivity.
  - destruct Hret as (maze & k' & Hg).
    + unfold rooms_fit, recursion_limit. vm_compute. discriminate.
    + destruct (Hnone maze k' Hg) as (Hc & tr & Ha).
      exists maze, k', tr. split; [exact Hg|]. split; [exact Hc|exact Ha].
Defined.

(** Four presses, one of them ignored, on a trace of one record and a
    path of one cell. *)
Lemma viewer_step_index_witness :
  ∃ v,
    visualize_maze_search [[0]] (0, 0) (0, 0) (Some [(0, 0)])
      [{| node := (0, 0); g := 0; h := 0; f := 0; neighbors := [];
          status := GoalReached |}]
      [" "; "x"; "right"; " "] = Return v ∧
    step_idx v =
    Z.min (advances [" "; "x"; "right"; " "])
          (Z.of_nat 1 + path_len (Some [(0, 0)])) - 1.
Proof.
  apply (viewer_step_index [[0]] (0, 0) (0, 0) (Some [(0, 0)])
           [{| node := (0, 0); g := 0; h := 0; f := 0; neighbors := [];
               status := GoalReached |}]
           [" "; "x"; "right"; " "]).
  split; [discriminate|]. split; [reflexivity|]. split; repeat constructor.
Defined.

(** The first step of the same viewer. *)
Lemma viewer_search_step_witness :
  ∃ v,
    visualize_maze_search [[0]] (0, 0) (0, 0) (Some [(0, 0)])
      [{| node := (0, 0); g := 0; h := 0; f := 0; neighbors := [];
          status := GoalReached |}]
      ["x"; " "] = Return v ∧
    step_idx v = Z.of_nat 0 ∧
    visited_plot (shown v) = plot_of [(0, 0)] ∧
    current_node_plot (shown v) = plot_of [(0, 0)] ∧
    path_plot (shown v) = ([], []) ∧
    text_display (shown v) =
      step_info (Z.of_nat 0)
        {| node := (0, 0); g := 0; h := 0; f := 0; neighbors := [];
           status := GoalReached |} ∧
    title (shown v) = "Visiting: " +:+ py_tuple (0, 0).
Proof.
  apply (viewer_search_step [[0]] (0, 0) (0, 0) (Some [(0, 0)])
           [{| node := (0, 0); g := 0; h := 0; f := 0; neighbors := [];
               status := GoalReached |}]
           ["x"; " "] 0
           {| node := (0, 0); g := 0; h := 0; f := 0; neighbors := [];
              status := GoalReached |}).
  - split; [discriminate|]. split; [reflexivity|]. split; repeat constructor.
  - reflexivity.
  - vm_compute. reflexivity.
Defined.

(** Two presses on the same viewer reach the path. *)
Lemma viewer_path_phase_witness :
  ∃ v,
    visualize_maze_search [[0]] (0, 0) (0, 0) (Some [(0, 0)])
      [{| node := (0, 0); g := 0; h := 0; f := 0; neighbors := [];
          status := GoalReached |}]
      [" "; "right"] = Return v ∧
    path_plot (shown v) =
      plot_of (take (Z.to_nat (advances [" "; "right"]) - 1) [(0, 0)]) ∧
    visited_plot (shown v) = plot_of [(0, 0)] ∧
    text_display (shown v) = tracing_text ∧
    title (shown v) = "Tracing Final Path".
Proof.
  apply (viewer_path_phase [[0]] (0, 0) (0, 0) [(0, 0)]
           [{| node := (0, 0); g := 0; h := 0; f := 0; neighbors := [];
               status := GoalReached |}]
           [" "; "right"]).
  - split; [discriminate|]. split; [reflexivity|]. split; repeat constructor.
  - discriminate.
  - vm_compute. reflexivity.
Defined.

(** Presses past the end, and another key, against exactly two presses. *)
Lemma viewer_counts_presses_witness :
  visualize_maze_search [[0]] (0, 0) (0, 0) (Some [(0, 0)])
    [{| node := (0, 0); g := 0; h := 0; f := 0; neighbors := [];
        status := GoalReached |}]
    [" "; "left"; " "; "right"; " "] =
  visualize_maze_search [[0]] (0, 0) (0, 0) (Some [(0, 0)])
    [{| node := (0, 0); g := 0; h := 0; f := 0; neighbors := [];
        status := GoalReached |}]
    ["right"; "right"].
Proof.
  apply (viewer_counts_presses [[0]] (0, 0) (0, 0) (Some [(0, 0)])
           [{| node := (0, 0); g := 0; h := 0; f := 0; neighbors := [];
               status := GoalReached |}]
           [" "; "left"; " "; "right"; " "] ["right"; "right"]).
  - discriminate.
  - vm_compute. reflexivity.
Defined.

(** The script with shuffles that keep the order and one key press. *)
Lemma main_reports_path_witness :
  ∃ maze k' p tr v,
    generate_maze (λ _ l, l) ROWS COLS 0 = Return (maze, k') ∧
    astar maze (0, 0) (20, 20) = Return (Some p, tr) ∧
    visualize_maze_search maze (0, 0) (20, 20) (Some p) tr [" "] = Return v ∧
    main (λ _ l, l) 0 [" "] =
    Return (["Solving maze...";
             "Path found! Length: " +:+ pretty (length p)], Some v).
Proof.
  apply (main_reports_path (λ _ l, l) 0 [" "]).
  intros k l. reflexivity.
Defined.

(** The shuffles of a 3x5 maze: six rooms. *)
Lemma generate_maze_shuffle_count_witness :
  ∃ maze k',
    generate_maze (λ _ l, l) 3 5 7 = Return (maze, k') ∧
    Z.of_nat k' = Z.of_nat 7 + ((3 + 1) `div` 2) * ((5 + 1) `div` 2).
Proof.
  destruct (generate_maze_shuffle_count (λ _ l, l) 3 5 7) as [Hret Hcount].
  - intros k l. reflexivity.
  - lia.
  - lia.
  - destruct Hret as (maze & k' & Hg).
    + unfold rooms_fit, recursion_limit. vm_compute. discriminate.
    + exists maze, k'. split; [exact Hg|exact (Hcount maze k' Hg)].
Defined.
